(** * voyc/geolib: traversal, projection and planar geometry

    A shallow embedding of [trig.js], [geolib.js] and [geoiterator.js].

    Number model.  The planar helpers of [trig.js] use only IEEE-754
    operations that are exactly specified (+, -, *, /, sqrt, abs, min and
    comparisons); they are embedded over Rocq's binary64 floats so that
    division by zero, infinities and NaN behave as in JavaScript.  The
    spherical code calls [Math.sin], [Math.cos], [Math.atan2], ... whose
    results are only specified up to approximation; it is embedded over
    the real numbers, each [Math] function being its real counterpart.
    Where a property turns on the rounding itself, module [Binary64] at
    the end gives the binary64 arithmetic of the code concerned. *)

From Stdlib Require Import Reals Lra Lia List Bool ZArith String.
From Stdlib Require Floats.
Import ListNotations.

(** ** Planar geometry of [trig.js] over binary64 *)

Module Planar.

Import Floats.
Local Open Scope float_scope.

(** A JavaScript array [[x,y]] of two numbers. *)
Definition point : Type := (float * float)%type.

(** [Math.pow(x,2)]; the square is taken by one multiplication. *)
Definition Math_pow2 (x : float) : float := x * x.

(** [Math.min(a,b)]: NaN if either is NaN, and -0 is below +0. *)
Definition Math_min (a b : float) : float :=
  if is_nan a || is_nan b then nan
  else if a <? b then a
  else if b <? a then b
  else match classify a with FloatClass.NZero => a | _ => b end.

Definition length (A B : point) : float :=
  let xA := fst A in
  let yA := snd A in
  let xB := fst B in
  let yB := snd B in
  sqrt (Math_pow2 (yB - yA) + Math_pow2 (xB - xA)).

Definition slope (A B : point) : float :=
  let xA := fst A in
  let yA := snd A in
  let xB := fst B in
  let yB := snd B in
  (yB - yA) / (xB - xA).

Definition slopePerpendicular (m : float) : float := (-1) / m.

(** The five-element array [[a,b,c,m,i]]. *)
Record line : Type := Line { la : float; lb : float; lc : float; lm : float; li : float }.

Definition lineGivenTwoPoints (A B : point) : line :=
  let xA := fst A in
  let yA := snd A in
  let xB := fst B in
  let yB := snd B in
  let a := yA - yB in
  let b := xB - xA in
  let c := (xA * yB) - (xB * yA) in
  let m := (- a) / b in
  let i := (- c) / b in
  Line a b c m i.

Definition lineGivenSlopeAndOnePoint (m : float) (A : point) : line :=
  let xA := fst A in
  let yA := snd A in
  let i := (- m) * xA + yA in
  let xB := 0 in
  let yB := i in
  let a := yA - yB in
  let b := xB - xA in
  let c := (xA * yB) - (xB * yA) in
  Line a b c m i.

Definition intersection (A B C : point) : point :=
  let AB := lineGivenTwoPoints A B in
  let a1 := la AB in
  let b1 := lb AB in
  let c1 := lc AB in
  let m1 := lm AB in
  let mp := slopePerpendicular m1 in
  let CD := lineGivenSlopeAndOnePoint mp C in
  let a2 := la CD in
  let b2 := lb CD in
  let c2 := lc CD in
  let x := (b1 * c2 - b2 * c1) / (a1 * b2 - a2 * b1) in
  let y := (a2 * c1 - a1 * c2) / (a1 * b2 - a2 * b1) in
  (x, y).

Definition distancePointToLine (E A B : point) : float :=
  let xE := fst E in
  let yE := snd E in
  let ln := lineGivenTwoPoints A B in
  let a := la ln in
  let b := lb ln in
  let c := lc ln in
  abs (a * xE + b * yE + c) / sqrt (a * a + b * b).

Definition pointInRect (C A B : point) : bool :=
  let l := fst A in
  let t := snd A in
  let r := fst B in
  let b := snd B in
  (l <? fst C) && (fst C <? r) && (snd C <? t) && (b <? snd C).

Definition distancePointToLineSeg (E A B : point) : float :=
  let d := distancePointToLine E A B in
  let D := intersection A B E in
  let isInside := pointInRect D A B in
  if isInside then d
  else
    let dae := length A E in
    let dbe := length B E in
    Math_min dae dbe.

End Planar.

(** ** Constants and spherical functions of [geolib.js] over the reals *)

Module Geo.

Local Open Scope R_scope.

Definition Rltb (x y : R) : bool := if Rlt_dec x y then true else false.
Definition Rleb (x y : R) : bool := if Rle_dec x y then true else false.

Definition π : R := PI.
Definition τ : R := 2 * PI.
Definition halfπ : R := PI / 2.
Definition radiusKm : R := 6371.

Definition radians (x : R) : R := x * (PI / 180).
Definition degrees (x : R) : R := x * (180 / PI).

(** [Math.atan2(y,x)], with [Math.atan2(0,0) = 0]. *)
Definition Math_atan2 (y x : R) : R :=
  if Rlt_dec 0 x then atan (y / x)
  else if Rlt_dec x 0 then
    if Rle_dec 0 y then atan (y / x) + PI else atan (y / x) - PI
  else if Rlt_dec 0 y then PI / 2
  else if Rlt_dec y 0 then - (PI / 2)
  else 0.

(** [Math.asin(x)]: [None] stands for the NaN returned outside [-1,1]. *)
Definition Math_asin (x : R) : option R :=
  if Rle_dec (-1) x then if Rle_dec x 1 then Some (Ratan.asin x) else None
  else None.

(** Modelled from the spec: [voyc.clamp] is not part of the sources; the
    spec says the latitude is clamped to plus or minus the clamp latitude. *)
Definition clamp (x lo hi : R) : R := Rmax lo (Rmin x hi).

(** [x % m] for a positive modulus: the remainder has the sign of [x]. *)
Definition js_rem (x m : R) : R :=
  if Rle_dec 0 x then x - m * IZR (Int_part (x / m))
  else - ((- x) - m * IZR (Int_part ((- x) / m))).

Definition mercatorStretch (latm : R) : R :=
  let phim := radians latm in
  let phi := ln (tan (PI / 4 + phim / 2)) in
  degrees phi.

(** Over the reals the arc tangent stays below pi/2; the one of binary64
    reaches it from about [|lat| = 2139], where the code returns 90 or
    -90. *)
Definition mercatorShrink (lat : R) : R :=
  let phi := radians lat in
  let phim := (2 * atan (exp phi)) - (PI / 2) in
  degrees phim.

(** A coordinate [[lng,lat]] in degrees. *)
Definition coord : Type := (R * R)%type.

(** [voyc.calcθ], the haversine formula, over the reals, where [hav] stays
    within [0, 1].  In binary64 [hav] can round above 1 for two nearly
    opposite points, and the code then returns NaN; [Binary64.calcθ] below
    keeps what binary64 fixes of the result. *)
Definition calcθ (coA coB : coord) : R :=
  let λA := radians (fst coA) in
  let φA := radians (snd coA) in
  let λB := radians (fst coB) in
  let φB := radians (snd coB) in
  let Δλ := λB - λA in
  let Δφ := φB - φA in
  let hav := sin (Δφ / 2) * sin (Δφ / 2) +
             sin (Δλ / 2) * sin (Δλ / 2) * cos φA * cos φB in
  let θ := 2 * Math_atan2 (sqrt hav) (sqrt (1 - hav)) in
  θ.

Definition distanceKm (coA coB : coord) : R := calcθ coA coB * radiusKm.
Definition distancePixels (coA coB : coord) (scale : R) : R := calcθ coA coB * scale.

End Geo.

(** ** class Projection of [trig.js] *)

Module Projection.

Import Geo.
Local Open Scope R_scope.

Record mixer_t : Type := Mixer {
  orthographic : bool;
  cylindrical : bool;
  stitch : bool;
  viewport : bool;
  mercator : bool;
  soupcan : bool }.

(** The table [voyc.mixer]; an index outside 0..8 gives [undefined]. *)
Definition voyc_mixer (i : nat) : option mixer_t :=
  match i with
  | 0%nat => Some (Mixer true false false false false false)
  | 1%nat => Some (Mixer true false false false false false)
  | 2%nat => Some (Mixer true true false true false true)
  | 3%nat => Some (Mixer true true false true false true)
  | 4%nat => Some (Mixer false true false true false true)
  | 5%nat => Some (Mixer false true false true false true)
  | 6%nat => Some (Mixer false true true true true false)
  | 7%nat => Some (Mixer false true true true true false)
  | 8%nat => Some (Mixer false true true true true false)
  | _ => None
  end.

(** The initial [this.mixer = {}]: every flag is [undefined], hence falsy. *)
Definition empty_mixer : mixer_t := Mixer false false false false false false.

(** The fields of a Projection object. *)
Record t : Type := Make {
  co : R * R;
  pt : R * R;
  zoom : R;
  δλ : R;
  δφ : R;
  δγ : R;
  cosδφ : R;
  sinδφ : R;
  cosδγ : R;
  sinδγ : R;
  δx : R;
  δy : R;
  wd : R;
  ht : R;
  k : R;
  pxlPerDgr : R;
  cr : R;
  cx : (R * R) * (R * R);
  mx : (R * R) * (R * R);
  latClamp : R;
  mixer : mixer_t;
  mf : R;
  sf : R }.

Definition set_pt0 (p : t) (x : R) : t :=
  Make (co p) (x, snd (pt p)) (zoom p) (δλ p) (δφ p) (δγ p)
       (cosδφ p) (sinδφ p) (cosδγ p) (sinδγ p) (δx p) (δy p) (wd p) (ht p)
       (k p) (pxlPerDgr p) (cr p) (cx p) (mx p) (latClamp p) (mixer p)
       (mf p) (sf p).

(** A projected point [[x,y,visible]]; [None] is an [undefined] entry. *)
Record pixel : Type := Pixel { px : option R; py : option R; pvisible : bool }.

(** The array [[lng,lat,visible]] returned by [invert]; [None] is an
    [undefined] or NaN entry. *)
Record inverted : Type := Inverted { ilng : option R; ilat : option R; ivisible : bool }.

Definition clipAngle (angle : R) : R :=
  let clipRadians := radians angle in
  cos clipRadians.

Definition isVisibleExtent (p : t) (x y : R) : bool :=
  Rleb (fst (fst (cx p))) x && Rleb x (fst (snd (cx p)))
  && Rleb (snd (fst (cx p))) y && Rleb y (snd (snd (cx p))).

Definition isPointVisible (p : t) (λ φ : R) : bool :=
  Rltb (cr p) (cos λ * cos φ).

Definition isPointInCircle (p : t) (x y : R) : bool :=
  let xc := wd p / 2 in
  let yc := ht p / 2 in
  let r := k p in
  Rleb ((x - xc) ^ 2 + (y - yc) ^ 2) (r ^ 2).

(** [Projection.prototype.asin] *)
Definition asin (x : R) : option R :=
  if Rlt_dec 1 x then Some halfπ
  else if Rlt_dec x (-1) then Some (- halfπ)
  else Math_asin x.

(** The cylindrical block of [project]: [(xc, yc)]. *)
Definition project_cylindrical (p : t) (c : coord) : R * R :=
  let lng := fst c in
  let lat := 0 - snd c in
  let lat :=
    if mercator (mixer p) then
      let lat := clamp lat (0 - latClamp p) (latClamp p) in
      let latm := mercatorStretch lat in
      lat + ((latm - lat) * mf p)
    else lat in
  let lng := lng - fst (co p) in
  let lat := lat - snd (co p) in
  let lng :=
    if soupcan (mixer p) then degrees (sin (radians lng)) else lng in
  let xc := lng * pxlPerDgr p in
  let yc := lat * pxlPerDgr p in
  let xc := xc + fst (pt p) in
  let yc := yc + snd (pt p) in
  (xc, yc).

(** The orthographic block of [project]: the visible flag and, when the
    point is visible, [(xo, yo)]. *)
Definition project_orthographic (p : t) (c : coord) : bool * option (R * R) :=
  let λ := radians (fst c) in
  let φ := radians (snd c) in
  let λ := λ + δλ p in
  let λ := if Rlt_dec PI λ then λ - τ
           else if Rlt_dec λ (- PI) then λ + τ else λ in
  let cosφ := cos φ in
  let x := cos λ * cosφ in
  let y := sin λ * cosφ in
  let z := sin φ in
  let k0 := z * cosδφ p + x * sinδφ p in
  let λ := Math_atan2 (y * cosδγ p - k0 * sinδγ p) (x * cosδφ p - z * sinδφ p) in
  match asin (k0 * cosδγ p + y * sinδγ p) with
  | None => (false, None)
  | Some φ =>
    let visible := isPointVisible p λ φ in
    if visible then
      let cosλ := cos λ in
      let cosφ := cos φ in
      let k1 := 1 in
      let work2x := k1 * cosφ * sin λ in
      let work2y := k1 * sin φ in
      let work3x := work2x * k p + δx p in
      let work3y := δy p - work2y * k p in
      (true, Some (work3x, work3y))
    else (false, None)
  end.

Definition project (p : t) (c : coord) : pixel :=
  let cyl := if cylindrical (mixer p) then Some (project_cylindrical p c) else None in
  let ort := if orthographic (mixer p) then project_orthographic p c else (true, None) in
  let visible := fst ort in
  match cyl with
  | Some (xc, yc) => Pixel (Some xc) (Some yc) visible
  | None => Pixel (option_map fst (snd ort)) (option_map snd (snd ort)) visible
  end.

(** The cylindrical block of [invert].  The two quotients stand for the
    code's only when [pxlPerDgr] is not zero: there the code divides into
    an infinity or NaN. *)
Definition invert_cylindrical (p : t) (q : R * R) : inverted :=
  let visible := isVisibleExtent p (fst q) (snd q) in
  let x := fst q - fst (pt p) in
  let y := snd q - snd (pt p) in
  let lng := x / pxlPerDgr p in
  let lat := y / pxlPerDgr p in
  let lng := lng + fst (co p) in
  let lat := lat + snd (co p) in
  let lat := mercatorShrink lat in
  let lat := 0 - lat in
  let lng := if Rlt_dec 180 lng then -180 + js_rem lng 180 else lng in
  let lng := if Rlt_dec lng (-180) then 180 + js_rem lng 180 else lng in
  Inverted (Some lng) (Some lat) visible.

(** The orthographic block of [invert]. *)
Definition invert_orthographic (p : t) (q : R * R) : inverted :=
  let visible := isPointInCircle p (fst q) (snd q) in
  let x := (fst q - δx p) / k p in
  let y := (δy p - snd q) / k p in
  let ρ := sqrt (x * x + y * y) in
  match asin ρ with
  | None => Inverted None None visible
  | Some c =>
    let sinc := sin c in
    let cosc := cos c in
    let λ := Math_atan2 (x * sinc) (ρ * cosc) in
    match Math_asin (if Req_dec_T ρ 0 then ρ else y * sinc / ρ) with
    | None => Inverted None None visible
    | Some φ =>
      let cosφ := cos φ in
      let xx := cos λ * cosφ in
      let yy := sin λ * cosφ in
      let zz := sin φ in
      let k0 := zz * cosδγ p - yy * sinδγ p in
      let λ := Math_atan2 (yy * cosδγ p + zz * sinδγ p) (xx * cosδφ p + k0 * sinδφ p) in
      match asin (k0 * cosδφ p - xx * sinδφ p) with
      | None => Inverted None None visible
      | Some φ =>
        let λ := λ - δλ p in
        let λ := if Rlt_dec PI λ then λ - τ
                 else if Rlt_dec λ (- π) then λ + τ else λ in
        let lng := degrees λ in
        let lat := degrees φ in
        Inverted (Some lng) (Some lat) visible
      end
    end
  end.

(** [invert] applied to a pair of numbers. *)
Definition invert (p : t) (q : R * R) : inverted :=
  let r0 := Inverted None None true in
  let r1 := if cylindrical (mixer p) then invert_cylindrical p q else r0 in
  if orthographic (mixer p) then invert_orthographic p q else r1.

(** [invert] applied to the array returned by [project]: an [undefined]
    entry turns every number computed from it into NaN and every
    comparison into [false]. *)
Definition invert_pixel (p : t) (q : pixel) : inverted :=
  match px q, py q with
  | Some x, Some y => invert p (x, y)
  | _, _ => Inverted None None
              (negb (cylindrical (mixer p) || orthographic (mixer p)))
  end.

(** What the constructor, [rotate] and [scale] establish: the cached
    sines and cosines are those of the rotation angles, the yaw is less
    than a full turn, the clip threshold is that of 90 degrees and the
    globe has a radius. *)
Definition prepared (p : t) : Prop :=
  cosδφ p = cos (δφ p) /\ sinδφ p = sin (δφ p)
  /\ cosδγ p = cos (δγ p) /\ sinδγ p = sin (δγ p)
  /\ cr p = clipAngle 90
  /\ - τ < δλ p < τ
  /\ k p <> 0.

(** [invert(project(c))] gives back the longitude and latitude of [c]. *)
Definition round_trip (p : t) (c : coord) : Prop :=
  ilng (invert_pixel p (project p c)) = Some (fst c)
  /\ ilat (invert_pixel p (project p c)) = Some (snd c).

End Projection.

(** ** GeoJSON data and the values hooks return *)

Module JS.

(** The JavaScript values the traversal tells apart: [true], [false], [0],
    [undefined], [null], and any other truthy value. *)
Inductive value : Type := VTrue | VFalse | VZero | VUndefined | VNull | VObject.

Definition truthy (v : value) : bool :=
  match v with
  | VTrue | VObject => true
  | _ => false
  end.

(** What running a piece of JavaScript gives: a result, an exception, or
    no answer within the call depth allowed. *)
Inductive outcome (X : Type) : Type :=
  | Done (x : X)
  | Throw
  | OutOfFuel.

Arguments Done {X} x.
Arguments Throw {X}.
Arguments OutOfFuel {X}.

End JS.

Module GeoJSON.

Import Geo.

Definition ring : Type := list coord.

(** A polygon is an array of rings of which only the first is used. *)
Record polygon : Type := Polygon_ { ring0 : ring; more_rings : list ring }.

Inductive geometry : Type :=
  | MultiPolygon (coordinates : list polygon)
  | Polygon (coordinates : polygon)
  | MultiLineString (coordinates : list (list coord))
  | LineString (coordinates : list coord)
  | MultiPoint (coordinates : list coord)
  | Point (coordinates : coord).

Record collection : Type := Collection { geometries : list geometry }.

(** The [within] argument of [doPoint]: ['poly'], ['line'] or ['point']. *)
Inductive within : Type := Poly | Line | Pnt.

End GeoJSON.

(** ** class GeoIterator of [geoiterator.js] *)

Module GeoIterator.

Import JS GeoJSON Geo.

(** The hook invocations, kept in a call log next to the object. *)
Inductive hook : Type :=
  | HCollectionStart
  | HCollectionEnd
  | HGeometryStart (g : geometry)
  | HGeometryEnd (g : geometry)
  | HPolygonStart (r : ring)
  | HPolygonEnd (r : ring)
  | HLineStart (l : list coord)
  | HLineEnd (l : list coord)
  | HDoPoint (c : coord) (w : within) (ndx : Z).

Record call : Type := Call { hook_of : hook; returned : value }.

Section Iterator.

(** [E]: the fields a subclass adds to the object; [A]: the additional
    arguments of [iterateCollection]. *)
Context {E A : Type}.

(** The fields of [this] set by the base class. *)
Record this : Type := This {
  ret : value;
  collection : option GeoJSON.collection;
  geometry : option GeoJSON.geometry;
  polygon : option GeoJSON.polygon;
  line : option (list coord);
  forcePoint : bool;
  ext : E }.

(** The object together with the log of the hook calls made so far. *)
Record world : Type := World { self : this; calls : list call }.

(** A method body: it reads and writes [this] and may throw. *)
Definition H (X : Type) : Type := this -> outcome (X * this).

(** A traversal method: it also extends the call log. *)
Definition M (X : Type) : Type := world -> outcome (X * world).

Definition mret {X : Type} (x : X) : M X := fun w => Done (x, w).

Definition bind {X Y : Type} (c : M X) (f : X -> M Y) : M Y :=
  fun w =>
    match c w with
    | Done (x, w') => f x w'
    | Throw => Throw
    | OutOfFuel => OutOfFuel
    end.

Definition update (f : this -> this) : M unit :=
  fun w => Done (tt, World (f (self w)) (calls w)).

Definition get : M this := fun w => Done (self w, w).

(** Invoke a hook and log the call with the value it returned. *)
Definition invoke (h : hook) (c : H value) : M value :=
  fun w =>
    match c (self w) with
    | Done (v, s) => Done (v, World s (calls w ++ [Call h v]))
    | Throw => Throw
    | OutOfFuel => OutOfFuel
    end.

(** Log the entry into a hook whose result is not used. *)
Definition enter (h : hook) : M unit :=
  fun w => Done (tt, World (self w) (calls w ++ [Call h VUndefined])).

(** The overridable methods.  [geometryEnd] receives [this.iterateGeometry]
    because a subclass may call it again from there. *)
Record methods : Type := Methods {
  collectionStart : GeoJSON.collection -> A -> H value;
  collectionEnd : GeoJSON.collection -> M unit;
  geometryStart : GeoJSON.geometry -> H value;
  geometryEnd : (GeoJSON.geometry -> M value) -> GeoJSON.geometry -> M unit;
  polygonStart : ring -> H value;
  polygonEnd : ring -> M unit;
  lineStart : list coord -> H value;
  lineEnd : list coord -> M unit;
  doPoint : coord -> within -> Z -> H value }.

Definition set_ret (v : value) (s : this) : this :=
  This v (collection s) (geometry s) (polygon s) (line s) (forcePoint s) (ext s).
Definition set_collection (c : GeoJSON.collection) (s : this) : this :=
  This (ret s) (Some c) (geometry s) (polygon s) (line s) (forcePoint s) (ext s).
Definition set_geometry (g : GeoJSON.geometry) (s : this) : this :=
  This (ret s) (collection s) (Some g) None None (forcePoint s) (ext s).
Definition set_polygon (p : GeoJSON.polygon) (s : this) : this :=
  This (ret s) (collection s) (geometry s) (Some p) (line s) (forcePoint s) (ext s).
Definition set_line (l : list coord) (s : this) : this :=
  This (ret s) (collection s) (geometry s) (polygon s) (Some l) (forcePoint s) (ext s).
Definition set_ext (e : E) (s : this) : this :=
  This (ret s) (collection s) (geometry s) (polygon s) (line s) (forcePoint s) e.

Variable m : methods.

(** [while (boo && ++i<len) { boo = body(xs[i], i) }] where [xs] holds the
    elements after index [i]. *)
Fixpoint while_loop {X : Type} (body : X -> Z -> M value) (xs : list X)
    (i : Z) (boo : value) : M value :=
  match xs with
  | [] => mret boo
  | x :: xs' =>
    if truthy boo
    then bind (body x (i + 1)%Z) (fun b => while_loop body xs' (i + 1)%Z b)
    else mret boo
  end.

Definition point_body (w : within) (c : coord) (i : Z) : M value :=
  invoke (HDoPoint c w i) (doPoint m c w i).

Definition iteratePolygon (polygon : GeoJSON.polygon) : M value :=
  bind (update (set_polygon polygon)) (fun _ =>
  let poly := ring0 polygon in
  bind (invoke (HPolygonStart poly) (polygonStart m poly)) (fun started =>
  bind (if truthy started
        then while_loop (point_body Poly) poly (-1)%Z VTrue
        else mret VTrue) (fun boo =>
  bind (enter (HPolygonEnd poly)) (fun _ =>
  bind (polygonEnd m poly) (fun _ =>
  mret boo))))).

Definition iterateLine (line : list coord) : M value :=
  bind (update (set_line line)) (fun _ =>
  bind (invoke (HLineStart line) (lineStart m line)) (fun started =>
  bind (if truthy started
        then while_loop (point_body Line) line (-1)%Z VTrue
        else mret VUndefined) (fun boo =>
  bind (enter (HLineEnd line)) (fun _ =>
  bind (lineEnd m line) (fun _ =>
  mret boo))))).

(** The [switch] on the geometry type. *)
Definition iterateCoordinates (g : GeoJSON.geometry) : M value :=
  match g with
  | MultiPolygon cs => while_loop (fun x _ => iteratePolygon x) cs (-1)%Z VTrue
  | Polygon c => iteratePolygon c
  | MultiLineString cs => while_loop (fun x _ => iterateLine x) cs (-1)%Z VTrue
  | LineString c => iterateLine c
  | MultiPoint cs => while_loop (point_body Pnt) cs (-1)%Z VTrue
  | Point c => point_body Pnt c (-1)%Z
  end.

(** [fuel] bounds the depth of the calls of [iterateGeometry] made from
    within [geometryEnd]. *)
Fixpoint iterateGeometry (fuel : nat) (g : GeoJSON.geometry) : M value :=
  match fuel with
  | O => fun _ => OutOfFuel
  | S fuel' =>
    bind (update (set_geometry g)) (fun _ =>
    bind (invoke (HGeometryStart g) (geometryStart m g)) (fun geostat =>
    match geostat with
    | VZero => mret VTrue
    | VFalse => mret VFalse
    | VTrue =>
      bind (iterateCoordinates g) (fun boo =>
      bind (enter (HGeometryEnd g)) (fun _ =>
      bind (geometryEnd m (iterateGeometry fuel') g) (fun _ =>
      mret boo)))
    | _ => mret VNull
    end))
  end.

(** The loop over the geometries of [iterateCollection]. *)
Definition iterateGeometries (fuel : nat) (gs : list GeoJSON.geometry) (i : Z) : M value :=
  while_loop (fun g _ => iterateGeometry fuel g) gs i VTrue.

Definition iterateCollection (fuel : nat) (c : GeoJSON.collection) (add : A) : M value :=
  bind (update (fun s => set_collection c (set_ret VFalse s))) (fun _ =>
  bind (invoke HCollectionStart (collectionStart m c add)) (fun started =>
  bind (if truthy started
        then bind (iterateGeometries fuel (geometries c) (-1)%Z) (fun _ =>
             bind (enter HCollectionEnd) (fun _ =>
             collectionEnd m c))
        else mret tt) (fun _ =>
  bind get (fun s => mret (ret s))))).

End Iterator.

Arguments this : clear implicits.
Arguments world : clear implicits.
Arguments methods : clear implicits.
Arguments H : clear implicits.
Arguments M : clear implicits.

(** A method body that neither throws nor calls back into the traversal. *)
Definition lift {E X : Type} (f : this E -> X * this E) : H E X :=
  fun s => Done (f s).

Definition lift_ {E : Type} (f : this E -> this E) : M E unit :=
  update f.

(** A visitor whose hooks always return and whose end hooks do not call
    the traversal again. *)
Record visitor (E A : Type) : Type := Visitor {
  v_collectionStart : GeoJSON.collection -> A -> this E -> value * this E;
  v_collectionEnd : GeoJSON.collection -> this E -> this E;
  v_geometryStart : GeoJSON.geometry -> this E -> value * this E;
  v_geometryEnd : GeoJSON.geometry -> this E -> this E;
  v_polygonStart : ring -> this E -> value * this E;
  v_polygonEnd : ring -> this E -> this E;
  v_lineStart : list coord -> this E -> value * this E;
  v_lineEnd : list coord -> this E -> this E;
  v_doPoint : coord -> within -> Z -> this E -> value * this E }.

Arguments Visitor {E A}.
Arguments v_collectionStart {E A}.
Arguments v_collectionEnd {E A}.
Arguments v_geometryStart {E A}.
Arguments v_geometryEnd {E A}.
Arguments v_polygonStart {E A}.
Arguments v_polygonEnd {E A}.
Arguments v_lineStart {E A}.
Arguments v_lineEnd {E A}.
Arguments v_doPoint {E A}.

Definition methods_of {E A : Type} (v : visitor E A) : methods E A :=
  Methods
    (fun c add => lift (v_collectionStart v c add))
    (fun c => lift_ (v_collectionEnd v c))
    (fun g => lift (v_geometryStart v g))
    (fun _ g => lift_ (v_geometryEnd v g))
    (fun r => lift (v_polygonStart v r))
    (fun r => lift_ (v_polygonEnd v r))
    (fun l => lift (v_lineStart v l))
    (fun l => lift_ (v_lineEnd v l))
    (fun c w i => lift (v_doPoint v c w i)).

(** The hooks of the base class: [doPoint], [geometryStart],
    [polygonStart] and [lineStart] return [true]; the others have an empty
    body and so return [undefined]. *)
Definition base : visitor unit unit :=
  Visitor
    (fun _ _ s => (VUndefined, s))
    (fun _ s => s)
    (fun _ s => (VTrue, s))
    (fun _ s => s)
    (fun _ s => (VTrue, s))
    (fun _ s => s)
    (fun _ s => (VTrue, s))
    (fun _ s => s)
    (fun _ _ _ s => (VTrue, s)).

(** A subclass for tests: each hook returns the value [answer] prescribes
    for it and leaves the object alone. *)
Definition scripted (answer : hook -> value) : visitor unit unit :=
  Visitor
    (fun _ _ s => (answer HCollectionStart, s))
    (fun _ s => s)
    (fun g s => (answer (HGeometryStart g), s))
    (fun _ s => s)
    (fun r s => (answer (HPolygonStart r), s))
    (fun _ s => s)
    (fun l s => (answer (HLineStart l), s))
    (fun _ s => s)
    (fun c w i s => (answer (HDoPoint c w i), s)).

(** The end hooks: their result is never looked at. *)
Definition is_end (k : call) : bool :=
  match hook_of k with
  | HCollectionEnd | HGeometryEnd _ | HPolygonEnd _ | HLineEnd _ => true
  | _ => false
  end.

(** The results that stop the traversal: a falsy result of
    [collectionStart] or [doPoint], and a result of [geometryStart] that
    is neither [true] nor [0]. *)
Definition aborts (k : call) : bool :=
  match hook_of k with
  | HCollectionStart | HDoPoint _ _ _ => negb (truthy (returned k))
  | HGeometryStart _ =>
    match returned k with
    | VTrue | VZero => false
    | _ => true
    end
  | _ => false
  end.

(** The hooks for which this holds of [false]. *)
Definition stops_on_false (h : hook) : bool :=
  match h with
  | HCollectionStart | HGeometryStart _ | HDoPoint _ _ _ => true
  | _ => false
  end.

(** Logs in which nothing aborts, and logs of end hooks only. *)
Definition quiet (T : list call) : Prop := forallb (fun k => negb (aborts k)) T = true.
Definition only_ends (T : list call) : Prop := forallb is_end T = true.

(** The calls [T] made by a method that returned [b]: either nothing
    aborted, or the abort is followed by end hooks only and [b] is falsy. *)
Definition shape (T : list call) (b : value) : Prop :=
  quiet T \/
  exists T1 k T2,
    T = T1 ++ k :: T2 /\ quiet T1 /\ aborts k = true /\ only_ends T2
    /\ truthy b = false.

(** A method that returns, extending the log by calls of this shape. *)
Definition behaves {E : Type} (c : M E value) : Prop :=
  forall w, exists b w' T,
    c w = Done (b, w') /\ calls w' = calls w ++ T /\ shape T b.

(** [new voyc.GeoIterator()] *)
Definition new {E : Type} (e : E) : this E :=
  This VFalse None None None None false e.

End GeoIterator.

(** ** class GeoIteratorClip of [geoiterator.js] *)

Module GeoIteratorClip.

Import JS GeoJSON Geo GeoIterator.
Local Open Scope R_scope.

(** A number that may fail to be finite: [None] stands for [undefined],
    NaN or an infinity. *)
Definition num : Type := option R.

Definition num2 (f : R -> R -> R) (a b : num) : num :=
  match a, b with
  | Some x, Some y => Some (f x y)
  | _, _ => None
  end.

(** The calls received by the 2D drawing context. *)
Inductive cmd : Type :=
  | clearRect (x y w h : R)
  | beginPath
  | moveTo (x y : num)
  | lineTo (x y : num)
  | arcTo (x1 y1 x2 y2 : num) (r : R)
  | arc (x y r : num) (a0 a1 : R) (counterclockwise : bool)
  | fillStyle (s : option string)
  | strokeStyle (s : option string)
  | lineWidth (w : num)
  | setLineDash (d : list R)
  | fill
  | stroke.

Record canvas : Type := Canvas { width : R; height : R; drawn : list cmd }.

Record palette_entry : Type := Palette {
  pat : option string;
  pfill : option string;
  pstroke : option string;
  pen : num;
  dash : option (list R);
  ptRadius : num }.

Definition truthy_string (s : option string) : bool :=
  match s with
  | Some EmptyString | None => false
  | Some _ => true
  end.

(** A counter that is [undefined] or NaN ([None]) until it is reset. *)
Definition counter : Type := option nat.

Definition truthy_counter (c : counter) : bool :=
  match c with
  | Some (S _) => true
  | _ => false
  end.

Definition incr (c : counter) : counter := option_map S c.

(** The fields GeoIteratorClip adds to the object. *)
Record fields : Type := Fields {
  projection : Projection.t;
  ctx : canvas;
  palette : list palette_entry;
  paletteNdx : option nat;
  pass : option Z;
  pointCount : counter;
  visiblePointCount : counter;
  firstVisiblePointInRing : option Projection.pixel;
  lastVisiblePointInRing : option Projection.pixel;
  lastVisiblePointBeforeGap : option Projection.pixel;
  firstVisiblePointAfterGap : option Projection.pixel;
  isGapAtStart : bool;
  isGapAtEnd : bool;
  previousPt : option Projection.pixel }.

Definition with_projection (v : Projection.t) (f : fields) : fields :=
  Fields v (ctx f) (palette f) (paletteNdx f) (pass f) (pointCount f)
    (visiblePointCount f) (firstVisiblePointInRing f) (lastVisiblePointInRing f)
    (lastVisiblePointBeforeGap f) (firstVisiblePointAfterGap f)
    (isGapAtStart f) (isGapAtEnd f) (previousPt f).
Definition with_ctx (v : canvas) (f : fields) : fields :=
  Fields (projection f) v (palette f) (paletteNdx f) (pass f) (pointCount f)
    (visiblePointCount f) (firstVisiblePointInRing f) (lastVisiblePointInRing f)
    (lastVisiblePointBeforeGap f) (firstVisiblePointAfterGap f)
    (isGapAtStart f) (isGapAtEnd f) (previousPt f).
Definition with_palette (v : list palette_entry) (f : fields) : fields :=
  Fields (projection f) (ctx f) v (paletteNdx f) (pass f) (pointCount f)
    (visiblePointCount f) (firstVisiblePointInRing f) (lastVisiblePointInRing f)
    (lastVisiblePointBeforeGap f) (firstVisiblePointAfterGap f)
    (isGapAtStart f) (isGapAtEnd f) (previousPt f).
Definition with_pass (v : option Z) (f : fields) : fields :=
  Fields (projection f) (ctx f) (palette f) (paletteNdx f) v (pointCount f)
    (visiblePointCount f) (firstVisiblePointInRing f) (lastVisiblePointInRing f)
    (lastVisiblePointBeforeGap f) (firstVisiblePointAfterGap f)
    (isGapAtStart f) (isGapAtEnd f) (previousPt f).
Definition with_pointCount (v : counter) (f : fields) : fields :=
  Fields (projection f) (ctx f) (palette f) (paletteNdx f) (pass f) v
    (visiblePointCount f) (firstVisiblePointInRing f) (lastVisiblePointInRing f)
    (lastVisiblePointBeforeGap f) (firstVisiblePointAfterGap f)
    (isGapAtStart f) (isGapAtEnd f) (previousPt f).
Definition with_visiblePointCount (v : counter) (f : fields) : fields :=
  Fields (projection f) (ctx f) (palette f) (paletteNdx f) (pass f) (pointCount f)
    v (firstVisiblePointInRing f) (lastVisiblePointInRing f)
    (lastVisiblePointBeforeGap f) (firstVisiblePointAfterGap f)
    (isGapAtStart f) (isGapAtEnd f) (previousPt f).
Definition with_firstVisiblePointInRing (v : option Projection.pixel) (f : fields) : fields :=
  Fields (projection f) (ctx f) (palette f) (paletteNdx f) (pass f) (pointCount f)
    (visiblePointCount f) v (lastVisiblePointInRing f)
    (lastVisiblePointBeforeGap f) (firstVisiblePointAfterGap f)
    (isGapAtStart f) (isGapAtEnd f) (previousPt f).
Definition with_lastVisiblePointInRing (v : option Projection.pixel) (f : fields) : fields :=
  Fields (projection f) (ctx f) (palette f) (paletteNdx f) (pass f) (pointCount f)
    (visiblePointCount f) (firstVisiblePointInRing f) v
    (lastVisiblePointBeforeGap f) (firstVisiblePointAfterGap f)
    (isGapAtStart f) (isGapAtEnd f) (previousPt f).
Definition with_lastVisiblePointBeforeGap (v : option Projection.pixel) (f : fields) : fields :=
  Fields (projection f) (ctx f) (palette f) (paletteNdx f) (pass f) (pointCount f)
    (visiblePointCount f) (firstVisiblePointInRing f) (lastVisiblePointInRing f)
    v (firstVisiblePointAfterGap f)
    (isGapAtStart f) (isGapAtEnd f) (previousPt f).
Definition with_firstVisiblePointAfterGap (v : option Projection.pixel) (f : fields) : fields :=
  Fields (projection f) (ctx f) (palette f) (paletteNdx f) (pass f) (pointCount f)
    (visiblePointCount f) (firstVisiblePointInRing f) (lastVisiblePointInRing f)
    (lastVisiblePointBeforeGap f) v
    (isGapAtStart f) (isGapAtEnd f) (previousPt f).
Definition with_isGapAtStart (v : bool) (f : fields) : fields :=
  Fields (projection f) (ctx f) (palette f) (paletteNdx f) (pass f) (pointCount f)
    (visiblePointCount f) (firstVisiblePointInRing f) (lastVisiblePointInRing f)
    (lastVisiblePointBeforeGap f) (firstVisiblePointAfterGap f)
    v (isGapAtEnd f) (previousPt f).
Definition with_isGapAtEnd (v : bool) (f : fields) : fields :=
  Fields (projection f) (ctx f) (palette f) (paletteNdx f) (pass f) (pointCount f)
    (visiblePointCount f) (firstVisiblePointInRing f) (lastVisiblePointInRing f)
    (lastVisiblePointBeforeGap f) (firstVisiblePointAfterGap f)
    (isGapAtStart f) v (previousPt f).
Definition with_previousPt (v : option Projection.pixel) (f : fields) : fields :=
  Fields (projection f) (ctx f) (palette f) (paletteNdx f) (pass f) (pointCount f)
    (visiblePointCount f) (firstVisiblePointInRing f) (lastVisiblePointInRing f)
    (lastVisiblePointBeforeGap f) (firstVisiblePointAfterGap f)
    (isGapAtStart f) (isGapAtEnd f) v.

(** A call [this.ctx.c(...)]. *)
Definition emit (c : cmd) (f : fields) : fields :=
  with_ctx (Canvas (width (ctx f)) (height (ctx f)) (drawn (ctx f) ++ [c])) f.

Definition emit_all (cs : list cmd) (f : fields) : fields :=
  with_ctx (Canvas (width (ctx f)) (height (ctx f)) (drawn (ctx f) ++ cs)) f.

(** [pt[0]] and [pt[1]] of a value that is a point or [false]. *)
Definition x_of (q : option Projection.pixel) : num :=
  match q with Some q => Projection.px q | None => None end.
Definition y_of (q : option Projection.pixel) : num :=
  match q with Some q => Projection.py q | None => None end.

(** [Math.atan(y1/x1)]: the quotient by zero is an infinity, or NaN. *)
Definition atan_quotient (y1 x1 : R) : num :=
  if Req_dec_T x1 0 then
    if Rlt_dec 0 y1 then Some (PI / 2)
    else if Rlt_dec y1 0 then Some (- (PI / 2))
    else None
  else Some (atan (y1 / x1)).

(** The object [{θ, pt}] returned by [extendToCircumference]. *)
Record extended : Type := Extended { θ : num; ept : num * num }.

Definition extendToCircumference (q : option Projection.pixel) (ctr : R * R) (r : R)
    : extended :=
  let x1 := num2 Rminus (x_of q) (Some (fst ctr)) in
  let y1 := num2 Rminus (y_of q) (Some (snd ctr)) in
  let θ0 :=
    match x1, y1 with
    | Some x1, Some y1 =>
      match atan_quotient y1 x1 with
      | Some t => Some (if Rlt_dec x1 0 then t + PI else t)
      | None => None
      end
    | _, _ => None
    end in
  let x := option_map (fun t => cos t * r) θ0 in
  let y := option_map (fun t => sin t * r) θ0 in
  let x2 := num2 Rplus x (Some (fst ctr)) in
  let y2 := num2 Rplus y (Some (snd ctr)) in
  Extended θ0 (x2, y2).

Definition findTangent (ob oc : extended) (ctr : R * R) (r : R) : num * num :=
  let dθ := num2 Rminus (θ oc) (θ ob) in
  let θ3 := num2 Rplus (θ ob) (option_map (fun d => d / 2) dθ) in
  let r3 :=
    match dθ with
    | Some d => if Req_dec_T (cos (d / 2)) 0 then None else Some (r / cos (d / 2))
    | None => None
    end in
  let x1 := num2 Rplus (Some (fst ctr)) (num2 Rmult r3 (option_map cos θ3)) in
  let y1 := num2 Rplus (Some (snd ctr)) (num2 Rmult r3 (option_map sin θ3)) in
  (x1, y1).

(** The two calls [arcGap] makes on the context. *)
Definition arcGap_cmds (a d : option Projection.pixel) (ctr : R * R) (r : R) : list cmd :=
  let ob := extendToCircumference a ctr r in
  let oc := extendToCircumference d ctr r in
  let e := findTangent ob oc ctr r in
  [ lineTo (fst (ept ob)) (snd (ept ob));
    arcTo (fst e) (snd e) (fst (ept oc)) (snd (ept oc)) r ].

Definition arcGap (a d : option Projection.pixel) (ctr : R * R) (r : R) (f : fields)
    : fields :=
  emit_all (arcGap_cmds a d ctr r) f.

Definition args : Type := (Projection.t * canvas * list palette_entry)%type.

Definition on_ext (g : fields -> fields) (s : this fields) : this fields :=
  set_ext (g (ext s)) s.

Definition collectionStart (c : GeoJSON.collection) (add : args) : H fields value :=
  fun s =>
    let '(proj, cv, pal) := add in
    let f := ext s in
    let f := with_projection proj f in
    let f := with_ctx cv f in
    let f := with_palette pal f in
    let f := with_pass (Some 0%Z) f in
    let f := emit (clearRect 0 0 (width (ctx f)) (height (ctx f))) f in
    let f := emit beginPath f in
    Done (VTrue, set_ext f s).

(** [draw(paletteNdx)]; reading a property of a missing palette entry
    throws. *)
Definition draw (ndx : nat) : H fields unit :=
  fun s =>
    let f := ext s in
    match nth_error (palette f) ndx with
    | None => Throw
    | Some pal =>
      let f := emit (fillStyle (if truthy_string (pat pal) then pat pal else pfill pal)) f in
      let f := emit (strokeStyle (pstroke pal)) f in
      let f := emit (lineWidth (pen pal)) f in
      let f := match dash pal with Some d => emit (setLineDash d) f | None => f end in
      let f := if truthy_string (pfill pal) then emit fill f else f in
      let f := if truthy_string (pstroke pal) then emit stroke f else f in
      Done (tt, set_ext f s)
    end.

Definition collectionEnd (c : GeoJSON.collection) : M fields unit :=
  fun w =>
    match draw 0 (self w) with
    | Done (_, s) => Done (tt, World s (calls w))
    | Throw => Throw
    | OutOfFuel => OutOfFuel
    end.

Definition geometryStart (g : GeoJSON.geometry) : H fields value :=
  fun s =>
    let f := ext s in
    let f := with_pass (option_map (fun n => n + 1)%Z (pass f)) f in
    Done (VTrue, set_ext f s).

(** [this.projection.pt[0] += d], in exact arithmetic;
    [Binary64.stitch_pt0] below gives the three updates of [geometryEnd]
    with the rounding of binary64. *)
Definition shift_pt0 (d : R) (f : fields) : fields :=
  with_projection
    (Projection.set_pt0 (projection f) (fst (Projection.pt (projection f)) + d)) f.

Definition pass_is_1 (f : fields) : bool :=
  match pass f with
  | Some n => Z.eqb n 1
  | None => false
  end.

Definition geometryEnd (iterateGeometry : GeoJSON.geometry -> M fields value) (g : GeoJSON.geometry)
    : M fields unit :=
  bind get (fun s =>
  bind (if pass_is_1 (ext s) && Projection.stitch (Projection.mixer (projection (ext s)))
        then
          let wd := fst (snd (Projection.mx (projection (ext s))))
                    - fst (fst (Projection.mx (projection (ext s)))) in
          bind (update (on_ext (shift_pt0 wd))) (fun _ =>
          bind (iterateGeometry g) (fun _ =>
          bind (update (on_ext (shift_pt0 (- (2 * wd))))) (fun _ =>
          bind (iterateGeometry g) (fun _ =>
          update (on_ext (shift_pt0 wd))))))
        else mret tt) (fun _ =>
  update (on_ext (fun f => with_pass (option_map (fun n => n - 1)%Z (pass f)) f)))).

Definition polygonStart_fields (f : fields) : fields :=
  let f := with_pointCount (Some 0%nat) f in
  let f := with_visiblePointCount (Some 0%nat) f in
  let f := with_firstVisiblePointInRing None f in
  let f := with_lastVisiblePointInRing None f in
  let f := with_lastVisiblePointBeforeGap None f in
  let f := with_firstVisiblePointAfterGap None f in
  let f := with_isGapAtStart false f in
  let f := with_isGapAtEnd false f in
  let f := with_previousPt None f in
  f.

Definition polygonStart (r : ring) : H fields value :=
  fun s => Done (VTrue, on_ext polygonStart_fields s).

Definition lineStart (l : list coord) : H fields value :=
  fun s =>
    match polygonStart l s with
    | Done (_, s) => Done (VTrue, s)
    | Throw => Throw
    | OutOfFuel => OutOfFuel
    end.

Definition is_some {X : Type} (o : option X) : bool :=
  match o with Some _ => true | None => false end.

Definition polygonEnd_fields (f : fields) : fields :=
  let f := if is_some (previousPt f) then f else with_isGapAtEnd true f in
  if truthy_counter (visiblePointCount f) && (isGapAtStart f || isGapAtEnd f)
  then
    let f := arcGap (lastVisiblePointInRing f) (firstVisiblePointInRing f)
               (Projection.pt (projection f)) (Projection.k (projection f)) f in
    emit (lineTo (x_of (firstVisiblePointInRing f)) (y_of (firstVisiblePointInRing f))) f
  else f.

Definition polygonEnd (r : ring) : M fields unit :=
  update (on_ext polygonEnd_fields).

Definition drawPoint (q : Projection.pixel) (w : within) (ndx : Z) (f : fields)
    : outcome fields :=
  match paletteNdx f with
  | None => Throw
  | Some n =>
    match nth_error (palette f) n with
    | None => Throw
    | Some pal =>
      let one := Some 1 in
      let f := emit (moveTo (num2 Rminus (num2 Rplus (Projection.px q) (ptRadius pal)) one)
                            (num2 Rminus (num2 Rplus (Projection.py q) (ptRadius pal)) one)) f in
      let f := emit (arc (Projection.px q) (Projection.py q) (ptRadius pal) 0 (2 * PI) false) f in
      Done f
    end
  end.

(** The first [if] of the visible branch of [doPoint]. *)
Definition mark_visible (q : Projection.pixel) (w : within) (f : fields) : fields :=
  if negb (is_some (firstVisiblePointInRing f)) then
    with_firstVisiblePointInRing (Some q) f
  else if is_some (lastVisiblePointBeforeGap f) then
    let f := with_firstVisiblePointAfterGap (Some q) f in
    let f :=
      match w with
      | Poly => arcGap (lastVisiblePointBeforeGap f) (firstVisiblePointAfterGap f)
                  (Projection.pt (projection f)) (Projection.k (projection f)) f
      | Line => with_visiblePointCount (Some 0%nat) f
      | Pnt => f
      end in
    with_lastVisiblePointBeforeGap None f
  else f.

(** The end of the visible branch of [doPoint]. *)
Definition count_visible (q : Projection.pixel) (f : fields) : fields :=
  let f := with_visiblePointCount (incr (visiblePointCount f)) f in
  let f := with_lastVisiblePointInRing (Some q) f in
  with_previousPt (Some q) f.

(** The invisible branch of [doPoint]. *)
Definition mark_invisible (f : fields) : fields :=
  let f := if negb (truthy_counter (pointCount f))
           then with_isGapAtStart true f else f in
  if negb (is_some (lastVisiblePointBeforeGap f)) && is_some (previousPt f)
  then with_lastVisiblePointBeforeGap (previousPt f) f
  else f.

Definition is_pnt (w : within) : bool :=
  match w with Pnt => true | _ => false end.

Definition doPoint (c : coord) (w : within) (ndx : Z) : H fields value :=
  fun s =>
    let f := ext s in
    let q := Projection.project (projection f) c in
    let r :=
      if Projection.pvisible q then
        let f := mark_visible q w f in
        let r :=
          if is_pnt w || forcePoint s then drawPoint q w ndx f
          else if truthy_counter (visiblePointCount f)
               then Done (emit (lineTo (Projection.px q) (Projection.py q)) f)
               else Done (emit (moveTo (Projection.px q) (Projection.py q)) f) in
        match r with
        | Done f => Done (count_visible q f)
        | Throw => Throw
        | OutOfFuel => OutOfFuel
        end
      else Done (mark_invisible f) in
    match r with
    | Done f => Done (VTrue, set_ext (with_pointCount (incr (pointCount f)) f) s)
    | Throw => Throw
    | OutOfFuel => OutOfFuel
    end.

(** What [doPoint] does to the fields when the point belongs to a path,
    that is, when [within] is not ['point'] and [forcePoint] is off. *)
Definition path_step (w : within) (f : fields) (c : coord) : fields :=
  let q := Projection.project (projection f) c in
  let f :=
    if Projection.pvisible q then
      let f := mark_visible q w f in
      let f := if truthy_counter (visiblePointCount f)
               then emit (lineTo (Projection.px q) (Projection.py q)) f
               else emit (moveTo (Projection.px q) (Projection.py q)) f in
      count_visible q f
    else mark_invisible f in
  with_pointCount (incr (pointCount f)) f.

(** The loop over the coordinates of a ring or line. *)
Definition path_run (w : within) (cs : list coord) (f : fields) : fields :=
  fold_left (path_step w) cs f.

(** The methods of GeoIteratorClip; [lineEnd] is inherited. *)
Definition clip : methods fields args :=
  Methods collectionStart collectionEnd geometryStart geometryEnd
    polygonStart polygonEnd lineStart (fun _ => mret tt) doPoint.

(** ** Passes over a geometry *)

(** The traversal of a geometry up to its call of [geometryEnd]. *)
Definition first_pass (g : GeoJSON.geometry) : M fields value :=
  bind (update (set_geometry g)) (fun _ =>
  bind (invoke (HGeometryStart g) (geometryStart g)) (fun _ =>
  bind (iterateCoordinates clip g) (fun boo =>
  bind (enter (HGeometryEnd g)) (fun _ =>
  mret boo)))).

(** One traversal of a geometry in which [geometryEnd] only decrements
    the pass counter. *)
Definition plain_pass (g : GeoJSON.geometry) : M fields value :=
  bind (first_pass g) (fun boo =>
  bind (update (on_ext (fun f => with_pass (option_map (fun n => n - 1)%Z (pass f)) f)))
    (fun _ => mret boo)).

Definition is_geometryStart (k : call) : bool :=
  match hook_of k with HGeometryStart _ => true | _ => false end.

(** The number of times a log enters a geometry. *)
Definition geometry_starts (T : list call) : nat :=
  List.length (filter is_geometryStart T).

(** [drawPoint] finds its palette entry. *)
Definition points_drawable (s : this fields) : bool :=
  match paletteNdx (ext s) with
  | Some n => is_some (nth_error (palette (ext s)) n)
  | None => false
  end.

(** [doPoint] calls [drawPoint] on the coordinates of this geometry. *)
Definition draws_points (g : GeoJSON.geometry) (s : this fields) : bool :=
  forcePoint s
  || match g with
     | MultiPoint _ | Point _ => true
     | _ => false
     end.

(** Traversing the geometry throws no exception. *)
Definition safe (g : GeoJSON.geometry) (s : this fields) : bool :=
  negb (draws_points g s) || points_drawable s.

(** What the hooks of the coordinator leave alone while they walk the
    coordinates of a geometry; the log grows by calls that enter no
    geometry. *)
Definition frame (w w' : world fields) : Prop :=
  projection (ext (self w')) = projection (ext (self w))
  /\ pass (ext (self w')) = pass (ext (self w))
  /\ palette (ext (self w')) = palette (ext (self w))
  /\ paletteNdx (ext (self w')) = paletteNdx (ext (self w))
  /\ forcePoint (self w') = forcePoint (self w)
  /\ exists T, calls w' = calls w ++ T /\ geometry_starts T = 0%nat.

Definition shifted (d : R) (w : world fields) : world fields :=
  World (on_ext (shift_pt0 d) (self w)) (calls w).

(** A change of the fields that keeps the projection, the pass counter
    and the palette. *)
Definition same4 (f f' : fields) : Prop :=
  projection f' = projection f /\ pass f' = pass f
  /\ palette f' = palette f /\ paletteNdx f' = paletteNdx f.

(** A loop that calls [doPoint] with ['point'] belongs to a point geometry. *)
Definition kind_ok (g : GeoJSON.geometry) (w : within) : Prop :=
  is_pnt w = true -> match g with MultiPoint _ | Point _ => True | _ => False end.

(** What [geometryEnd] does to the pass counter. *)
Definition decrement (f : fields) : fields :=
  with_pass (option_map (fun n => n - 1)%Z (pass f)) f.

(** ** The visibility pattern of a ring *)

Definition visible (p : Projection.t) (c : coord) : bool :=
  Projection.pvisible (Projection.project p c).

Definition first_visible (p : Projection.t) (cs : list coord) : option Projection.pixel :=
  option_map (Projection.project p) (find (visible p) cs).

Definition last_visible (p : Projection.t) (cs : list coord) : option Projection.pixel :=
  first_visible p (rev cs).

Definition has_visible (p : Projection.t) (cs : list coord) : bool :=
  existsb (visible p) cs.

(** The ring begins with an invisible coordinate. *)
Definition starts_hidden (p : Projection.t) (cs : list coord) : bool :=
  match cs with
  | c :: _ => negb (visible p c)
  | [] => false
  end.



Definition is_arcTo (c : cmd) : bool :=
  match c with arcTo _ _ _ _ _ => true | _ => false end.

(** The calls made on the context at the end of a ring. *)
Definition ring_end_cmds (p : Projection.t) (cs : list coord) : list cmd :=
  if has_visible p cs && starts_hidden p cs then
    arcGap_cmds (last_visible p cs) (first_visible p cs)
      (Projection.pt p) (Projection.k p)
    ++ [lineTo (x_of (first_visible p cs)) (y_of (first_visible p cs))]
  else [].


(** The fields after the coordinates [pre] of a ring have been visited. *)
Definition ring_inv (p : Projection.t) (pre : list coord) (f : fields) : Prop :=
  projection f = p
  /\ isGapAtEnd f = false
  /\ isGapAtStart f = starts_hidden p pre
  /\ firstVisiblePointInRing f = first_visible p pre
  /\ lastVisiblePointInRing f = last_visible p pre
  /\ previousPt f = last_visible p pre
  /\ (exists n, visiblePointCount f = Some n /\ Nat.ltb 0 n = has_visible p pre)
  /\ pointCount f = Some (List.length pre).




End GeoIteratorClip.

(** ** Sample objects *)

Module Samples.

Import Geo.
Local Open Scope R_scope.

(** A projection centred on (0,0) with no rotation, a globe radius of 100
    pixels and one pixel per degree, under the given mixer preset. *)
Definition projection_with (mx : Projection.mixer_t) : Projection.t :=
  Projection.Make (0, 0) (0, 0) 0
    0 0 0 1 0 1 0
    0 0 0 0
    100 1 (Projection.clipAngle 90)
    ((0, 0), (0, 0)) ((-180, -85), (180, 85)) (8505113 / 100000)
    mx 1 1.

Definition globe : Projection.t :=
  projection_with (Projection.Mixer true false false false false false).

Definition soupcan_map : Projection.t :=
  projection_with (Projection.Mixer false true false true false true).

Definition mercator_map : Projection.t :=
  projection_with (Projection.Mixer false true true true true false).

(** A clip coordinator ready to draw on a 200 by 200 canvas. *)
Definition clip_fields (p : Projection.t) : GeoIteratorClip.fields :=
  GeoIteratorClip.Fields p (GeoIteratorClip.Canvas 200 200 []) [] None (Some 0%Z)
    None None None None None None false false None.

Definition clip_world (p : Projection.t) : GeoIterator.world GeoIteratorClip.fields :=
  GeoIterator.World (GeoIterator.new (clip_fields p)) [].

End Samples.

(** ** More of [geolib.js] over the reals *)

Module Geolib.

Import Geo.
Local Open Scope R_scope.

(** [Math.round(x)]: the nearest integer, a tie going up. *)
Definition Math_round (x : R) : Z := Int_part (x + 1 / 2).

(** [voyc.powR]: [Math.log(y) / Math.log(x)].  The logarithm of a negative
    number is NaN and that of zero is minus infinity, so the quotient is a
    number only for positive [y] and positive [x] other than 1, and for
    [x = 0] where it is a zero; [None] stands for NaN or an infinity. *)
Definition powR (x y : R) : option R :=
  if Rlt_dec 0 y then
    if Rlt_dec 0 x then
      if Req_dec_T x 1 then None else Some (ln y / ln x)
    else if Req_dec_T x 0 then Some 0 else None
  else None.

(** The cosine of the angle at the centre of the sphere between two
    coordinates, by the spherical law of cosines: the reference the
    distance functions are compared with. *)
Definition cos_central (a b : coord) : R :=
  sin (radians (snd a)) * sin (radians (snd b))
  + cos (radians (snd a)) * cos (radians (snd b))
    * cos (radians (fst b) - radians (fst a)).

(** [voyc.distanced3] *)
Definition distanced3 (a b : coord) : R :=
  let Δλ := radians (fst b - fst a) in
  let φ0 := radians (snd a) in
  let φ1 := radians (snd b) in
  let sinΔλ := sin Δλ in
  let cosΔλ := cos Δλ in
  let sinφ0 := sin φ0 in
  let cosφ0 := cos φ0 in
  let sinφ1 := sin φ1 in
  let cosφ1 := cos φ1 in
  let t1 := cosφ1 * sinΔλ in
  let t2 := cosφ0 * sinφ1 - sinφ0 * cosφ1 * cosΔλ in
  Math_atan2 (sqrt (t1 * t1 + t2 * t2))
             (sinφ0 * sinφ1 + cosφ0 * cosφ1 * cosΔλ).

(** Two coordinates with latitudes from -90 to 90 that keep clear of
    opposite points of the sphere: the cosine of their central angle is at
    least -0.999999, which is about 9 km on the ground.  Outside, the
    binary64 haversine of [calcθ] can leave [0, 1] by rounding and the
    code return NaN. *)
Definition clear_of_antipodes (a b : coord) : Prop :=
  -90 <= snd a <= 90 /\ -90 <= snd b <= 90
  /\ -999999 / 1000000 <= cos_central a b.

(** [voyc.haversin] *)
Definition haversin (x : R) : R :=
  let x := sin (x / 2) in
  x * x.

(** [voyc.geointerpolate]; an entry is [None] when it is NaN: when the
    two points are the same or opposite, [sin d] is zero, [k] is an
    infinity and every coordinate computed from it is NaN. *)
Definition geointerpolate (source target : coord) (t : R) : option R * option R :=
  let x0 := radians (fst source) in
  let y0 := radians (snd source) in
  let x1 := radians (fst target) in
  let y1 := radians (snd target) in
  let cy0 := cos y0 in
  let sy0 := sin y0 in
  let cy1 := cos y1 in
  let sy1 := sin y1 in
  let kx0 := cy0 * cos x0 in
  let ky0 := cy0 * sin x0 in
  let kx1 := cy1 * cos x1 in
  let ky1 := cy1 * sin x1 in
  match Math_asin (sqrt (haversin (y1 - y0) + cy0 * cy1 * haversin (x1 - x0))) with
  | None => (None, None)
  | Some a =>
    let d := 2 * a in
    if Req_dec_T (sin d) 0 then (None, None)
    else
      let k := 1 / sin d in
      let t := t * d in
      let B := sin t * k in
      let A := sin (d - t) * k in
      let x := A * kx0 + B * kx1 in
      let y := A * ky0 + B * ky1 in
      let z := A * sy0 + B * sy1 in
      (Some (degrees (Math_atan2 y x)),
       Some (degrees (Math_atan2 z (sqrt (x * x + y * y)))))
  end.

(** [voyc.calcAngle] on two points in pixels.  The sum [360 + theta] is
    exact here; in binary64 it rounds to 360 for a tiny negative [theta].
    *)
Definition calcAngle (ptStart ptEnd : R * R) : R :=
  let dY := snd ptEnd - snd ptStart in
  let dX := fst ptEnd - fst ptStart in
  let theta := Math_atan2 dY dX in
  let theta := theta * (180 / PI) in
  if Rlt_dec theta 0 then 360 + theta else theta.

(** [voyc.ppcm] *)
Definition ppcm : R := 3779527559 / 100000000.

(** The variables [n], [cm] and [loop] of [voyc.scaleGraph]; [n] and [cm]
    are [undefined] until the first assignment. *)
Record scan : Type := Scan { sn : option R; scm : option R; sloop : bool }.

Definition multiplier : list R := [5; 4; 2; 1].
Definition magnitude : list nat := [9; 8; 7; 6; 5; 4; 3; 2; 1]%nat.

(** The inner [for (var mul of multiplier)] with its [break]. *)
Fixpoint scan_multipliers (uscale : R) (mag : nat) (muls : list R) (s : scan) : scan :=
  match muls with
  | [] => s
  | mul :: rest =>
    let n := 10 ^ mag * mul in
    let cm := uscale / n in
    let loop := if Rlt_dec 1 cm then false else sloop s in
    let s := Scan (Some n) (Some cm) loop in
    if negb loop then s else scan_multipliers uscale mag rest s
  end.

(** The outer [for (var mag of magnitude)] with its [break]. *)
Fixpoint scan_magnitudes (uscale : R) (mags : list nat) (s : scan) : scan :=
  match mags with
  | [] => s
  | mag :: rest =>
    let s := scan_multipliers uscale mag multiplier s in
    if negb (sloop s) then s else scan_magnitudes uscale rest s
  end.

(** The object [{n, unit, cm, pxl}] returned by [voyc.scaleGraph]. *)
Record graph : Type := Graph {
  gn : option R;
  gunit : string;
  gcm : option R;
  gpxl : option Z }.

Definition scaleGraph (uscale : R) : graph :=
  let s := scan_magnitudes uscale magnitude (Scan None None true) in
  let n := sn s in
  let cm := scm s in
  let ge (a : option R) (b : R) : bool :=
    match a with Some a => Rleb b a | None => false end in
  let '(nd, unit) :=
    if ge n 100000 then (option_map (fun n => n / 100000) n, "km"%string)
    else if ge n 100 then (option_map (fun n => n / 100) n, "m"%string)
    else (option_map (fun n => IZR (Math_round n)) n, "cm"%string) in
  let pxl := option_map (fun cm => Math_round (cm * ppcm)) cm in
  Graph nd unit cm pxl.

(** The length in centimetres of one unit of the label. *)
Definition unit_cm (u : string) : R :=
  if String.eqb u "km" then 100000
  else if String.eqb u "m" then 100
  else 1.

End Geolib.

(** ** The vector helpers of [trig.js] over binary64 *)

Module Vectors.

Import Floats.
Local Open Scope float_scope.

(** The loop of [voyc.dotProduct] from index [i] on, [x] and [y] holding
    the elements from that index; reading [y] past its end gives
    [undefined], and the product with it is NaN. *)
Fixpoint dotProduct_from (x y : list float) (dot : float) : float :=
  match x with
  | [] => dot
  | xi :: x' =>
    let yi := match y with yi :: _ => yi | [] => nan end in
    dotProduct_from x' (tl y) (dot + xi * yi)
  end.

Definition dotProduct (x y : list float) : float := dotProduct_from x y 0.

Definition norm (x : list float) : float := sqrt (dotProduct x x).

(** A zero or NaN. *)
Definition zero_or_nan (f : spec_float) : bool :=
  match f with
  | S754_zero _ | S754_nan => true
  | _ => false
  end.

End Vectors.

(** ** The setters of class Projection *)

Module ProjectionSetup.

Import Geo Projection.
Local Open Scope R_scope.

(** An entry of an extent: [None] is [undefined] or NaN, which is what
    [project] leaves in a coordinate it did not compute. *)
Definition entry : Type := option R.

Definition entry2 (f : R -> R -> R) (a b : entry) : entry :=
  match a, b with
  | Some x, Some y => Some (f x y)
  | _, _ => None
  end.

(** An extent [[[w,n],[e,s]]]. *)
Definition extent : Type := ((entry * entry) * (entry * entry))%type.

(** A Projection object after a setter ran: [core] holds every field but
    the two extents (its own [cx] and [mx] are not part of the object),
    which are [omx] and [ocx]. *)
Record object : Type := Object { core : t; omx : extent; ocx : extent }.

(** [clipExtent()]: the map extent it stores in [this.mx], and the clip
    extent it returns. *)
Definition clipExtent (p : t) : extent * extent :=
  let y := latClamp p in
  let nw := project p (-180, y) in
  let se := project p (180, 0 - y) in
  let w := px nw in
  let n := py nw in
  let e := px se in
  let s := py se in
  let mx := ((w, n), (e, s)) in
  let wd := entry2 Rminus e w in
  let wd := option_map (fun v => v / 2) wd in
  let w := entry2 Rminus (Some (fst (pt p))) wd in
  let e := entry2 Rplus (Some (fst (pt p))) wd in
  let w := entry2 Rmax w (Some 0) in
  let n := entry2 Rmax n (Some 0) in
  let e := entry2 Rmin e (Some (Projection.wd p)) in
  let s := entry2 Rmin s (Some (ht p)) in
  (mx, ((w, n), (e, s))).

Definition with_extents (p : t) : object :=
  Object p (fst (clipExtent p)) (snd (clipExtent p)).

(** [translate(pt)]; [2**zoom] is the real power. *)
Definition translate (p : t) (pt : R * R) : object :=
  let δx := fst pt in
  let δy := snd pt in
  let wd := fst pt * 2 in
  let ht := snd pt * 2 in
  let square := Rmin wd ht in
  let halfwid := square / 2 in
  let k := Rpower 2 (zoom p) * (halfwid / PI) in
  let pxlPerDgr := Rpower 2 (zoom p) * (square / 360) in
  with_extents
    (Make (co p) pt (zoom p) (δλ p) (δφ p) (δγ p)
          (cosδφ p) (sinδφ p) (cosδγ p) (sinδγ p) δx δy wd ht
          k pxlPerDgr (cr p) (cx p) (mx p) (latClamp p) (mixer p)
          (mf p) (sf p)).

(** [rotate(ro)] for an array [ro] of two or three numbers. *)
Definition rotate (p : t) (ro : R * R * option R) : object :=
  let '(ro0, ro1, ro2) := ro in
  let lng := 0 - ro0 in
  let lat := ro1 in
  let δλ := radians (js_rem ro0 360) in
  let δφ := radians (js_rem ro1 360) in
  let δγ := match ro2 with
            | Some ro2 => radians (js_rem ro2 360)
            | None => δγ p
            end in
  with_extents
    (Make (lng, lat) (pt p) (zoom p) δλ δφ δγ
          (cos δφ) (sin δφ) (cos δγ) (sin δγ) (δx p) (δy p) (wd p) (ht p)
          (k p) (pxlPerDgr p) (cr p) (cx p) (mx p) (latClamp p) (mixer p)
          (mf p) (sf p)).

(** The object as a record of numbers, when its extents hold numbers. *)
Definition ready (o : object) : option t :=
  match omx o, ocx o with
  | ((Some mw, Some mn), (Some me, Some ms)), ((Some w, Some n), (Some e, Some s)) =>
    let p := core o in
    Some (Make (co p) (pt p) (zoom p) (δλ p) (δφ p) (δγ p)
               (cosδφ p) (sinδφ p) (cosδγ p) (sinδγ p) (δx p) (δy p) (wd p) (ht p)
               (k p) (pxlPerDgr p) (cr p) ((w, n), (e, s)) ((mw, mn), (me, ms))
               (latClamp p) (mixer p) (mf p) (sf p))
  | _, _ => None
  end.

End ProjectionSetup.

(** ** The hook calls of a traversal that nothing skips or stops *)

Module Visits.

Import JS GeoJSON Geo GeoIterator.

(** [doPoint] on the coordinates [cs], the first of them at index [i]. *)
Fixpoint points_from (w : within) (cs : list coord) (i : Z) : list call :=
  match cs with
  | [] => []
  | c :: cs' => Call (HDoPoint c w i) VTrue :: points_from w cs' (i + 1)%Z
  end.

Definition polygon_visits (p : GeoJSON.polygon) : list call :=
  Call (HPolygonStart (ring0 p)) VTrue
  :: points_from Poly (ring0 p) 0 ++ [Call (HPolygonEnd (ring0 p)) VUndefined].

Definition line_visits (l : list coord) : list call :=
  Call (HLineStart l) VTrue :: points_from Line l 0 ++ [Call (HLineEnd l) VUndefined].

Definition coordinates_visits (g : GeoJSON.geometry) : list call :=
  match g with
  | MultiPolygon ps => flat_map polygon_visits ps
  | Polygon p => polygon_visits p
  | MultiLineString ls => flat_map line_visits ls
  | LineString l => line_visits l
  | MultiPoint cs => points_from Pnt cs 0
  | Point c => [Call (HDoPoint c Pnt (-1)) VTrue]
  end.

Definition geometry_visits (g : GeoJSON.geometry) : list call :=
  Call (HGeometryStart g) VTrue
  :: coordinates_visits g ++ [Call (HGeometryEnd g) VUndefined].

Definition collection_visits (c : GeoJSON.collection) : list call :=
  Call HCollectionStart VTrue
  :: flat_map geometry_visits (geometries c) ++ [Call HCollectionEnd VUndefined].

(** A visitor whose start hooks and [doPoint] all return [true]. *)
Definition always_true {E A : Type} (v : visitor E A) : Prop :=
  (forall c add s, fst (v_collectionStart v c add s) = VTrue)
  /\ (forall g s, fst (v_geometryStart v g s) = VTrue)
  /\ (forall r s, fst (v_polygonStart v r s) = VTrue)
  /\ (forall l s, fst (v_lineStart v l s) = VTrue)
  /\ (forall c w i s, fst (v_doPoint v c w i s) = VTrue).

(** A method that returns a value satisfying [P], extending the call log
    by [L]. *)
Definition returns {E X : Type} (c : M E X) (P : X -> Prop) (L : list call) : Prop :=
  forall w, exists x w', c w = Done (x, w') /\ P x /\ calls w' = calls w ++ L.

(** A method that returns [true], extending the call log by [L]. *)
Definition logs {E : Type} (c : M E value) (L : list call) : Prop :=
  returns c (eq VTrue) L.

(** The number of polygons, of lines and of coordinates a traversal of
    the geometry reaches: of a polygon, those of its first ring. *)
Definition count_polygons (g : GeoJSON.geometry) : nat :=
  match g with
  | MultiPolygon ps => List.length ps
  | Polygon _ => 1
  | _ => 0
  end.

Definition count_lines (g : GeoJSON.geometry) : nat :=
  match g with
  | MultiLineString ls => List.length ls
  | LineString _ => 1
  | _ => 0
  end.

Definition count_points (g : GeoJSON.geometry) : nat :=
  match g with
  | MultiPolygon ps => list_sum (map (fun p => List.length (ring0 p)) ps)
  | Polygon p => List.length (ring0 p)
  | MultiLineString ls => list_sum (map (@List.length coord) ls)
  | LineString l => List.length l
  | MultiPoint cs => List.length cs
  | Point _ => 1
  end.

End Visits.

(** ** class GeoIteratorCount of [geoiterator.js] *)

Module GeoIteratorCount.

Import JS GeoJSON Geo GeoIterator.

Section Count.

(** [X]: the values passed as additional arguments. *)
Context {X : Type}.

(** Whether the page declares the global [log] that [collectionEnd]
    reads; these sources do not. *)
Variable log_declared : bool.

(** A counter is [undefined] (and NaN once incremented) until
    [collectionStart] resets it. *)
Definition counter : Type := option nat.

Definition incr (c : counter) : counter := option_map S c.

Record fields : Type := Fields {
  saveCollection : option GeoJSON.collection;
  param1 : option X;
  param2 : option X;
  param3 : option X;
  points : counter;
  lines : counter;
  polygons : counter;
  geometries : counter }.

(** [new voyc.GeoIteratorCount()] *)
Definition fresh : fields := Fields None None None None None None None None.

Definition on_fields (f : fields -> fields) (s : this fields) : this fields :=
  set_ext (f (ext s)) s.

(** The hooks that return; [collectionStart] has no [return] statement. *)
Definition hooks : visitor fields (list X) :=
  Visitor
    (fun c add s =>
       (VUndefined,
        on_fields (fun _ => Fields (Some c) (nth_error add 0) (nth_error add 1)
                              (nth_error add 2) (Some 0%nat) (Some 0%nat)
                              (Some 0%nat) (Some 0%nat)) s))
    (fun _ s => s)
    (fun _ s =>
       (VTrue,
        on_fields (fun f => Fields (saveCollection f) (param1 f) (param2 f) (param3 f)
                              (points f) (lines f) (polygons f) (incr (geometries f))) s))
    (fun _ s => s)
    (fun _ s =>
       (VTrue,
        on_fields (fun f => Fields (saveCollection f) (param1 f) (param2 f) (param3 f)
                              (points f) (lines f) (incr (polygons f)) (geometries f)) s))
    (fun _ s => s)
    (fun _ s =>
       (VTrue,
        on_fields (fun f => Fields (saveCollection f) (param1 f) (param2 f) (param3 f)
                              (points f) (incr (lines f)) (polygons f) (geometries f)) s))
    (fun _ s => s)
    (fun _ _ _ s =>
       (VTrue,
        on_fields (fun f => Fields (saveCollection f) (param1 f) (param2 f) (param3 f)
                              (incr (points f)) (lines f) (polygons f) (geometries f)) s)).

(** [collectionEnd] only writes to the console, after reading [log]:
    evaluating an undeclared variable throws. *)
Definition collectionEnd (c : GeoJSON.collection) : M fields unit :=
  fun w => if log_declared then Done (tt, w) else Throw.

Definition count : methods fields (list X) :=
  let m := methods_of hooks in
  Methods (GeoIterator.collectionStart m) collectionEnd
          (GeoIterator.geometryStart m) (GeoIterator.geometryEnd m)
          (GeoIterator.polygonStart m) (GeoIterator.polygonEnd m)
          (GeoIterator.lineStart m) (GeoIterator.lineEnd m)
          (GeoIterator.doPoint m).

(** The counters of [s'] are those of [s] plus the given numbers (an
    [undefined] counter stays NaN). *)
Definition counted (n l p g : nat) (s s' : this fields) : Prop :=
  points (ext s') = option_map (Nat.add n) (points (ext s))
  /\ lines (ext s') = option_map (Nat.add l) (lines (ext s))
  /\ polygons (ext s') = option_map (Nat.add p) (polygons (ext s))
  /\ geometries (ext s') = option_map (Nat.add g) (geometries (ext s)).

(** A method that returns a value satisfying [P] and adds the given
    numbers to the counters. *)
Definition tallies {Y : Type} (c : M fields Y) (P : Y -> Prop) (n l p g : nat) : Prop :=
  forall w, exists y w', c w = Done (y, w') /\ P y /\ counted n l p g (self w) (self w').

End Count.

Arguments fields : clear implicits.

End GeoIteratorCount.

(** ** [calcPaletteIndex] of class GeoIteratorScale *)

Module GeoIteratorScale.

(** A scale rank: a number, or [None] for [false] or [undefined]. *)
Definition calcPaletteIndex (zoomScaleRank : Z) (geomScaleRank : option Z)
    (maxScaleRank : Z) : Z :=
  match geomScaleRank with
  | Some g =>
    if Z.eqb g 0 then 0%Z
    else
      let adj := (maxScaleRank - zoomScaleRank)%Z in
      let paletteLevel := (g + adj)%Z in
      (paletteLevel - 1)%Z
  | None => 0%Z
  end.

End GeoIteratorScale.

(** ** [pointInPolygon] of class GeoIteratorHitTest *)

Module GeoIteratorHitTest.

Import Geo GeoJSON.
Local Open Scope R_scope.

(** The test of the [if]: the edge from [pj] to [pi] crosses the
    horizontal ray to the right of [(x,y)]. *)
Definition crosses (x y : R) (pi pj : coord) : bool :=
  if negb (Bool.eqb (Rltb y (snd pi)) (Rltb y (snd pj)))
  then Rltb x ((fst pj - fst pi) * (y - snd pi) / (snd pj - snd pi) + fst pi)
  else false.

(** The loop from index [i] on, [pj] being [poly[j]] and [ps] the
    elements from [i]. *)
Fixpoint pointInPolygon_from (x y : R) (pj : coord) (ps : list coord) (inside : bool)
    : bool :=
  match ps with
  | [] => inside
  | pi :: rest =>
    pointInPolygon_from x y pi rest (if crosses x y pi pj then negb inside else inside)
  end.

Definition pointInPolygon (pt : coord) (poly : ring) : bool :=
  match poly with
  | [] => false
  | p0 :: _ => pointInPolygon_from (fst pt) (snd pt) (last poly p0) poly false
  end.

End GeoIteratorHitTest.

(** ** What binary64 fixes of the spherical and stitching code *)

Module Binary64.

Import Floats.
Local Open Scope float_scope.

(** [Math.PI] *)
Definition Math_PI : float := 0x1.921fb54442d18p+1.

(** [voyc.radians] *)
Definition radians (x : float) : float := x * (Math_PI / 180).

(** [Math.sin], [Math.cos] and [Math.atan2] return an approximation that
    depends on the implementation, except at the arguments below, where
    the language fixes the result.  [None]: a result the language leaves
    to the implementation. *)
Definition Math_sin (x : float) : option float :=
  match classify x with
  | FloatClass.PZero | FloatClass.NZero => Some x
  | FloatClass.NaN | FloatClass.PInf | FloatClass.NInf => Some nan
  | _ => None
  end.

Definition Math_cos (x : float) : option float :=
  match classify x with
  | FloatClass.PZero | FloatClass.NZero => Some 1
  | FloatClass.NaN | FloatClass.PInf | FloatClass.NInf => Some nan
  | _ => None
  end.

(** A zero [y] with a positive [x] gives [y] back. *)
Definition Math_atan2 (y x : float) : option float :=
  match classify y with
  | FloatClass.PZero | FloatClass.NZero => if 0 <? x then Some y else None
  | _ => None
  end.

(** [voyc.calcθ] *)
Definition calcθ (coA coB : float * float) : option float :=
  let λA := radians (fst coA) in
  let φA := radians (snd coA) in
  let λB := radians (fst coB) in
  let φB := radians (snd coB) in
  let Δλ := λB - λA in
  let Δφ := φB - φA in
  match Math_sin (Δφ / 2), Math_sin (Δλ / 2), Math_cos φA, Math_cos φB with
  | Some sinΔφ, Some sinΔλ, Some cosφA, Some cosφB =>
    let hav := sinΔφ * sinΔφ + sinΔλ * sinΔλ * cosφA * cosφB in
    match Math_atan2 (sqrt hav) (sqrt (1 - hav)) with
    | Some t => Some (2 * t)
    | None => None
    end
  | _, _, _, _ => None
  end.

(** The three updates of [pt[0]] in [GeoIteratorClip.geometryEnd], for a
    map extent from [mx_w] to [mx_e]: the value during the pass to the
    right, the value during the pass to the left and the value on return.
    *)
Definition stitch_pt0 (pt0 mx_w mx_e : float) : float * float * float :=
  let wd := mx_e - mx_w in
  let right := pt0 + wd in
  let left := right - 2 * wd in
  let back := left + wd in
  (right, left, back).

End Binary64.

(** ** A coordinator that aborts on every point *)

Module Aborting.

Import JS GeoJSON GeoIterator.

(** A subclass of [GeoIteratorClip] whose [doPoint] returns [false]; the
    other methods are inherited, the re-entrant [geometryEnd] among them.
    *)
Definition clip_aborting : methods GeoIteratorClip.fields GeoIteratorClip.args :=
  Methods GeoIteratorClip.collectionStart GeoIteratorClip.collectionEnd
    GeoIteratorClip.geometryStart GeoIteratorClip.geometryEnd
    GeoIteratorClip.polygonStart GeoIteratorClip.polygonEnd
    GeoIteratorClip.lineStart (fun _ => mret tt)
    (fun _ _ _ => lift (fun s => (VFalse, s))).

End Aborting.

(** * Properties *)

(** ** The arcsine guard *)

Section AsinGuard.

Import Geo.
Local Open Scope R_scope.

Lemma Math_asin_defined (x : R) :
  -1 <= x <= 1 -> Math_asin x = Some (Ratan.asin x).
Proof.
  intros [Hlo Hhi]. unfold Math_asin.
  destruct (Rle_dec (-1) x) as [_|Hn]; [|contradiction].
  destruct (Rle_dec x 1) as [_|Hn]; [reflexivity|contradiction].
Qed.

Lemma Math_asin_nan (x : R) :
  x < -1 \/ 1 < x -> Math_asin x = None.
Proof.
  intros Hx. unfold Math_asin.
  destruct (Rle_dec (-1) x) as [H1|H1]; [|reflexivity].
  destruct (Rle_dec x 1) as [H2|H2]; [|reflexivity].
  lra.
Qed.

(** C9: [Projection.asin] returns pi/2 above 1, -pi/2 below -1 and
    [Math.asin] in between; the result is always a number (never the NaN
    that [Math.asin] alone gives outside [-1,1]) and lies within
    [-pi/2, pi/2]. *)
Theorem asin_clamped_total_bounded :
  forall x : R,
    exists r : R,
      Projection.asin x = Some r /\
      - (PI / 2) <= r <= PI / 2 /\
      (1 < x -> r = PI / 2) /\
      (x < -1 -> r = - (PI / 2)) /\
      (-1 <= x <= 1 -> Math_asin x = Some r) /\
      (1 < x \/ x < -1 -> Math_asin x = None).
Proof.
  intros x. unfold Projection.asin, halfπ.
  assert (Hpi := PI_RGT_0).
  destruct (Rlt_dec 1 x) as [Hgt|Hgt].
  - exists (PI / 2). repeat split; try lra.
    intros _. apply Math_asin_nan. lra.
  - destruct (Rlt_dec x (-1)) as [Hlt|Hlt].
    + exists (- (PI / 2)). repeat split; try lra.
      intros _. apply Math_asin_nan. lra.
    + exists (Ratan.asin x).
      assert (Hx : -1 <= x <= 1) by lra.
      rewrite (Math_asin_defined x Hx).
      pose proof (asin_bound x) as Hb.
      repeat split; try lra.
Qed.

End AsinGuard.

(** ** Visibility under the cylindrical presets *)

Section CylindricalVisible.

Import Geo Projection.

Lemma project_visible_without_orthographic (p : t) (c : coord) :
  orthographic (mixer p) = false -> pvisible (project p c) = true.
Proof.
  intros Ho. unfold project. rewrite Ho.
  destruct (cylindrical (mixer p)); [destruct (project_cylindrical p c)|];
    reflexivity.
Qed.

(** C10: under each preset of the table that is cylindrical and not
    orthographic, [project] flags every coordinate visible; a result
    flagged invisible is only produced when the orthographic flag is set. *)
Theorem project_cylindrical_always_visible :
  forall (i : nat) (mx : mixer_t) (p : t) (c : coord),
    voyc_mixer i = Some mx ->
    cylindrical mx = true ->
    orthographic mx = false ->
    mixer p = mx ->
    pvisible (project p c) = true /\
    (forall (p' : t) (c' : coord),
        pvisible (project p' c') = false -> orthographic (mixer p') = true).
Proof.
  intros i mx0 p c _ _ Ho Hm. split.
  - apply project_visible_without_orthographic. rewrite Hm. exact Ho.
  - intros p' c' Hv.
    destruct (orthographic (mixer p')) eqn:Ho'; [reflexivity|].
    rewrite (project_visible_without_orthographic p' c' Ho') in Hv.
    discriminate.
Qed.

End CylindricalVisible.

Lemma project_cylindrical_always_visible_witness :
  Projection.pvisible (Projection.project Samples.soupcan_map (10, 20)%R) = true /\
  (forall (p' : Projection.t) (c' : Geo.coord),
      Projection.pvisible (Projection.project p' c') = false ->
      Projection.orthographic (Projection.mixer p') = true).
Proof.
  apply (project_cylindrical_always_visible 4
           (Projection.Mixer false true false true false true)
           Samples.soupcan_map (10, 20)%R); reflexivity.
Defined.

(** ** The base class *)

Section BaseClass.

Import JS GeoJSON GeoIterator.

(** C3 (as the code behaves): with no hook overridden, [collectionStart]
    has an empty body, its [undefined] result is falsy, and
    [iterateCollection] returns without visiting any geometry: the only
    hook called is [collectionStart], and [doPoint] is called on no
    coordinate. *)
Theorem base_iterateCollection_visits_nothing :
  forall (fuel : nat) (c : GeoJSON.collection) (w : world unit),
    iterateCollection (methods_of base) fuel c tt w
    = Done (VFalse,
            World (set_collection c (set_ret VFalse (self w)))
                  (calls w ++ [Call HCollectionStart VUndefined]))
    /\ iterateCollection (methods_of base) 1
         (Collection [Point (0, 0)%R]) tt (World (new tt) [])
       = Done (VFalse,
               World (This VFalse (Some (Collection [Point (0, 0)%R]))
                        None None None false tt)
                     [Call HCollectionStart VUndefined]).
Proof.
  intros fuel c w. split; reflexivity.
Qed.

End BaseClass.

(** ** Distance from a point to a segment *)

Section PointToSegment.

Import Floats Planar.
Local Open Scope float_scope.

Lemma SFltb_asym (a b : spec_float) :
  SFltb a b = true -> SFltb b a = false.
Proof.
  unfold SFltb.
  destruct a as [sa|sa| |sa ma ea], b as [sb|sb| |sb mb eb]; simpl;
    try destruct sa; try destruct sb; simpl; try discriminate; try reflexivity.
  - rewrite (Z.compare_antisym ea eb).
    destruct (ea ?= eb)%Z eqn:Hz; simpl; try discriminate; try reflexivity.
    rewrite !Pos.compare_cont_spec. simpl.
    rewrite (Pos.compare_antisym ma mb).
    destruct (ma ?= mb)%positive; simpl; try discriminate; reflexivity.
  - rewrite (Z.compare_antisym ea eb).
    destruct (ea ?= eb)%Z eqn:Hz; simpl; try discriminate; try reflexivity.
    rewrite !Pos.compare_cont_spec. simpl.
    rewrite (Pos.compare_antisym ma mb).
    destruct (ma ?= mb)%positive; simpl; try discriminate; reflexivity.
Qed.

Lemma ltb_asym (a b : float) : (a <? b) = true -> (b <? a) = false.
Proof. rewrite !ltb_spec. apply SFltb_asym. Qed.

(** Between two equal bounds there is no number. *)
Lemma ltb_no_room (l c : float) : (l <? c) && (c <? l) = false.
Proof.
  destruct (l <? c) eqn:H; [|reflexivity].
  rewrite (ltb_asym _ _ H). reflexivity.
Qed.

(** The rectangle test fails for every point when the segment is vertical
    (or a single point). *)
Lemma pointInRect_vertical (C A B : point) :
  fst A = fst B -> pointInRect C A B = false.
Proof.
  intros H. unfold pointInRect. rewrite <- H.
  rewrite (ltb_no_room (fst A) (fst C)). reflexivity.
Qed.

(** The rectangle test fails for every point when the segment is
    horizontal. *)
Lemma pointInRect_horizontal (C A B : point) :
  snd A = snd B -> pointInRect C A B = false.
Proof.
  intros H. unfold pointInRect. rewrite <- H.
  destruct (fst A <? fst C), (fst C <? fst B); simpl; try reflexivity.
  destruct (snd C <? snd A) eqn:H1; [|reflexivity].
  rewrite (ltb_asym _ _ H1). reflexivity.
Qed.

(** For a vertical segment, and for a segment reduced to a point, the
    result is the smaller endpoint distance, whatever the divisions by
    zero produced on the way. *)
Lemma distancePointToLineSeg_degenerate (E A B : point) :
  fst A = fst B ->
  distancePointToLineSeg E A B = Math_min (length A E) (length B E).
Proof.
  intros H. unfold distancePointToLineSeg.
  rewrite (pointInRect_vertical _ A B H). reflexivity.
Qed.

(** The example of the specification: the foot of the perpendicular from
    (15,5) falls outside the segment from (0,0) to (10,0). *)
Lemma distancePointToLineSeg_spec_example :
  distancePointToLineSeg (15, 5) (0, 0) (10, 0) = sqrt 50
  /\ length (10, 0) (15, 5) = sqrt 50.
Proof. split; vm_compute; reflexivity. Qed.

(** C8 (as the code behaves): for the segment from (0,0) to (10,10) and
    the point (10,0) the foot of the perpendicular is (5,5), strictly
    between the endpoints, and the perpendicular distance is about 7.07;
    the rectangle test takes A as the upper-left and B as the lower-right
    corner, rejects (5,5), and the function returns the endpoint
    distance 10. *)
Theorem distancePointToLineSeg_misses_interior_foot :
  intersection (0, 0) (10, 10) (10, 0) = (5, 5)
  /\ pointInRect (5, 5) (0, 0) (10, 10) = false
  /\ distancePointToLine (10, 0) (0, 0) (10, 10) = 100 / sqrt 200
  /\ (distancePointToLine (10, 0) (0, 0) (10, 10) <? 8) = true
  /\ distancePointToLineSeg (10, 0) (0, 0) (10, 10) = 10.
Proof. repeat split; vm_compute; reflexivity. Qed.

End PointToSegment.

(** ** The haversine central angle *)

Section HaversineResolution.

Import Floats.
Local Open Scope float_scope.


End HaversineResolution.

Section Haversine.

Import Geo.
Local Open Scope R_scope.

Lemma Math_atan2_0_1 : Math_atan2 0 1 = 0.
Proof.
  unfold Math_atan2. destruct (Rlt_dec 0 1) as [_|H]; [|lra].
  replace (0 / 1) with 0 by field. apply atan_0.
Qed.


Lemma calc_theta_same (a : coord) : calcθ a a = 0.
Proof.
  unfold calcθ; cbv zeta.
  replace ((radians (snd a) - radians (snd a)) / 2) with 0 by field.
  replace ((radians (fst a) - radians (fst a)) / 2) with 0 by field.
  rewrite sin_0.
  replace (0 * 0 + 0 * 0 * cos (radians (snd a)) * cos (radians (snd a)))
    with 0 by ring.
  rewrite Rminus_0_r, sqrt_0, sqrt_1, Math_atan2_0_1. ring.
Qed.

Lemma cos_radians_pos (lat : R) : -90 < lat < 90 -> 0 < cos (radians lat).
Proof.
  intros [Hlo Hhi]. assert (Hpi := PI_RGT_0).
  apply cos_gt_0; unfold radians; nra.
Qed.

(** The quarter of the equator from (0,0) to (90,0). *)
Lemma quarter_clear_of_antipodes : Geolib.clear_of_antipodes (0, 0) (90, 0).
Proof.
  unfold Geolib.clear_of_antipodes, Geolib.cos_central, radians. cbn [fst snd].
  replace (0 * (PI / 180)) with 0 by ring.
  replace (90 * (PI / 180) - 0) with (PI / 2) by field.
  rewrite sin_0, cos_0, cos_PI2. lra.
Qed.



End Haversine.

(** ** Abort and skip in the traversal *)

Section AbortSkip.

Import JS GeoJSON GeoIterator.

Context {E A : Type}.
Variable v : visitor E A.

Let m : methods E A := methods_of v.

Lemma end_not_abort (k : call) : is_end k = true -> aborts k = false.
Proof.
  unfold is_end, aborts. destruct (hook_of k); intros H; try discriminate; reflexivity.
Qed.

Lemma only_ends_quiet (T : list call) : only_ends T -> quiet T.
Proof.
  unfold only_ends, quiet. induction T as [|k T IH]; simpl; [reflexivity|].
  intros H. apply andb_true_iff in H as [Hk HT].
  rewrite (end_not_abort k Hk). simpl. apply IH, HT.
Qed.

Lemma quiet_app (T1 T2 : list call) : quiet T1 -> quiet T2 -> quiet (T1 ++ T2).
Proof.
  unfold quiet. intros H1 H2. rewrite forallb_app, H1, H2. reflexivity.
Qed.

Lemma only_ends_app (T1 T2 : list call) :
  only_ends T1 -> only_ends T2 -> only_ends (T1 ++ T2).
Proof.
  unfold only_ends. intros H1 H2. rewrite forallb_app, H1, H2. reflexivity.
Qed.

Lemma shape_quiet_before (T1 T2 : list call) (b : value) :
  quiet T1 -> shape T2 b -> shape (T1 ++ T2) b.
Proof.
  intros H1 [H2|(U1 & k & U2 & -> & Hq & Hk & He & Hb)].
  - left. apply quiet_app; assumption.
  - right. exists (T1 ++ U1), k, U2. rewrite app_assoc.
    repeat split; try assumption. apply quiet_app; assumption.
Qed.

Lemma shape_ends_after (T T2 : list call) (b : value) :
  shape T b -> only_ends T2 -> shape (T ++ T2) b.
Proof.
  intros [H|(U1 & k & U2 & -> & Hq & Hk & He & Hb)] H2.
  - left. apply quiet_app; [assumption|apply only_ends_quiet; assumption].
  - right. exists U1, k, (U2 ++ T2). rewrite <- app_assoc. simpl.
    repeat split; try assumption. apply only_ends_app; assumption.
Qed.

Lemma shape_falsy (T : list call) (b b' : value) :
  shape T b -> truthy b = false -> truthy b' = false -> shape T b'.
Proof.
  intros [H|(U1 & k & U2 & -> & Hq & Hk & He & Hb)] _ Hb'.
  - left. exact H.
  - right. exists U1, k, U2. repeat split; assumption.
Qed.

(** A truthy result means that nothing aborted. *)
Lemma shape_truthy (T : list call) (b : value) :
  shape T b -> truthy b = true -> quiet T.
Proof.
  intros [H|(U1 & k & U2 & -> & Hq & Hk & He & Hb)] Ht; [exact H|].
  rewrite Ht in Hb. discriminate.
Qed.

Lemma while_loop_falsy {X : Type} (body : X -> Z -> M E value) (xs : list X)
    (i : Z) (b : value) :
  truthy b = false -> while_loop body xs i b = mret b.
Proof.
  intros Hb. destruct xs as [|x xs]; simpl; [reflexivity|].
  rewrite Hb. reflexivity.
Qed.

Lemma behaves_while {X : Type} (body : X -> Z -> M E value) :
  (forall x i, behaves (body x i)) ->
  forall xs i b0, behaves (while_loop body xs i b0).
Proof.
  intros Hbody xs. induction xs as [|x xs IH]; intros i b0 w.
  - exists b0, w, []. simpl. rewrite app_nil_r.
    repeat split. left. reflexivity.
  - simpl. destruct (truthy b0) eqn:Hb0.
    + unfold bind.
      destruct (Hbody x (i + 1)%Z w) as (b & w1 & T1 & Hrun & Hlog & Hsh).
      rewrite Hrun.
      destruct (truthy b) eqn:Hb.
      * destruct (IH (i + 1)%Z b w1) as (b' & w2 & T2 & Hrun2 & Hlog2 & Hsh2).
        exists b', w2, (T1 ++ T2). rewrite Hrun2, Hlog2, Hlog, app_assoc.
        repeat split. apply shape_quiet_before; [|assumption].
        apply (shape_truthy T1 b); assumption.
      * rewrite (while_loop_falsy body xs (i + 1)%Z b Hb). unfold mret.
        exists b, w1, T1. repeat split; assumption.
    + exists b0, w, []. unfold mret. rewrite app_nil_r.
      repeat split. left. reflexivity.
Qed.

Lemma behaves_point_body (wi : within) (c : Geo.coord) (i : Z) :
  behaves (point_body m wi c i).
Proof.
  intros w. unfold point_body, invoke, m, methods_of, doPoint, lift.
  destruct (v_doPoint v c wi i (self w)) as [b s] eqn:Hd.
  exists b, (World s (calls w ++ [Call (HDoPoint c wi i) b])), [Call (HDoPoint c wi i) b].
  repeat split. destruct (truthy b) eqn:Hb.
  - left. unfold quiet. simpl. unfold aborts. simpl. rewrite Hb. reflexivity.
  - right. exists [], (Call (HDoPoint c wi i) b), [].
    repeat split; try assumption. unfold aborts. simpl. rewrite Hb. reflexivity.
Qed.

Lemma behaves_iteratePolygon (p : GeoJSON.polygon) : behaves (iteratePolygon m p).
Proof.
  intros w. unfold iteratePolygon, bind, update, invoke, enter. simpl.
  unfold lift, lift_, update. simpl.
  destruct (v_polygonStart v (ring0 p) (set_polygon p (self w))) as [st s1] eqn:Hs.
  set (k := Call (HPolygonStart (ring0 p)) st).
  set (e := Call (HPolygonEnd (ring0 p)) VUndefined).
  destruct (truthy st).
  - destruct (behaves_while (point_body m Poly) (behaves_point_body Poly)
                (ring0 p) (-1)%Z VTrue (World s1 (calls w ++ [k])))
      as (b & w2 & T & Hrun & Hlog & Hsh).
    rewrite Hrun. simpl.
    exists b, (World (v_polygonEnd v (ring0 p) (self w2)) (calls w2 ++ [e])),
      ([k] ++ T ++ [e]).
    repeat split.
    + simpl. rewrite Hlog. simpl. rewrite <- !app_assoc. reflexivity.
    + apply shape_quiet_before; [reflexivity|].
      apply shape_ends_after; [assumption|reflexivity].
  - unfold mret. simpl.
    exists VTrue, (World (v_polygonEnd v (ring0 p) s1) ((calls w ++ [k]) ++ [e])), [k; e].
    repeat split.
    + simpl. rewrite <- app_assoc. reflexivity.
    + left. reflexivity.
Qed.

Lemma behaves_iterateLine (l : list Geo.coord) : behaves (iterateLine m l).
Proof.
  intros w. unfold iterateLine, bind, update, invoke, enter. simpl.
  unfold lift, lift_, update. simpl.
  destruct (v_lineStart v l (set_line l (self w))) as [st s1] eqn:Hs.
  set (k := Call (HLineStart l) st).
  set (e := Call (HLineEnd l) VUndefined).
  destruct (truthy st).
  - destruct (behaves_while (point_body m Line) (behaves_point_body Line)
                l (-1)%Z VTrue (World s1 (calls w ++ [k])))
      as (b & w2 & T & Hrun & Hlog & Hsh).
    rewrite Hrun. simpl.
    exists b, (World (v_lineEnd v l (self w2)) (calls w2 ++ [e])),
      ([k] ++ T ++ [e]).
    repeat split.
    + simpl. rewrite Hlog. simpl. rewrite <- !app_assoc. reflexivity.
    + apply shape_quiet_before; [reflexivity|].
      apply shape_ends_after; [assumption|reflexivity].
  - unfold mret. simpl.
    exists VUndefined, (World (v_lineEnd v l s1) ((calls w ++ [k]) ++ [e])), [k; e].
    repeat split.
    + simpl. rewrite <- app_assoc. reflexivity.
    + left. reflexivity.
Qed.

Lemma behaves_iterateCoordinates (g : GeoJSON.geometry) : behaves (iterateCoordinates m g).
Proof.
  destruct g as [cs|c|cs|c|cs|c]; simpl.
  - apply behaves_while. intros x _. apply behaves_iteratePolygon.
  - apply behaves_iteratePolygon.
  - apply behaves_while. intros x _. apply behaves_iterateLine.
  - apply behaves_iterateLine.
  - apply behaves_while. apply behaves_point_body.
  - apply behaves_point_body.
Qed.

Lemma behaves_iterateGeometry (fuel : nat) (g : GeoJSON.geometry) :
  behaves (iterateGeometry m (S fuel) g).
Proof.
  intros w. simpl. unfold bind, update, invoke. simpl. unfold lift.
  destruct (v_geometryStart v g (set_geometry g (self w))) as [st s1] eqn:Hs.
  set (k := Call (HGeometryStart g) st).
  set (e := Call (HGeometryEnd g) VUndefined).
  assert (Hstop : forall b, st <> VTrue -> st <> VZero -> truthy b = false ->
            shape [k] b).
  { intros b H1 H2 Hb. right. exists [], k, []. repeat split; try assumption.
    unfold aborts, k. simpl. destruct st; try reflexivity; contradiction. }
  destruct st eqn:Hst;
    try (unfold mret; eexists _, _, [k]; repeat split;
         apply Hstop; [discriminate|discriminate|reflexivity]).
  - destruct (behaves_iterateCoordinates g (World s1 (calls w ++ [k])))
      as (b & w2 & T & Hrun & Hlog & Hsh).
    rewrite Hrun. unfold enter, lift_, update, mret. simpl.
    exists b, (World (v_geometryEnd v g (self w2)) (calls w2 ++ [e])), ([k] ++ T ++ [e]).
    repeat split.
    + rewrite Hlog. simpl. rewrite <- !app_assoc. reflexivity.
    + apply shape_quiet_before; [reflexivity|].
      apply shape_ends_after; [assumption|reflexivity].
  - unfold mret. eexists _, _, [k]. repeat split. left. reflexivity.
Qed.

(** After a call that aborts, a log of this shape holds end hooks only. *)
Lemma shape_after_abort (T : list call) (b : value) :
  shape T b ->
  forall l1 k l2, T = l1 ++ k :: l2 -> aborts k = true -> only_ends l2.
Proof.
  intros [Hq|(U1 & k0 & U2 & -> & Hq & Hk0 & He & _)] l1 k l2 HT Hk.
  - exfalso. subst T. unfold quiet in Hq. rewrite forallb_app in Hq.
    apply andb_true_iff in Hq as [_ Hq]. simpl in Hq. rewrite Hk in Hq.
    discriminate.
  - revert l1 HT Hq. induction U1 as [|u U1 IH]; intros l1 HT Hq.
    + destruct l1 as [|x l1]; simpl in HT.
      * injection HT as _ <-. exact He.
      * exfalso. injection HT as _ HT.
        assert (Hin : is_end k = true).
        { unfold only_ends in He. rewrite HT in He. rewrite forallb_app in He.
          apply andb_true_iff in He as [_ He]. simpl in He.
          apply andb_true_iff in He as [He _]. exact He. }
        rewrite (end_not_abort k Hin) in Hk. discriminate.
    + unfold quiet in Hq. simpl in Hq. apply andb_true_iff in Hq as [Hu Hq].
      destruct l1 as [|x l1]; simpl in HT.
      * exfalso. injection HT as -> _. rewrite Hk in Hu. discriminate.
      * injection HT as _ HT. apply (IH l1 HT Hq).
Qed.

End AbortSkip.

Section AbortSkipCollection.

Import JS GeoJSON GeoIterator.

Context {E A : Type}.
Variable v : visitor E A.

Lemma behaves_iterateGeometries (fuel : nat) (gs : list GeoJSON.geometry) (i : Z) :
  behaves (iterateGeometries (methods_of v) (S fuel) gs i).
Proof.
  unfold iterateGeometries. apply behaves_while.
  intros g _. apply behaves_iterateGeometry.
Qed.

(** The log of a whole traversal. *)
Lemma iterateCollection_log (fuel : nat) (c : GeoJSON.collection) (add : A)
    (w : world E) :
  exists r w' T,
    iterateCollection (methods_of v) (S fuel) c add w = Done (r, w')
    /\ calls w' = calls w ++ T
    /\ shape T VFalse.
Proof.
  unfold iterateCollection, bind, update, invoke, get. simpl. unfold lift.
  destruct (v_collectionStart v c add (set_collection c (set_ret VFalse (self w))))
    as [st s1] eqn:Hs.
  set (k := Call HCollectionStart st).
  set (e := Call HCollectionEnd VUndefined).
  destruct (truthy st) eqn:Ht.
  - destruct (behaves_iterateGeometries fuel (geometries c) (-1)%Z
                (World s1 (calls w ++ [k])))
      as (b & w2 & T & Hrun & Hlog & Hsh).
    unfold bind. rewrite Hrun. unfold enter, lift_, update, mret. simpl.
    eexists _, _, ([k] ++ T ++ [e]). repeat split.
    + simpl. rewrite Hlog. simpl. rewrite <- !app_assoc. reflexivity.
    + apply shape_quiet_before.
      * unfold quiet, aborts, k. simpl. rewrite Ht. reflexivity.
      * apply shape_ends_after; [|reflexivity].
        destruct Hsh as [Hq|(U1 & k0 & U2 & HT & Hq & Hk & He & _)].
        -- left. exact Hq.
        -- right. exists U1, k0, U2. repeat split; assumption.
  - unfold mret. simpl. eexists _, _, [k]. repeat split.
    right. exists [], k, []. repeat split.
    unfold aborts, k. simpl. rewrite Ht. reflexivity.
Qed.

Lemma geometryStart_zero_skips (fuel : nat) (g : GeoJSON.geometry)
    (gs : list GeoJSON.geometry) (i : Z) (w : world E) (s' : this E) :
  v_geometryStart v g (set_geometry g (self w)) = (VZero, s') ->
  iterateGeometries (methods_of v) (S fuel) (g :: gs) i w
  = iterateGeometries (methods_of v) (S fuel) gs (i + 1)%Z
      (World s' (calls w ++ [Call (HGeometryStart g) VZero])).
Proof.
  intros Hs. unfold iterateGeometries at 1. simpl.
  unfold bind at 1. unfold bind at 1. unfold update at 1. simpl.
  unfold bind at 1. unfold invoke at 1. simpl. unfold lift at 1.
  rewrite Hs. reflexivity.
Qed.

Lemma polygonStart_falsy_skips (p : GeoJSON.polygon) (ps : list GeoJSON.polygon)
    (i : Z) (w : world E) (b : value) (s' : this E) :
  v_polygonStart v (ring0 p) (set_polygon p (self w)) = (b, s') ->
  truthy b = false ->
  while_loop (fun x _ => iteratePolygon (methods_of v) x) (p :: ps) i VTrue w
  = while_loop (fun x _ => iteratePolygon (methods_of v) x) ps (i + 1)%Z VTrue
      (World (v_polygonEnd v (ring0 p) s')
         (calls w ++ [Call (HPolygonStart (ring0 p)) b;
                      Call (HPolygonEnd (ring0 p)) VUndefined])).
Proof.
  intros Hs Hb. simpl. unfold bind at 1. unfold iteratePolygon at 1.
  unfold bind, update, invoke, enter. simpl. unfold lift, lift_, update. simpl.
  rewrite Hs, Hb. unfold mret. simpl. rewrite <- app_assoc. reflexivity.
Qed.

End AbortSkipCollection.

(** C2 (as stated it fails): a [polygonStart] hook that returns [false]
    does not end the traversal; the ring is skipped, and the point that
    follows the polygon in the collection is visited. *)
Lemma polygonStart_false_does_not_abort :
  exists w',
    GeoIterator.iterateCollection
      (GeoIterator.methods_of
         (GeoIterator.scripted
            (fun h => match h with
                      | GeoIterator.HPolygonStart _ => JS.VFalse
                      | _ => JS.VTrue
                      end)))
      1
      (GeoJSON.Collection
         [GeoJSON.Polygon (GeoJSON.Polygon_ [(0, 0); (1, 0); (0, 0)]%R []);
          GeoJSON.Point (5, 5)%R])
      tt (GeoIterator.World (GeoIterator.new tt) [])
    = JS.Done (JS.VFalse, w')
    /\ In (GeoIterator.Call (GeoIterator.HPolygonStart [(0, 0); (1, 0); (0, 0)]%R) JS.VFalse)
          (GeoIterator.calls w')
    /\ In (GeoIterator.Call (GeoIterator.HDoPoint (5, 5)%R GeoJSON.Pnt (-1)) JS.VTrue)
          (GeoIterator.calls w').
Proof.
  eexists. split; [reflexivity|]. simpl. split.
  - right; right; left; reflexivity.
  - do 6 right. left. reflexivity.
Qed.

(** C2 (amended): for a visitor whose hooks return and whose end hooks do
    not call the traversal again, the traversal returns, and once
    [collectionStart], [geometryStart] or [doPoint] has returned [false]
    only end hooks are called: no coordinate hook fires any more and no
    further geometry, polygon or line is started.  A [geometryStart] that
    returns [0] skips
    its geometry only, the geometry loop going on with the next one, and a
    [polygonStart] that returns a falsy value, [false] included, skips its
    ring only: [polygonEnd] is called and the polygon loop goes on with the
    next polygon. *)
Theorem abort_ends_traversal_and_skip_continues :
  forall (E A : Type) (v : GeoIterator.visitor E A) (fuel : nat)
         (c : GeoJSON.collection) (add : A) (w : GeoIterator.world E),
    (exists r w' T,
        GeoIterator.iterateCollection (GeoIterator.methods_of v) (S fuel) c add w
        = JS.Done (r, w')
        /\ GeoIterator.calls w' = GeoIterator.calls w ++ T
        /\ forall l1 k l2,
             T = l1 ++ k :: l2 ->
             GeoIterator.stops_on_false (GeoIterator.hook_of k) = true ->
             GeoIterator.returned k = JS.VFalse ->
             forallb GeoIterator.is_end l2 = true)
    /\ (forall g gs i s',
          GeoIterator.v_geometryStart v g (GeoIterator.set_geometry g (GeoIterator.self w))
          = (JS.VZero, s') ->
          GeoIterator.iterateGeometries (GeoIterator.methods_of v) (S fuel) (g :: gs) i w
          = GeoIterator.iterateGeometries (GeoIterator.methods_of v) (S fuel) gs (i + 1)%Z
              (GeoIterator.World s'
                 (GeoIterator.calls w
                  ++ [GeoIterator.Call (GeoIterator.HGeometryStart g) JS.VZero])))
    /\ (forall p ps i b s',
          GeoIterator.v_polygonStart v (GeoJSON.ring0 p)
            (GeoIterator.set_polygon p (GeoIterator.self w)) = (b, s') ->
          JS.truthy b = false ->
          GeoIterator.while_loop
            (fun x _ => GeoIterator.iteratePolygon (GeoIterator.methods_of v) x)
            (p :: ps) i JS.VTrue w
          = GeoIterator.while_loop
              (fun x _ => GeoIterator.iteratePolygon (GeoIterator.methods_of v) x)
              ps (i + 1)%Z JS.VTrue
              (GeoIterator.World (GeoIterator.v_polygonEnd v (GeoJSON.ring0 p) s')
                 (GeoIterator.calls w
                  ++ [GeoIterator.Call (GeoIterator.HPolygonStart (GeoJSON.ring0 p)) b;
                      GeoIterator.Call (GeoIterator.HPolygonEnd (GeoJSON.ring0 p))
                        JS.VUndefined]))).
Proof.
  intros E A v fuel c add w. split; [|split].
  - destruct (iterateCollection_log v fuel c add w) as (r & w' & T & Hrun & Hlog & Hsh).
    exists r, w', T. repeat split; try assumption.
    intros l1 k l2 HT Hh Hr.
    apply (shape_after_abort T JS.VFalse Hsh l1 k l2 HT).
    unfold GeoIterator.aborts. rewrite Hr.
    destruct (GeoIterator.hook_of k); try discriminate; reflexivity.
  - intros g gs i s'. apply geometryStart_zero_skips.
  - intros p ps i b s'. apply polygonStart_falsy_skips.
Qed.

(** A [lineStart] hook that returns [0] leaves [boo] undefined in
    [iterateLine]; the falsy result stops the geometry loop, and the
    point that follows the line in the collection is not visited. *)
Lemma lineStart_skip_stops_collection :
  exists w',
    GeoIterator.iterateCollection
      (GeoIterator.methods_of
         (GeoIterator.scripted
            (fun h => match h with
                      | GeoIterator.HLineStart _ => JS.VZero
                      | _ => JS.VTrue
                      end)))
      1
      (GeoJSON.Collection
         [GeoJSON.LineString [(0, 0); (1, 0)]%R; GeoJSON.Point (5, 5)%R])
      tt (GeoIterator.World (GeoIterator.new tt) [])
    = JS.Done (JS.VFalse, w')
    /\ GeoIterator.calls w'
       = [GeoIterator.Call GeoIterator.HCollectionStart JS.VTrue;
          GeoIterator.Call (GeoIterator.HGeometryStart
                              (GeoJSON.LineString [(0, 0); (1, 0)]%R)) JS.VTrue;
          GeoIterator.Call (GeoIterator.HLineStart [(0, 0); (1, 0)]%R) JS.VZero;
          GeoIterator.Call (GeoIterator.HLineEnd [(0, 0); (1, 0)]%R) JS.VUndefined;
          GeoIterator.Call (GeoIterator.HGeometryEnd
                              (GeoJSON.LineString [(0, 0); (1, 0)]%R)) JS.VUndefined;
          GeoIterator.Call GeoIterator.HCollectionEnd JS.VUndefined].
Proof. eexists. split; reflexivity. Qed.

(** With an end hook that traverses again, an abort ends one pass only:
    under the stitch of [GeoIteratorClip.geometryEnd] a [doPoint] that
    returns [false] is followed by the two further passes over the
    geometry, each with its [geometryStart] and its [doPoint]. *)
Lemma stitch_passes_follow_abort :
  exists w',
    GeoIterator.iterateGeometry Aborting.clip_aborting 2 (GeoJSON.Point (0, 0)%R)
      (Samples.clip_world Samples.mercator_map)
    = JS.Done (JS.VFalse, w')
    /\ GeoIterator.calls w'
       = [GeoIterator.Call (GeoIterator.HGeometryStart (GeoJSON.Point (0, 0)%R)) JS.VTrue;
          GeoIterator.Call (GeoIterator.HDoPoint (0, 0)%R GeoJSON.Pnt (-1)) JS.VFalse;
          GeoIterator.Call (GeoIterator.HGeometryEnd (GeoJSON.Point (0, 0)%R)) JS.VUndefined;
          GeoIterator.Call (GeoIterator.HGeometryStart (GeoJSON.Point (0, 0)%R)) JS.VTrue;
          GeoIterator.Call (GeoIterator.HDoPoint (0, 0)%R GeoJSON.Pnt (-1)) JS.VFalse;
          GeoIterator.Call (GeoIterator.HGeometryEnd (GeoJSON.Point (0, 0)%R)) JS.VUndefined;
          GeoIterator.Call (GeoIterator.HGeometryStart (GeoJSON.Point (0, 0)%R)) JS.VTrue;
          GeoIterator.Call (GeoIterator.HDoPoint (0, 0)%R GeoJSON.Pnt (-1)) JS.VFalse;
          GeoIterator.Call (GeoIterator.HGeometryEnd (GeoJSON.Point (0, 0)%R)) JS.VUndefined].
Proof. eexists. split; lazy; reflexivity. Qed.

(** ** The clip coordinator: paths *)

Section ClipPaths.

Import JS GeoJSON Geo GeoIterator GeoIteratorClip.

Lemma set_ext_same (s : this fields) : set_ext (ext s) s = s.
Proof. destruct s; reflexivity. Qed.

Lemma set_ext_twice (e1 e2 : fields) (s : this fields) :
  set_ext e2 (set_ext e1 s) = set_ext e2 s.
Proof. reflexivity. Qed.

Lemma doPoint_path (c : coord) (w : within) (i : Z) (s : this fields) :
  is_pnt w || forcePoint s = false ->
  doPoint c w i s = Done (VTrue, set_ext (path_step w (ext s) c) s).
Proof.
  intros H. unfold doPoint, path_step.
  destruct (Projection.pvisible (Projection.project (projection (ext s)) c));
    [|reflexivity].
  rewrite H.
  destruct (truthy_counter
              (visiblePointCount
                 (mark_visible (Projection.project (projection (ext s)) c) w (ext s))));
    reflexivity.
Qed.

Lemma path_loop (w : within) (cs : list coord) :
  is_pnt w = false ->
  forall (i : Z) (wd : world fields),
    forcePoint (self wd) = false ->
    exists T,
      while_loop (point_body clip w) cs i VTrue wd
      = Done (VTrue,
              World (set_ext (path_run w cs (ext (self wd))) (self wd))
                    (calls wd ++ T)).
Proof.
  intros Hw. induction cs as [|c cs IH]; intros i wd Hf.
  - exists []. simpl. unfold mret. rewrite set_ext_same, app_nil_r.
    destruct wd; reflexivity.
  - assert (Hstep : point_body clip w c (i + 1)%Z wd
                    = Done (VTrue,
                            World (set_ext (path_step w (ext (self wd)) c) (self wd))
                              (calls wd ++ [Call (HDoPoint c w (i + 1)) VTrue]))).
    { unfold point_body, invoke. simpl.
      rewrite doPoint_path by (rewrite Hw, Hf; reflexivity). reflexivity. }
    destruct (IH (i + 1)%Z
                (World (set_ext (path_step w (ext (self wd)) c) (self wd))
                   (calls wd ++ [Call (HDoPoint c w (i + 1)) VTrue])) Hf)
      as [T HT].
    exists (Call (HDoPoint c w (i + 1)) VTrue :: T).
    simpl. unfold bind. rewrite Hstep, HT. simpl.
    rewrite <- app_assoc. reflexivity.
Qed.

(** [iteratePolygon] of the clip coordinator, with [forcePoint] off. *)
Lemma clip_iteratePolygon (p : GeoJSON.polygon) (wd : world fields) :
  forcePoint (self wd) = false ->
  exists T,
    iteratePolygon clip p wd
    = Done (VTrue,
            World (set_ext
                     (polygonEnd_fields
                        (path_run Poly (ring0 p) (polygonStart_fields (ext (self wd)))))
                     (set_polygon p (self wd)))
                  (calls wd ++ T)).
Proof.
  intros Hf. unfold iteratePolygon, bind, update, invoke. simpl.
  destruct (path_loop Poly (ring0 p) eq_refl (-1)%Z
              (World (on_ext polygonStart_fields (set_polygon p (self wd)))
                 (calls wd ++ [Call (HPolygonStart (ring0 p)) VTrue])) Hf)
    as [T HT].
  rewrite HT. unfold enter, polygonEnd, update, mret. simpl.
  exists ([Call (HPolygonStart (ring0 p)) VTrue] ++ T
          ++ [Call (HPolygonEnd (ring0 p)) VUndefined]).
  rewrite <- !app_assoc. reflexivity.
Qed.


End ClipPaths.

(** ** Facts about the sample projections *)

Section SampleFacts.

Import Geo Projection.
Local Open Scope R_scope.

Lemma radians_0 : radians 0 = 0.
Proof. unfold radians. ring. Qed.

Lemma radians_180 : radians 180 = PI.
Proof. unfold radians. assert (H := PI_RGT_0). field. Qed.

Lemma radians_90 : radians 90 = PI / 2.
Proof. unfold radians. field. Qed.

Lemma asin_at_0 : asin 0 = Some 0.
Proof.
  unfold asin. destruct (Rlt_dec 1 0) as [H|_]; [lra|].
  destruct (Rlt_dec 0 (-1)) as [H|_]; [lra|].
  rewrite Math_asin_defined by lra. rewrite asin_0. reflexivity.
Qed.

Lemma Math_atan2_0_neg : Math_atan2 0 (-1) = PI.
Proof.
  unfold Math_atan2. destruct (Rlt_dec 0 (-1)) as [H|_]; [lra|].
  destruct (Rlt_dec (-1) 0) as [_|H]; [|lra].
  destruct (Rle_dec 0 0) as [_|H]; [|lra].
  replace (0 / -1) with 0 by field. rewrite atan_0. ring.
Qed.

Lemma Rltb_true x y : x < y -> Rltb x y = true.
Proof. intros H. unfold Rltb. destruct (Rlt_dec x y); [reflexivity|contradiction]. Qed.

Lemma Rltb_false x y : y <= x -> Rltb x y = false.
Proof. intros H. unfold Rltb. destruct (Rlt_dec x y); [lra|reflexivity]. Qed.

Lemma globe_origin : project Samples.globe (0, 0) = Pixel (Some 0) (Some 0) true.
Proof.
  assert (Hpi := PI_RGT_0).
  unfold project, Samples.globe, Samples.projection_with. simpl.
  unfold project_orthographic. simpl. cbv zeta.
  rewrite radians_0. replace (0 + 0) with 0 by ring.
  destruct (Rlt_dec PI 0) as [H|_]; [lra|].
  destruct (Rlt_dec 0 (- PI)) as [H|_]; [lra|].
  rewrite sin_0, cos_0.
  replace ((0 * 1 + 1 * 1 * 0) * 1 + 0 * 1 * 0) with 0 by ring.
  rewrite asin_at_0.
  replace (0 * 1 * 1 - (0 * 1 + 1 * 1 * 0) * 0) with 0 by ring.
  replace (1 * 1 * 1 - 0 * 0) with 1 by ring.
  rewrite Math_atan2_0_1.
  unfold isPointVisible. simpl. unfold clipAngle. rewrite radians_90, cos_PI2, cos_0.
  rewrite Rltb_true by lra. simpl. rewrite sin_0.
  f_equal; f_equal; ring.
Qed.

Lemma globe_antipode : pvisible (project Samples.globe (180, 0)) = false.
Proof.
  assert (Hpi := PI_RGT_0).
  unfold project, Samples.globe, Samples.projection_with. simpl.
  unfold project_orthographic. simpl. cbv zeta.
  rewrite radians_0, radians_180. replace (PI + 0) with PI by ring.
  destruct (Rlt_dec PI PI) as [H|_]; [lra|].
  destruct (Rlt_dec PI (- PI)) as [H|_]; [lra|].
  rewrite sin_0, cos_0, sin_PI, cos_PI.
  replace ((0 * 1 + -1 * 1 * 0) * 1 + 0 * 1 * 0) with 0 by ring.
  rewrite asin_at_0.
  replace (0 * 1 * 1 - (0 * 1 + -1 * 1 * 0) * 0) with 0 by ring.
  replace (-1 * 1 * 1 - 0 * 0) with (-1) by ring.
  rewrite Math_atan2_0_neg.
  unfold isPointVisible. simpl. unfold clipAngle. rewrite radians_90, cos_PI2, cos_0, cos_PI.
  rewrite Rltb_false by lra. reflexivity.
Qed.

End SampleFacts.

(** ** The clip coordinator: one gap inside a ring or line *)

Section GapPaths.

Import JS GeoJSON Geo GeoIterator GeoIteratorClip.

Variable p : Projection.t.


Lemma is_pnt_path (w : within) : w <> Pnt -> w = Poly \/ w = Line.
Proof. destruct w; intros H; auto. contradiction. Qed.
















End GapPaths.

(** ** The clip coordinator: the end of a ring *)

Section RingEnd.

Import JS GeoJSON Geo GeoIterator GeoIteratorClip.

Variable p : Projection.t.

Lemma first_visible_snoc (pre : list coord) (c : coord) :
  first_visible p (pre ++ [c])
  = match first_visible p pre with
    | Some x => Some x
    | None => if visible p c then Some (Projection.project p c) else None
    end.
Proof.
  unfold first_visible. induction pre as [|a pre IH]; simpl.
  - destruct (visible p c); reflexivity.
  - destruct (visible p a); [reflexivity|exact IH].
Qed.

Lemma last_visible_snoc (pre : list coord) (c : coord) :
  last_visible p (pre ++ [c])
  = if visible p c then Some (Projection.project p c) else last_visible p pre.
Proof.
  unfold last_visible, first_visible. rewrite rev_app_distr. simpl.
  destruct (visible p c); reflexivity.
Qed.

Lemma has_visible_snoc (pre : list coord) (c : coord) :
  has_visible p (pre ++ [c]) = has_visible p pre || visible p c.
Proof.
  unfold has_visible. rewrite existsb_app. simpl. rewrite orb_false_r. reflexivity.
Qed.

Lemma starts_hidden_snoc (pre : list coord) (c : coord) :
  starts_hidden p (pre ++ [c])
  = match pre with [] => negb (visible p c) | _ => starts_hidden p pre end.
Proof. destruct pre; reflexivity. Qed.

Lemma is_some_first_visible (cs : list coord) :
  is_some (first_visible p cs) = has_visible p cs.
Proof.
  unfold first_visible, has_visible. induction cs as [|c cs IH]; simpl; [reflexivity|].
  destruct (visible p c); [reflexivity|exact IH].
Qed.

Lemma has_visible_rev (cs : list coord) :
  has_visible p (rev cs) = has_visible p cs.
Proof.
  unfold has_visible. induction cs as [|c cs IH]; simpl; [reflexivity|].
  rewrite existsb_app, IH. simpl. rewrite orb_false_r. apply orb_comm.
Qed.

Lemma is_some_last_visible (cs : list coord) :
  is_some (last_visible p cs) = has_visible p cs.
Proof.
  unfold last_visible. rewrite is_some_first_visible. apply has_visible_rev.
Qed.

Lemma ring_inv_start (f : fields) :
  projection f = p -> ring_inv p [] (polygonStart_fields f).
Proof.
  intros Hp. unfold ring_inv. simpl. repeat split; try assumption.
  exists 0%nat. split; reflexivity.
Qed.

Lemma ring_inv_step (pre : list coord) (f : fields) (c : coord) :
  ring_inv p pre f -> ring_inv p (pre ++ [c]) (path_step Poly f c).
Proof.
  intros (Hp & He & Hs & Hfirst & Hlast & Hprev & (n & Hn & Hv) & Hc).
  unfold ring_inv.
  rewrite first_visible_snoc, last_visible_snoc, has_visible_snoc,
    starts_hidden_snoc, length_app.
  unfold path_step. rewrite Hp. fold (visible p c).
  destruct (visible p c) eqn:Hvis.
  - unfold mark_visible. rewrite Hfirst.
    destruct (first_visible p pre) as [x|] eqn:Hfv; simpl;
      [destruct (is_some (lastVisiblePointBeforeGap f)); simpl|];
      rewrite ?Hn;
      (destruct (truthy_counter (Some n)); simpl;
       rewrite ?Hp, ?He, ?Hs, ?Hc, ?Hfirst, ?Hfv, ?Hn);
      repeat split;
      first [ reflexivity
            | destruct pre; reflexivity
            | exists (S n); split; [reflexivity|rewrite orb_true_r; reflexivity]
            | simpl; f_equal; lia ].
  - unfold mark_invisible. rewrite Hc.
    destruct (first_visible p pre) as [x|] eqn:Hfv;
      destruct pre as [|a pre]; simpl;
      destruct (negb (is_some (lastVisiblePointBeforeGap f)) && is_some (previousPt f));
      simpl; rewrite ?Hp, ?He, ?Hs, ?Hfirst, ?Hlast, ?Hprev, ?Hc, ?Hn;
      repeat split;
      first [ reflexivity
            | exists n; split; [reflexivity|rewrite orb_false_r; assumption]
            | exists n; split; [reflexivity|exact Hv]
            | simpl; f_equal; rewrite ?length_app; simpl; lia ].
Qed.

Lemma ring_inv_run (cs : list coord) :
  forall (pre : list coord) (f : fields),
    ring_inv p pre f -> ring_inv p (pre ++ cs) (path_run Poly cs f).
Proof.
  induction cs as [|c cs IH]; intros pre f H.
  - rewrite app_nil_r. exact H.
  - change (path_run Poly (c :: cs) f) with (path_run Poly cs (path_step Poly f c)).
    replace (pre ++ c :: cs) with ((pre ++ [c]) ++ cs)
      by (rewrite <- app_assoc; reflexivity).
    apply IH, ring_inv_step, H.
Qed.

(** What [polygonEnd] draws, and the flags it leaves, after the ring [cs]. *)
Lemma ring_inv_polygonEnd (cs : list coord) (f : fields) :
  ring_inv p cs f ->
  let f' := polygonEnd_fields f in
  drawn (ctx f') = drawn (ctx f) ++ ring_end_cmds p cs
  /\ isGapAtStart f' = starts_hidden p cs
  /\ isGapAtEnd f' = negb (has_visible p cs)
  /\ truthy_counter (visiblePointCount f') = has_visible p cs
  /\ firstVisiblePointInRing f' = first_visible p cs
  /\ lastVisiblePointInRing f' = last_visible p cs
  /\ projection f' = p.
Proof.
  intros (Hp & He & Hs & Hfirst & Hlast & Hprev & (n & Hn & Hv) & Hc).
  assert (Htc : truthy_counter (visiblePointCount f) = has_visible p cs).
  { rewrite Hn, <- Hv. destruct n; reflexivity. }
  unfold polygonEnd_fields, ring_end_cmds. cbv zeta.
  rewrite Hprev, is_some_last_visible.
  destruct (has_visible p cs) eqn:Hhas; simpl;
    rewrite ?Htc, ?Hs, ?He; simpl; rewrite ?orb_false_r;
    destruct (starts_hidden p cs) eqn:Hsh; simpl;
    rewrite ?Hp, ?Hfirst, ?Hlast, ?Hs, ?He, ?Htc, ?app_nil_r, <- ?app_assoc;
    repeat split; try reflexivity; try assumption.
Qed.

End RingEnd.

(** ** The clip coordinator: the two claims on gaps *)

Section ClipGaps.

Import JS GeoJSON Geo GeoIterator GeoIteratorClip.

Lemma globe_sees_origin : visible Samples.globe (0, 0)%R = true.
Proof. unfold visible. rewrite globe_origin. reflexivity. Qed.

Lemma globe_hides_antipode : visible Samples.globe (180, 0)%R = false.
Proof. exact globe_antipode. Qed.



(** C5: at the end of a ring the coordinator draws one more bridging arc,
    from the last to the first visible point of the ring, and a line to
    that first point, exactly when the visible-point count is not zero and
    the gap-at-start or the gap-at-end flag is set; otherwise it draws
    nothing.  The bridge is three calls on the context: a line to the last
    visible point extended to the circumference, one [arcTo] through the
    tangent point to the first visible point extended to the
    circumference, and the closing line.  The gap-at-start flag is set
    when the first coordinate is invisible, and the gap-at-end flag when
    the ring had no previous (visible) point at its end. *)
Theorem clip_ring_end_arc :
  forall (pg : GeoJSON.polygon) (wd : world fields),
    forcePoint (self wd) = false ->
    let p := projection (ext (self wd)) in
    let cs := ring0 pg in
    let before_end := path_run Poly cs (polygonStart_fields (ext (self wd))) in
    exists w',
      iteratePolygon clip pg wd = Done (VTrue, w')
      /\ let f' := ext (self w') in
         let bridged := truthy_counter (visiblePointCount f')
                        && (isGapAtStart f' || isGapAtEnd f') in
         let ob := extendToCircumference (lastVisiblePointInRing f')
                     (Projection.pt p) (Projection.k p) in
         let oc := extendToCircumference (firstVisiblePointInRing f')
                     (Projection.pt p) (Projection.k p) in
         let e := findTangent ob oc (Projection.pt p) (Projection.k p) in
         let at_end :=
           if bridged
           then [lineTo (fst (ept ob)) (snd (ept ob));
                 arcTo (fst e) (snd e) (fst (ept oc)) (snd (ept oc)) (Projection.k p);
                 lineTo (x_of (firstVisiblePointInRing f'))
                        (y_of (firstVisiblePointInRing f'))]
           else [] in
         drawn (ctx f') = drawn (ctx before_end) ++ at_end
         /\ List.length (filter is_arcTo at_end) = (if bridged then 1 else 0)%nat
         /\ truthy_counter (visiblePointCount f') = has_visible p cs
         /\ isGapAtStart f' = starts_hidden p cs
         /\ isGapAtEnd f' = negb (is_some (previousPt before_end))
         /\ isGapAtEnd f' = negb (has_visible p cs)
         /\ firstVisiblePointInRing f' = first_visible p cs
         /\ lastVisiblePointInRing f' = last_visible p cs.
Proof.
  intros pg wd Hf p cs before_end.
  destruct (clip_iteratePolygon pg wd Hf) as [T HT].
  eexists. split; [exact HT|].
  cbn [ext self set_ext]. fold cs. fold before_end.
  assert (Hinv : ring_inv p cs before_end).
  { apply (ring_inv_run p cs [] _ (ring_inv_start p _ eq_refl)). }
  destruct (ring_inv_polygonEnd p cs before_end Hinv)
    as (HD & Hs & He & Hv & Hfirst & Hlast & Hp).
  destruct Hinv as (_ & _ & _ & _ & _ & Hprev & _).
  cbv zeta.
  rewrite Hv, Hs, He, Hfirst, Hlast, HD, Hprev, is_some_last_visible.
  split; [|split; [|repeat split]].
  - unfold ring_end_cmds, arcGap_cmds. cbv zeta.
    destruct (has_visible p cs); simpl; [rewrite orb_false_r|]; [|reflexivity].
    destruct (starts_hidden p cs); reflexivity.
  - destruct (has_visible p cs && (starts_hidden p cs || negb (has_visible p cs)));
      reflexivity.
Qed.

Lemma clip_ring_end_arc_witness :
  let wd := Samples.clip_world Samples.globe in
  let pg := Polygon_ [(180, 0); (0, 0); (180, 0)]%R [] in
  let p := projection (ext (self wd)) in
  let cs := ring0 pg in
  let before_end := path_run Poly cs (polygonStart_fields (ext (self wd))) in
  exists w',
    iteratePolygon clip pg wd = Done (VTrue, w')
    /\ let f' := ext (self w') in
       let bridged := truthy_counter (visiblePointCount f')
                      && (isGapAtStart f' || isGapAtEnd f') in
       let ob := extendToCircumference (lastVisiblePointInRing f')
                   (Projection.pt p) (Projection.k p) in
       let oc := extendToCircumference (firstVisiblePointInRing f')
                   (Projection.pt p) (Projection.k p) in
       let e := findTangent ob oc (Projection.pt p) (Projection.k p) in
       let at_end :=
         if bridged
         then [lineTo (fst (ept ob)) (snd (ept ob));
               arcTo (fst e) (snd e) (fst (ept oc)) (snd (ept oc)) (Projection.k p);
               lineTo (x_of (firstVisiblePointInRing f'))
                      (y_of (firstVisiblePointInRing f'))]
         else [] in
       drawn (ctx f') = drawn (ctx before_end) ++ at_end
       /\ List.length (filter is_arcTo at_end) = (if bridged then 1 else 0)%nat
       /\ truthy_counter (visiblePointCount f') = has_visible p cs
       /\ isGapAtStart f' = starts_hidden p cs
       /\ isGapAtEnd f' = negb (is_some (previousPt before_end))
       /\ isGapAtEnd f' = negb (has_visible p cs)
       /\ firstVisiblePointInRing f' = first_visible p cs
       /\ lastVisiblePointInRing f' = last_visible p cs.
Proof.
  apply (clip_ring_end_arc (Polygon_ [(180, 0); (0, 0); (180, 0)]%R [])
           (Samples.clip_world Samples.globe)).
  reflexivity.
Defined.

(** On the sample ring, hidden at both ends and visible in the middle,
    the arc and the closing line are drawn. *)
Lemma clip_ring_end_arc_sample :
  ring_end_cmds Samples.globe [(180, 0); (0, 0); (180, 0)]%R
  = arcGap_cmds (Some (Projection.Pixel (Some 0%R) (Some 0%R) true))
      (Some (Projection.Pixel (Some 0%R) (Some 0%R) true)) (0, 0)%R 100%R
    ++ [lineTo (Some 0%R) (Some 0%R)].
Proof.
  unfold ring_end_cmds, has_visible, starts_hidden, last_visible, first_visible.
  cbn [existsb rev app find].
  rewrite globe_sees_origin, globe_hides_antipode.
  cbn [orb negb andb option_map x_of y_of].
  rewrite globe_origin. reflexivity.
Qed.

End ClipGaps.

(** ** The clip coordinator: cylindrical stitching *)

Section StitchRounding.

Import Floats.
Local Open Scope float_scope.

(** C6 (as stated it fails): in binary64 the three updates of [pt[0]] do
    not bring it back.  On a map that extends from -180 to 180 pixels, so
    that [wd] is 360, a [pt[0]] of 0.1 (the double 0x1.999999999999ap-4)
    becomes 360.1, then -359.9, and is 0.10000000000002274 on return. *)
Lemma stitch_does_not_restore_pt0 :
  Binary64.stitch_pt0 0x1.999999999999ap-4 (-180) 180
  = (0x1.681999999999ap+8, -0x1.67e6666666666p+8, 0x1.999999999ap-4)
  /\ (0x1.999999999ap-4 =? 0x1.999999999999ap-4) = false.
Proof. split; vm_compute; reflexivity. Qed.

(** Where every sum is exact the value does come back: a [pt[0]] of 500.5
    on the same map. *)
Lemma stitch_restores_pt0_sample :
  Binary64.stitch_pt0 500.5 (-180) 180 = (860.5, 140.5, 500.5).
Proof. vm_compute. reflexivity. Qed.

End StitchRounding.

Section Stitch.

Import JS GeoJSON Geo GeoIterator GeoIteratorClip.

Lemma geometry_starts_app (T1 T2 : list call) :
  geometry_starts (T1 ++ T2) = (geometry_starts T1 + geometry_starts T2)%nat.
Proof. unfold geometry_starts. rewrite filter_app, length_app. reflexivity. Qed.

Lemma frame_refl (w : world fields) : frame w w.
Proof.
  unfold frame. repeat split. exists []. rewrite app_nil_r. split; reflexivity.
Qed.

Lemma frame_trans (w1 w2 w3 : world fields) :
  frame w1 w2 -> frame w2 w3 -> frame w1 w3.
Proof.
  intros (A1 & A2 & A3 & A4 & A5 & T1 & A6 & A7) (B1 & B2 & B3 & B4 & B5 & T2 & B6 & B7).
  unfold frame. rewrite B1, B2, B3, B4, B5. repeat split; try assumption.
  exists (T1 ++ T2). rewrite B6, A6, app_assoc, geometry_starts_app, A7, B7.
  split; reflexivity.
Qed.

Lemma same4_path_step (w : within) (f : fields) (c : coord) :
  same4 f (path_step w f c).
Proof.
  unfold same4, path_step, mark_visible, mark_invisible, count_visible, arcGap,
    emit, emit_all.
  destruct (Projection.pvisible (Projection.project (projection f) c)).
  - destruct (negb (is_some (firstVisiblePointInRing f))); simpl.
    + destruct (truthy_counter (visiblePointCount f)); simpl; repeat split.
    + destruct (is_some (lastVisiblePointBeforeGap f)); simpl.
      * destruct w; simpl;
          try (destruct (truthy_counter (visiblePointCount f)); simpl);
          repeat split.
      * destruct (truthy_counter (visiblePointCount f)); simpl; repeat split.
  - destruct (negb (truthy_counter (pointCount f))); simpl;
      destruct (negb (is_some (lastVisiblePointBeforeGap f)) && is_some (previousPt f));
      simpl; repeat split.
Qed.

Lemma same4_polygonStart (f : fields) : same4 f (polygonStart_fields f).
Proof. unfold same4. repeat split. Qed.

Lemma same4_polygonEnd (f : fields) : same4 f (polygonEnd_fields f).
Proof.
  unfold same4, polygonEnd_fields, arcGap, emit, emit_all.
  destruct (is_some (previousPt f)); simpl;
    destruct (truthy_counter (visiblePointCount f)); simpl;
    try destruct (isGapAtStart f || isGapAtEnd f); simpl;
    try destruct (isGapAtStart f || true); simpl;
    repeat split.
Qed.

Lemma same4_path_run (w : within) (cs : list coord) :
  forall f, same4 f (path_run w cs f).
Proof.
  induction cs as [|c cs IH]; intros f.
  - unfold same4. repeat split.
  - change (path_run w (c :: cs) f) with (path_run w cs (path_step w f c)).
    destruct (IH (path_step w f c)) as (A1 & A2 & A3 & A4).
    destruct (same4_path_step w f c) as (B1 & B2 & B3 & B4).
    unfold same4. rewrite A1, A2, A3, A4. repeat split; assumption.
Qed.

(** [doPoint] in the branch that calls [drawPoint]. *)
Lemma doPoint_drawn (c : coord) (w : within) (i : Z) (s : this fields) :
  points_drawable s = true ->
  exists f', doPoint c w i s = Done (VTrue, set_ext f' s) /\ same4 (ext s) f'.
Proof.
  intros Hd.
  destruct (is_pnt w || forcePoint s) eqn:Hb.
  - unfold points_drawable in Hd. unfold doPoint.
    destruct (Projection.pvisible (Projection.project (projection (ext s)) c)) eqn:Hv.
    + rewrite Hb. unfold drawPoint.
      assert (Hn : paletteNdx (mark_visible (Projection.project (projection (ext s)) c) w (ext s))
                   = paletteNdx (ext s)).
      { unfold mark_visible, arcGap, emit_all.
        destruct (negb (is_some (firstVisiblePointInRing (ext s)))); simpl; [reflexivity|].
        destruct (is_some (lastVisiblePointBeforeGap (ext s))); simpl; [|reflexivity].
        destruct w; reflexivity. }
      assert (Hpal : palette (mark_visible (Projection.project (projection (ext s)) c) w (ext s))
                   = palette (ext s)).
      { unfold mark_visible, arcGap, emit_all.
        destruct (negb (is_some (firstVisiblePointInRing (ext s)))); simpl; [reflexivity|].
        destruct (is_some (lastVisiblePointBeforeGap (ext s))); simpl; [|reflexivity].
        destruct w; reflexivity. }
      rewrite Hn, Hpal.
      destruct (paletteNdx (ext s)) as [n|]; [|discriminate].
      destruct (nth_error (palette (ext s)) n) as [pal|]; [|discriminate].
      eexists. split; [reflexivity|].
      unfold same4, count_visible, emit, mark_visible, arcGap, emit_all.
      destruct (negb (is_some (firstVisiblePointInRing (ext s)))); simpl;
        [repeat split|].
      destruct (is_some (lastVisiblePointBeforeGap (ext s))); simpl;
        [destruct w; simpl; repeat split|repeat split].
    + eexists. split; [reflexivity|].
      unfold same4, mark_invisible.
      destruct (negb (truthy_counter (pointCount (ext s)))); simpl;
        destruct (negb (is_some (lastVisiblePointBeforeGap (ext s)))
                  && is_some (previousPt (ext s)));
        simpl; repeat split.
  - exists (path_step w (ext s) c). split.
    + apply doPoint_path. exact Hb.
    + apply same4_path_step.
Qed.

Lemma doPoint_same4 (g : GeoJSON.geometry) (c : coord) (w : within) (i : Z)
    (s : this fields) :
  safe g s = true ->
  (is_pnt w = true -> match g with MultiPoint _ | Point _ => True | _ => False end) ->
  exists f', doPoint c w i s = Done (VTrue, set_ext f' s) /\ same4 (ext s) f'.
Proof.
  intros Hs Hw. unfold safe in Hs. apply orb_true_iff in Hs as [Hs|Hs].
  - exists (path_step w (ext s) c). split; [|apply same4_path_step].
    apply doPoint_path. unfold draws_points in Hs.
    apply negb_true_iff, orb_false_iff in Hs as [Hf Hg]. rewrite Hf.
    destruct (is_pnt w) eqn:Hp; [|reflexivity].
    specialize (Hw eq_refl). destruct g; try contradiction; discriminate.
  - apply doPoint_drawn. exact Hs.
Qed.

Lemma safe_frame (g : GeoJSON.geometry) (w w' : world fields) :
  frame w w' -> safe g (self w') = safe g (self w).
Proof.
  intros (_ & _ & A3 & A4 & A5 & _).
  unfold safe, draws_points, points_drawable. rewrite A3, A4, A5. reflexivity.
Qed.

Lemma point_body_frame (g : GeoJSON.geometry) (wi : within) (c : coord) (i : Z)
    (w : world fields) :
  safe g (self w) = true -> kind_ok g wi ->
  exists w', point_body clip wi c i w = Done (VTrue, w') /\ frame w w'.
Proof.
  intros Hs Hk. unfold point_body, invoke. simpl.
  destruct (doPoint_same4 g c wi i (self w) Hs Hk) as (f' & Hrun & A1 & A2 & A3 & A4).
  rewrite Hrun. eexists. split; [reflexivity|].
  unfold frame. simpl. repeat split; try assumption.
  exists [Call (HDoPoint c wi i) VTrue]. split; reflexivity.
Qed.

Lemma while_frame {X : Type} (g : GeoJSON.geometry) (body : X -> Z -> M fields value) :
  (forall x i w, safe g (self w) = true ->
     exists w', body x i w = Done (VTrue, w') /\ frame w w') ->
  forall xs i w, safe g (self w) = true ->
    exists w', while_loop body xs i VTrue w = Done (VTrue, w') /\ frame w w'.
Proof.
  intros Hbody xs. induction xs as [|x xs IH]; intros i w Hs.
  - exists w. split; [reflexivity|apply frame_refl].
  - simpl. unfold bind.
    destruct (Hbody x (i + 1)%Z w Hs) as (w1 & Hrun & Hf1). rewrite Hrun.
    assert (Hs1 : safe g (self w1) = true) by (rewrite (safe_frame g w w1 Hf1); exact Hs).
    destruct (IH (i + 1)%Z w1 Hs1) as (w2 & Hrun2 & Hf2).
    exists w2. split; [exact Hrun2|]. apply (frame_trans w w1 w2); assumption.
Qed.

Lemma frame_on_ext (h : fields -> fields) (s : this fields) (l : list call)
    (w' : world fields) :
  (forall f, same4 f (h f)) ->
  frame (World (on_ext h s) l) w' -> frame (World s l) w'.
Proof.
  intros Hh (A1 & A2 & A3 & A4 & A5 & A6).
  destruct (Hh (ext s)) as (B1 & B2 & B3 & B4).
  unfold frame. simpl in *. rewrite A1, A2, A3, A4, A5.
  repeat split; assumption.
Qed.

Lemma iteratePolygon_frame (g : GeoJSON.geometry) (pg : GeoJSON.polygon)
    (w : world fields) :
  safe g (self w) = true ->
  match g with MultiPoint _ | Point _ => False | _ => True end ->
  exists w', iteratePolygon clip pg w = Done (VTrue, w') /\ frame w w'.
Proof.
  intros Hs Hg. unfold iteratePolygon, bind, update, invoke. simpl.
  set (w1 := World (on_ext polygonStart_fields (set_polygon pg (self w)))
               (calls w ++ [Call (HPolygonStart (ring0 pg)) VTrue])).
  assert (Hs1 : safe g (self w1) = true) by exact Hs.
  destruct (while_frame g (point_body clip Poly)
              (fun c i w0 H => point_body_frame g Poly c i w0 H
                                 ltac:(intros ?; discriminate))
              (ring0 pg) (-1)%Z w1 Hs1) as (w2 & Hrun & A1 & A2 & A3 & A4 & A5 & T & A6 & A7).
  rewrite Hrun. unfold enter, polygonEnd, update, mret. simpl.
  eexists. split; [reflexivity|].
  destruct (same4_polygonEnd (ext (self w2))) as (B1 & B2 & B3 & B4).
  unfold frame. simpl. rewrite B1, B2, B3, B4, A1, A2, A3, A4, A5.
  repeat split.
  exists ([Call (HPolygonStart (ring0 pg)) VTrue] ++ T
          ++ [Call (HPolygonEnd (ring0 pg)) VUndefined]).
  rewrite A6. unfold w1. simpl. rewrite <- !app_assoc. split; [reflexivity|].
  match goal with
  | |- geometry_starts (?k :: ?x) = _ => change (geometry_starts ([k] ++ x) = 0%nat)
  end.
  rewrite !geometry_starts_app, A7. reflexivity.
Qed.

Lemma iterateLine_frame (g : GeoJSON.geometry) (l : list coord) (w : world fields) :
  safe g (self w) = true ->
  match g with MultiPoint _ | Point _ => False | _ => True end ->
  exists w', iterateLine clip l w = Done (VTrue, w') /\ frame w w'.
Proof.
  intros Hs Hg. unfold iterateLine, bind, update, invoke. simpl.
  set (w1 := World (on_ext polygonStart_fields (set_line l (self w)))
               (calls w ++ [Call (HLineStart l) VTrue])).
  assert (Hs1 : safe g (self w1) = true) by exact Hs.
  destruct (while_frame g (point_body clip Line)
              (fun c i w0 H => point_body_frame g Line c i w0 H
                                 ltac:(intros ?; discriminate))
              l (-1)%Z w1 Hs1) as (w2 & Hrun & A1 & A2 & A3 & A4 & A5 & T & A6 & A7).
  rewrite Hrun. unfold enter, update, mret. simpl.
  eexists. split; [reflexivity|].
  unfold frame. simpl. rewrite A1, A2, A3, A4, A5.
  repeat split.
  exists ([Call (HLineStart l) VTrue] ++ T ++ [Call (HLineEnd l) VUndefined]).
  rewrite A6. unfold w1. simpl. rewrite <- !app_assoc. split; [reflexivity|].
  match goal with
  | |- geometry_starts (?k :: ?x) = _ => change (geometry_starts ([k] ++ x) = 0%nat)
  end.
  rewrite !geometry_starts_app, A7. reflexivity.
Qed.

Lemma iterateCoordinates_frame (g : GeoJSON.geometry) (w : world fields) :
  safe g (self w) = true ->
  exists w', iterateCoordinates clip g w = Done (VTrue, w') /\ frame w w'.
Proof.
  intros Hs. destruct g as [cs|c|cs|c|cs|c]; simpl.
  - apply (while_frame (MultiPolygon cs)); [|exact Hs].
    intros x _ w0 H. apply (iteratePolygon_frame (MultiPolygon cs)); [exact H|exact I].
  - apply (iteratePolygon_frame (Polygon c)); [exact Hs|exact I].
  - apply (while_frame (MultiLineString cs)); [|exact Hs].
    intros x _ w0 H. apply (iterateLine_frame (MultiLineString cs)); [exact H|exact I].
  - apply (iterateLine_frame (LineString c)); [exact Hs|exact I].
  - apply (while_frame (MultiPoint cs)); [|exact Hs].
    intros x i w0 H. apply (point_body_frame (MultiPoint cs)); [exact H|].
    intros _. exact I.
  - apply (point_body_frame (Point c)); [exact Hs|]. intros _. exact I.
Qed.

Lemma bind_done {X Y : Type} (c : M fields X) (f : X -> M fields Y)
    (w w' : world fields) (x : X) :
  c w = Done (x, w') -> bind c f w = f x w'.
Proof. intros H. unfold bind. rewrite H. reflexivity. Qed.

(** What a first pass leaves behind. *)
Lemma first_pass_run (g : GeoJSON.geometry) (w : world fields) :
  safe g (self w) = true ->
  exists w',
    first_pass g w = Done (VTrue, w')
    /\ projection (ext (self w')) = projection (ext (self w))
    /\ pass (ext (self w')) = option_map (fun n => n + 1)%Z (pass (ext (self w)))
    /\ safe g (self w') = true
    /\ exists T, calls w' = calls w ++ T /\ geometry_starts T = 1%nat.
Proof.
  intros Hs. unfold first_pass.
  set (w1 := World (set_ext (with_pass (option_map (fun n => n + 1)%Z (pass (ext (self w))))
                               (ext (self w)))
                      (set_geometry g (self w)))
               (calls w ++ [Call (HGeometryStart g) VTrue])).
  assert (Hs1 : safe g (self w1) = true) by exact Hs.
  destruct (iterateCoordinates_frame g w1 Hs1)
    as (w2 & Hrun & A1 & A2 & A3 & A4 & A5 & T & A6 & A7).
  exists (World (self w2) (calls w2 ++ [Call (HGeometryEnd g) VUndefined])).
  split.
  - rewrite (bind_done _ _ w (World (set_geometry g (self w)) (calls w)) tt eq_refl).
    cbv beta.
    assert (H2 : invoke (HGeometryStart g) (geometryStart g)
                   (World (set_geometry g (self w)) (calls w)) = Done (VTrue, w1))
      by reflexivity.
    rewrite (bind_done _ _ _ _ _ H2). cbv beta.
    rewrite (bind_done _ _ _ _ _ Hrun). cbv beta.
    reflexivity.
  - cbn [self calls]. rewrite A1, A2. repeat split.
    + unfold safe, draws_points, points_drawable. rewrite A3, A4, A5. exact Hs.
    + exists ([Call (HGeometryStart g) VTrue] ++ T ++ [Call (HGeometryEnd g) VUndefined]).
      rewrite A6. unfold w1. cbn [calls]. rewrite <- !app_assoc.
      split; [reflexivity|]. rewrite !geometry_starts_app, A7. reflexivity.
Qed.

Lemma plain_pass_run (g : GeoJSON.geometry) (w : world fields) :
  safe g (self w) = true ->
  exists w1,
    first_pass g w = Done (VTrue, w1)
    /\ plain_pass g w = Done (VTrue, World (on_ext decrement (self w1)) (calls w1))
    /\ projection (ext (self w1)) = projection (ext (self w))
    /\ pass (ext (self w1)) = option_map (fun n => n + 1)%Z (pass (ext (self w)))
    /\ safe g (self w1) = true
    /\ exists T, calls w1 = calls w ++ T /\ geometry_starts T = 1%nat.
Proof.
  intros Hs. destruct (first_pass_run g w Hs) as (w1 & Hrun & H).
  exists w1. split; [exact Hrun|]. split; [|exact H].
  unfold plain_pass. rewrite (bind_done _ _ _ _ _ Hrun). reflexivity.
Qed.

Lemma bind_throw {X Y : Type} (c : M fields X) (f : X -> M fields Y)
    (w : world fields) :
  c w = Throw -> bind c f w = Throw.
Proof. intros H. unfold bind. rewrite H. reflexivity. Qed.

Lemma bind_fuel {X Y : Type} (c : M fields X) (f : X -> M fields Y)
    (w : world fields) :
  c w = OutOfFuel -> bind c f w = OutOfFuel.
Proof. intros H. unfold bind. rewrite H. reflexivity. Qed.

(** [iterateGeometry] is a first pass followed by [geometryEnd]. *)
Lemma iterateGeometry_unfold (n : nat) (g : GeoJSON.geometry) (w : world fields) :
  iterateGeometry clip (S n) g w
  = bind (first_pass g)
      (fun boo => bind (geometryEnd (iterateGeometry clip n) g) (fun _ => mret boo)) w.
Proof.
  set (w0 := World (set_geometry g (self w)) (calls w)).
  set (w1 := World (set_ext (with_pass (option_map (fun n => n + 1)%Z (pass (ext (self w))))
                               (ext (self w)))
                      (set_geometry g (self w)))
               (calls w ++ [Call (HGeometryStart g) VTrue])).
  assert (H1 : update (set_geometry g) w = Done (tt, w0)) by reflexivity.
  assert (H2 : invoke (HGeometryStart g) (GeoIterator.geometryStart clip g) w0
               = Done (VTrue, w1)) by reflexivity.
  cbn [iterateGeometry]. unfold first_pass.
  rewrite (bind_done _ _ _ _ _ H1). cbv beta.
  rewrite (bind_done _ _ _ _ _ H2). cbv beta iota.
  destruct (iterateCoordinates clip g w1) as [[b w2]| |] eqn:Hc.
  - rewrite (bind_done _ _ _ _ _ Hc). cbv beta.
    assert (H3 : enter (HGeometryEnd g) w2
                 = Done (tt, World (self w2)
                               (calls w2 ++ [Call (HGeometryEnd g) VUndefined])))
      by reflexivity.
    rewrite (bind_done _ _ _ _ _ H3). cbv beta.
    assert (Hfp : bind (update (set_geometry g))
                    (fun _ => bind (invoke (HGeometryStart g) (geometryStart g))
                      (fun _ => bind (iterateCoordinates clip g)
                        (fun boo => bind (enter (HGeometryEnd g)) (fun _ => mret boo)))) w
                  = Done (b, World (self w2)
                               (calls w2 ++ [Call (HGeometryEnd g) VUndefined]))).
    { rewrite (bind_done _ _ _ _ _ H1). cbv beta.
      rewrite (bind_done _ _ _ _ _ H2). cbv beta.
      rewrite (bind_done _ _ _ _ _ Hc). cbv beta.
      rewrite (bind_done _ _ _ _ _ H3). reflexivity. }
    rewrite (bind_done _ _ _ _ _ Hfp). reflexivity.
  - rewrite (bind_throw _ _ _ Hc). symmetry. apply bind_throw.
    rewrite (bind_done _ _ _ _ _ H1). cbv beta.
    rewrite (bind_done _ _ _ _ _ H2). cbv beta.
    apply bind_throw. exact Hc.
  - rewrite (bind_fuel _ _ _ Hc). symmetry. apply bind_fuel.
    rewrite (bind_done _ _ _ _ _ H1). cbv beta.
    rewrite (bind_done _ _ _ _ _ H2). cbv beta.
    apply bind_fuel. exact Hc.
Qed.

(** With the pass counter at a value other than 1 after [geometryStart],
    [geometryEnd] only decrements it. *)
Lemma geometryEnd_plain (it : GeoJSON.geometry -> M fields value)
    (g : GeoJSON.geometry) (w : world fields) :
  pass_is_1 (ext (self w)) = false ->
  geometryEnd it g w = Done (tt, World (on_ext decrement (self w)) (calls w)).
Proof.
  intros Hp. unfold geometryEnd.
  assert (H1 : get w = Done (self w, w)) by reflexivity.
  rewrite (bind_done _ _ _ _ _ H1). cbv beta. rewrite Hp. cbn [andb].
  assert (H2 : @mret fields unit tt w = Done (tt, w)) by reflexivity.
  rewrite (bind_done _ _ _ _ _ H2). reflexivity.
Qed.

(** A call of [iterateGeometry] made at pass depth 1 does not stitch: it
    is a plain pass, whatever fuel is left. *)
Lemma nested_pass_is_plain (n : nat) (g : GeoJSON.geometry) (w : world fields) :
  safe g (self w) = true ->
  pass (ext (self w)) = Some 1%Z ->
  iterateGeometry clip (S n) g w = plain_pass g w.
Proof.
  intros Hs Hp. rewrite iterateGeometry_unfold. unfold plain_pass.
  destruct (first_pass_run g w Hs) as (w1 & Hrun & _ & Hpass & _).
  rewrite !(bind_done _ _ _ _ _ Hrun). cbv beta.
  rewrite Hp in Hpass. cbn [option_map] in Hpass.
  assert (H1 : pass_is_1 (ext (self w1)) = false)
    by (unfold pass_is_1; rewrite Hpass; reflexivity).
  rewrite (bind_done _ _ _ _ _ (geometryEnd_plain _ g w1 H1)). cbv beta.
  assert (H2 : update (on_ext (fun f => with_pass (option_map (fun n => n - 1)%Z (pass f)) f)) w1
               = Done (tt, World (on_ext decrement (self w1)) (calls w1)))
    by reflexivity.
  rewrite (bind_done _ _ _ _ _ H2). reflexivity.
Qed.

(** Of successive assignments to [pt[0]] the last one stays. *)
Lemma set_pt0_thrice (p : Projection.t) (a b c : R) :
  Projection.set_pt0 (Projection.set_pt0 (Projection.set_pt0 p a) b) c
  = Projection.set_pt0 p c.
Proof. reflexivity. Qed.

(** C6 (amended): with the stitch flag set, a call of [iterateGeometry]
    at pass depth 1 (the counter is 0 on entry) returns after exactly
    three traversals of the geometry: the original one, one with [pt[0]]
    increased by the map width [wd] and one with that value decreased by
    [2 * wd]; the two calls made from [geometryEnd] are plain passes that
    do not re-enter, whatever depth is allowed; on return the pass counter
    is back at 0 and the projection is the one on entry but for [pt[0]],
    which is [((pt[0] + wd) - 2 * wd) + wd].  That sum is the value on
    entry in exact arithmetic, and not always in binary64. *)
Theorem clip_stitch_three_passes :
  forall (n : nat) (g : GeoJSON.geometry) (w : world fields),
    pass (ext (self w)) = Some 0%Z ->
    Projection.stitch (Projection.mixer (projection (ext (self w)))) = true ->
    safe g (self w) = true ->
    let p := projection (ext (self w)) in
    let x0 := fst (Projection.pt p) in
    let wd := (fst (snd (Projection.mx p)) - fst (fst (Projection.mx p)))%R in
    exists w1 w2 w3 wfin,
      first_pass g w = Done (VTrue, w1)
      /\ fst (Projection.pt (projection (ext (self w1)))) = x0
      /\ plain_pass g (shifted wd w1) = Done (VTrue, w2)
      /\ fst (Projection.pt (projection (ext (self (shifted wd w1))))) = (x0 + wd)%R
      /\ plain_pass g (shifted (- (2 * wd)) w2) = Done (VTrue, w3)
      /\ fst (Projection.pt (projection (ext (self (shifted (- (2 * wd)) w2)))))
         = (x0 + wd - 2 * wd)%R
      /\ (forall m, iterateGeometry clip (S m) g (shifted wd w1)
                    = plain_pass g (shifted wd w1))
      /\ (forall m, iterateGeometry clip (S m) g (shifted (- (2 * wd)) w2)
                    = plain_pass g (shifted (- (2 * wd)) w2))
      /\ iterateGeometry clip (S (S n)) g w = Done (VTrue, wfin)
      /\ wfin = World (on_ext decrement (on_ext (shift_pt0 wd) (self w3))) (calls w3)
      /\ projection (ext (self wfin)) = Projection.set_pt0 p (x0 + wd - 2 * wd + wd)%R
      /\ pass (ext (self wfin)) = Some 0%Z
      /\ exists T, calls wfin = calls w ++ T /\ geometry_starts T = 3%nat.
Proof.
  intros n g w Hpass Hst Hs p x0 wd.
  destruct (first_pass_run g w Hs) as (w1 & Hrun1 & Hp1 & Hpass1 & Hs1 & T1 & Hl1 & Hn1).
  rewrite Hpass in Hpass1. cbn [option_map] in Hpass1.
  assert (Hs1' : safe g (self (shifted wd w1)) = true) by exact Hs1.
  destruct (plain_pass_run g (shifted wd w1) Hs1')
    as (u2 & _ & Hrun2 & Hp2 & Hpass2 & Hs2 & T2 & Hl2 & Hn2).
  set (w2 := World (on_ext decrement (self u2)) (calls u2)) in *.
  assert (Hs2' : safe g (self (shifted (- (2 * wd)) w2)) = true) by exact Hs2.
  destruct (plain_pass_run g (shifted (- (2 * wd)) w2) Hs2')
    as (u3 & _ & Hrun3 & Hp3 & Hpass3 & Hs3 & T3 & Hl3 & Hn3).
  set (w3 := World (on_ext decrement (self u3)) (calls u3)) in *.
  set (wfin := World (on_ext decrement (on_ext (shift_pt0 wd) (self w3))) (calls w3)).
  assert (Hq1 : pass (ext (self (shifted wd w1))) = Some 1%Z) by exact Hpass1.
  assert (Hq2 : pass (ext (self (shifted (- (2 * wd)) w2))) = Some 1%Z).
  { cbn [shifted self on_ext set_ext ext shift_pt0 with_projection pass w2 decrement with_pass].
    rewrite Hpass2, Hq1. reflexivity. }
  assert (Hproj1 : projection (ext (self (shifted wd w1))) = Projection.set_pt0 p (x0 + wd)%R).
  { cbn [shifted self on_ext set_ext ext shift_pt0 with_projection projection].
    rewrite Hp1. reflexivity. }
  assert (Hproj2 : projection (ext (self (shifted (- (2 * wd)) w2)))
                   = Projection.set_pt0 (Projection.set_pt0 p (x0 + wd)%R)
                       (x0 + wd + - (2 * wd))%R).
  { cbn [shifted self on_ext set_ext ext shift_pt0 with_projection projection w2
           decrement with_pass].
    rewrite Hp2, Hproj1. reflexivity. }
  assert (Hprojf : projection (ext (self wfin))
                   = Projection.set_pt0 p (x0 + wd - 2 * wd + wd)%R).
  { cbn [wfin w3 shifted self on_ext set_ext ext shift_pt0 with_projection projection
           decrement with_pass].
    rewrite Hp3, Hproj2. cbn [Projection.set_pt0 Projection.pt fst].
    apply (set_pt0_thrice p (x0 + wd) (x0 + wd + - (2 * wd))
             (x0 + wd + - (2 * wd) + wd))%R. }
  exists w1, w2, w3, wfin.
  split; [exact Hrun1|]. split; [rewrite Hp1; reflexivity|].
  split; [exact Hrun2|]. split; [rewrite Hproj1; reflexivity|].
  split; [exact Hrun3|].
  split; [rewrite Hproj2; reflexivity|].
  split; [intros m; apply nested_pass_is_plain; assumption|].
  split; [intros m; apply nested_pass_is_plain; assumption|].
  split.
  - rewrite iterateGeometry_unfold.
    rewrite (bind_done _ _ _ _ _ Hrun1). cbv beta.
    assert (Hge : geometryEnd (iterateGeometry clip (S n)) g w1 = Done (tt, wfin)).
    { unfold geometryEnd.
      assert (H1 : get w1 = Done (self w1, w1)) by reflexivity.
      rewrite (bind_done _ _ _ _ _ H1). cbv beta.
      assert (Hc : pass_is_1 (ext (self w1))
                   && Projection.stitch (Projection.mixer (projection (ext (self w1)))) = true).
      { unfold pass_is_1. rewrite Hpass1, Hp1, Hst. reflexivity. }
      rewrite Hc, Hp1. fold p. fold wd.
      assert (E1 : update (on_ext (shift_pt0 wd)) w1 = Done (tt, shifted wd w1)) by reflexivity.
      assert (E2 : update (on_ext (shift_pt0 (- (2 * wd)))) w2
                   = Done (tt, shifted (- (2 * wd)) w2)) by reflexivity.
      assert (E3 : update (on_ext (shift_pt0 wd)) w3
                   = Done (tt, World (on_ext (shift_pt0 wd) (self w3)) (calls w3)))
        by reflexivity.
      assert (F2 : iterateGeometry clip (S n) g (shifted wd w1) = Done (VTrue, w2)).
      { rewrite (nested_pass_is_plain n g _ Hs1' Hq1). exact Hrun2. }
      assert (F3 : iterateGeometry clip (S n) g (shifted (- (2 * wd)) w2) = Done (VTrue, w3)).
      { rewrite (nested_pass_is_plain n g _ Hs2' Hq2). exact Hrun3. }
      assert (Hin : bind (update (on_ext (shift_pt0 wd)))
                      (fun _ => bind (iterateGeometry clip (S n) g)
                        (fun _ => bind (update (on_ext (shift_pt0 (- (2 * wd)))))
                          (fun _ => bind (iterateGeometry clip (S n) g)
                            (fun _ => update (on_ext (shift_pt0 wd)))))) w1
                    = Done (tt, World (on_ext (shift_pt0 wd) (self w3)) (calls w3))).
      { rewrite (bind_done _ _ _ _ _ E1). cbv beta.
        rewrite (bind_done _ _ _ _ _ F2). cbv beta.
        rewrite (bind_done _ _ _ _ _ E2). cbv beta.
        rewrite (bind_done _ _ _ _ _ F3). cbv beta.
        exact E3. }
      rewrite (bind_done _ _ _ _ _ Hin). reflexivity. }
    rewrite (bind_done _ _ _ _ _ Hge). reflexivity.
  - split; [reflexivity|]. split; [exact Hprojf|]. split.
    + cbn [wfin w3 self on_ext set_ext ext shift_pt0 with_projection pass decrement with_pass].
      rewrite Hpass3, Hq2. reflexivity.
    + exists (T1 ++ T2 ++ T3). split.
      * cbn [wfin w3 calls]. rewrite Hl3. cbn [shifted calls w2]. rewrite Hl2.
        cbn [shifted calls]. rewrite Hl1, <- !app_assoc. reflexivity.
      * rewrite !geometry_starts_app, Hn1, Hn2, Hn3. reflexivity.
Qed.

Lemma clip_stitch_three_passes_witness :
  let w := Samples.clip_world Samples.mercator_map in
  let g := Polygon (Polygon_ [(0, 0); (10, 0); (10, 10); (0, 0)]%R []) in
  let p := projection (ext (self w)) in
  let x0 := fst (Projection.pt p) in
  let wd := (fst (snd (Projection.mx p)) - fst (fst (Projection.mx p)))%R in
  exists w1 w2 w3 wfin,
    first_pass g w = Done (VTrue, w1)
    /\ fst (Projection.pt (projection (ext (self w1)))) = x0
    /\ plain_pass g (shifted wd w1) = Done (VTrue, w2)
    /\ fst (Projection.pt (projection (ext (self (shifted wd w1))))) = (x0 + wd)%R
    /\ plain_pass g (shifted (- (2 * wd)) w2) = Done (VTrue, w3)
    /\ fst (Projection.pt (projection (ext (self (shifted (- (2 * wd)) w2)))))
       = (x0 + wd - 2 * wd)%R
    /\ (forall m, iterateGeometry clip (S m) g (shifted wd w1)
                  = plain_pass g (shifted wd w1))
    /\ (forall m, iterateGeometry clip (S m) g (shifted (- (2 * wd)) w2)
                  = plain_pass g (shifted (- (2 * wd)) w2))
    /\ iterateGeometry clip 2 g w = Done (VTrue, wfin)
    /\ wfin = World (on_ext decrement (on_ext (shift_pt0 wd) (self w3))) (calls w3)
    /\ projection (ext (self wfin)) = Projection.set_pt0 p (x0 + wd - 2 * wd + wd)%R
    /\ pass (ext (self wfin)) = Some 0%Z
    /\ exists T, calls wfin = calls w ++ T /\ geometry_starts T = 3%nat.
Proof.
  apply (clip_stitch_three_passes 0
           (Polygon (Polygon_ [(0, 0); (10, 0); (10, 10); (0, 0)]%R []))
           (Samples.clip_world Samples.mercator_map)); reflexivity.
Defined.

End Stitch.

(** ** The round trip through project and invert: trigonometry *)

Ltac split_comparisons :=
  repeat match goal with
         | |- context [Rlt_dec ?a ?b] => destruct (Rlt_dec a b)
         | |- context [Rle_dec ?a ?b] => destruct (Rle_dec a b)
         end.

Section Trig.

Import Geo Projection.
Local Open Scope R_scope.

Lemma tan_plus_PI (x : R) : cos x <> 0 -> tan (x + PI) = tan x.
Proof.
  intros Hc. unfold tan. rewrite neg_sin, neg_cos. field. exact Hc.
Qed.

Lemma Math_atan2_pos (y x : R) : 0 < x -> Math_atan2 y x = atan (y / x).
Proof.
  intros Hx. unfold Math_atan2. destruct (Rlt_dec 0 x); [reflexivity|contradiction].
Qed.

(** The angle of the point at angle [θ] on a circle of radius [r]. *)
Lemma Math_atan2_polar (r θ : R) :
  0 < r -> - PI < θ <= PI -> Math_atan2 (sin θ * r) (cos θ * r) = θ.
Proof.
  intros Hr [Hlo Hhi]. assert (Hpi := PI_RGT_0).
  assert (Hq : forall c, c <> 0 -> sin θ * r / (cos θ * r) = sin θ / c -> True) by auto.
  destruct (Rtotal_order θ (- (PI / 2))) as [H1|[H1|H1]].
  - (* third quadrant *)
    assert (Hc : cos θ < 0).
    { rewrite <- cos_neg. apply cos_lt_0; lra. }
    assert (Hs : sin θ < 0) by (apply sin_lt_0_var; lra).
    unfold Math_atan2.
    destruct (Rlt_dec 0 (cos θ * r)) as [H|_]; [nra|].
    destruct (Rlt_dec (cos θ * r) 0) as [_|H]; [|nra].
    destruct (Rle_dec 0 (sin θ * r)) as [H|_]; [nra|].
    replace (sin θ * r / (cos θ * r)) with (tan θ) by (unfold tan; field; lra).
    rewrite <- (tan_plus_PI θ) by lra.
    rewrite atan_tan by lra. ring.
  - subst θ. rewrite cos_neg, sin_neg, cos_PI2, sin_PI2.
    unfold Math_atan2. split_comparisons; try lra; reflexivity.
  - destruct (Rtotal_order θ (PI / 2)) as [H2|[H2|H2]].
    + assert (Hc : 0 < cos θ) by (apply cos_gt_0; lra).
      rewrite Math_atan2_pos by nra.
      replace (sin θ * r / (cos θ * r)) with (tan θ) by (unfold tan; field; lra).
      apply atan_tan. lra.
    + subst θ. rewrite cos_PI2, sin_PI2.
      unfold Math_atan2. split_comparisons; try lra; reflexivity.
    + assert (Hc : cos θ < 0) by (apply cos_lt_0; lra).
      assert (Hs : 0 <= sin θ) by (apply sin_ge_0; lra).
      unfold Math_atan2.
      destruct (Rlt_dec 0 (cos θ * r)) as [H|_]; [nra|].
      destruct (Rlt_dec (cos θ * r) 0) as [_|H]; [|nra].
      destruct (Rle_dec 0 (sin θ * r)) as [_|H]; [|nra].
      replace (sin θ * r / (cos θ * r)) with (tan θ) by (unfold tan; field; lra).
      assert (Hc' : cos (θ - PI) <> 0).
      { replace (θ - PI) with (- (PI - θ)) by ring. rewrite cos_neg.
        apply Rgt_not_eq. apply cos_gt_0; lra. }
      replace (tan θ) with (tan (θ - PI)).
      * rewrite atan_tan by lra. ring.
      * rewrite <- (tan_plus_PI (θ - PI) Hc'). f_equal. ring.
Qed.

Lemma Math_atan2_minus_PI (r : R) :
  0 < r -> Math_atan2 (sin (- PI) * r) (cos (- PI) * r) = PI.
Proof.
  intros Hr. rewrite sin_neg, cos_neg, sin_PI, cos_PI.
  unfold Math_atan2. split_comparisons; try lra.
  match goal with |- atan ?q + PI = PI => replace q with 0 by (field; lra) end.
  rewrite atan_0. ring.
Qed.

(** Cosine and sine of the angle of a point in the right half plane. *)
Lemma sqrt_sum_quot (A B : R) :
  0 < A -> sqrt (A * A + B * B) = A * sqrt (1 + (B / A)²).
Proof.
  intros HA. apply sqrt_lem_1.
  - nra.
  - apply Rmult_le_pos; [lra|apply sqrt_pos].
  - replace (A * sqrt (1 + (B / A)²) * (A * sqrt (1 + (B / A)²)))
      with (A * A * (sqrt (1 + (B / A)²) * sqrt (1 + (B / A)²))) by ring.
    rewrite sqrt_sqrt by (unfold Rsqr; nra).
    unfold Rsqr. field. lra.
Qed.

Lemma cos_atan_quot (A B : R) :
  0 < A -> cos (atan (B / A)) * sqrt (A * A + B * B) = A.
Proof.
  intros HA. rewrite cos_atan, sqrt_sum_quot by exact HA.
  assert (Hs : 0 < sqrt (1 + (B / A)²)) by (apply sqrt_lt_R0; unfold Rsqr; nra).
  field. lra.
Qed.

Lemma sin_atan_quot (A B : R) :
  0 < A -> sin (atan (B / A)) * sqrt (A * A + B * B) = B.
Proof.
  intros HA. rewrite sin_atan, sqrt_sum_quot by exact HA.
  assert (Hs : 0 < sqrt (1 + (B / A)²)) by (apply sqrt_lt_R0; unfold Rsqr; nra).
  field. lra.
Qed.

Lemma asin_guard_inside (x : R) : -1 <= x <= 1 -> asin x = Some (Ratan.asin x).
Proof.
  intros Hx. unfold asin.
  destruct (Rlt_dec 1 x) as [H|_]; [lra|].
  destruct (Rlt_dec x (-1)) as [H|_]; [lra|].
  apply Math_asin_defined. exact Hx.
Qed.

End Trig.

(** ** The round trip under the Mercator presets *)

Section CylindricalRoundTrip.

Import Geo Projection.
Local Open Scope R_scope.

Lemma degrees_radians (x : R) : degrees (radians x) = x.
Proof. unfold degrees, radians. assert (H := PI_RGT_0). field. lra. Qed.

Lemma radians_degrees (x : R) : radians (degrees x) = x.
Proof. unfold degrees, radians. assert (H := PI_RGT_0). field. lra. Qed.

(** The Mercator stretch is undone by the shrink between the poles. *)
Lemma mercatorShrink_Stretch (x : R) :
  -90 < x < 90 -> mercatorShrink (mercatorStretch x) = x.
Proof.
  intros [Hlo Hhi]. assert (Hpi := PI_RGT_0).
  unfold mercatorShrink, mercatorStretch. cbv zeta.
  rewrite radians_degrees.
  assert (Hu : 0 < PI / 4 + radians x / 2 < PI / 2) by (unfold radians; split; nra).
  rewrite exp_ln by (apply tan_gt_0; lra).
  rewrite atan_tan by lra.
  replace (2 * (PI / 4 + radians x / 2) - PI / 2) with (radians x) by field.
  apply degrees_radians.
Qed.


Lemma clamp_above (x lo hi : R) : lo <= hi -> hi <= x -> clamp x lo hi = hi.
Proof.
  intros H1 H2. unfold clamp.
  rewrite Rmin_right by exact H2. apply Rmax_right. exact H1.
Qed.




End CylindricalRoundTrip.

(** ** The round trip under the orthographic presets *)

Section OrthographicRoundTrip.

Import Geo Projection.
Local Open Scope R_scope.

Lemma unit_bound (A B C : R) : A * A + B * B + C * C = 1 -> -1 <= C <= 1.
Proof. intros H. split; nra. Qed.

Lemma cos_asin_unit (A B C : R) :
  A * A + B * B + C * C = 1 -> cos (Ratan.asin C) = sqrt (A * A + B * B).
Proof.
  intros H. rewrite cos_asin by (apply (unit_bound A B C H)).
  f_equal. unfold Rsqr. lra.
Qed.

(** A point of the unit sphere that passes the clip test of 90 degrees
    lies in the front hemisphere. *)
Lemma front_hemisphere (A B C : R) :
  A * A + B * B + C * C = 1 ->
  0 < cos (Math_atan2 B A) * cos (Ratan.asin C) -> 0 < A.
Proof.
  intros Hu Hv. rewrite (cos_asin_unit A B C Hu) in Hv.
  assert (Hs := sqrt_pos (A * A + B * B)).
  destruct (Rlt_dec 0 A) as [HA|HA]; [exact HA|exfalso].
  unfold Math_atan2 in Hv.
  destruct (Rlt_dec 0 A) as [H|_]; [contradiction|].
  assert (Hcat : 0 < cos (atan (B / A))).
  { apply cos_gt_0; pose proof (atan_bound (B / A)); lra. }
  destruct (Rlt_dec A 0) as [Hneg|Hz].
  - destruct (Rle_dec 0 B).
    + rewrite neg_cos in Hv. nra.
    + replace (atan (B / A) - PI) with (- (PI - atan (B / A))) in Hv by ring.
      rewrite cos_neg in Hv.
      replace (PI - atan (B / A)) with (- atan (B / A) + PI) in Hv by ring.
      rewrite neg_cos, cos_neg in Hv. nra.
  - assert (A = 0) by lra. subst A.
    destruct (Rlt_dec 0 B).
    + rewrite cos_PI2 in Hv. lra.
    + destruct (Rlt_dec B 0).
      * rewrite cos_neg, cos_PI2 in Hv. lra.
      * assert (B = 0) by lra. subst B.
        replace (0 * 0 + 0 * 0) with 0 in Hv by ring.
        rewrite sqrt_0 in Hv. lra.
Qed.

(** The inverse of the orthographic projection at the pixel of a point
    [(A,B,C)] of the front hemisphere. *)
Lemma invert_orthographic_front (p : t) (A B C : R) :
  prepared p -> 0 < A -> A * A + B * B + C * C = 1 ->
  let K := C * cosδγ p - B * sinδγ p in
  let X := A * cosδφ p + K * sinδφ p in
  let Y := B * cosδγ p + C * sinδγ p in
  let Z := K * cosδφ p - A * sinδφ p in
  let λ := Math_atan2 Y X - δλ p in
  let q := invert_orthographic p (B * k p + δx p, δy p - C * k p) in
  ilng q = Some (degrees (if Rlt_dec PI λ then λ - τ
                          else if Rlt_dec λ (- π) then λ + τ else λ))
  /\ ilat q = Some (degrees (Ratan.asin Z)).
Proof.
  intros (Hcφ & Hsφ & Hcγ & Hsγ & Hcr & Hδ & Hk) HA Hu K X Y Z λ q.
  assert (Uφ : cosδφ p * cosδφ p + sinδφ p * sinδφ p = 1).
  { rewrite Hcφ, Hsφ. pose proof (sin2_cos2 (δφ p)) as H. unfold Rsqr in H. lra. }
  assert (Uγ : cosδγ p * cosδγ p + sinδγ p * sinδγ p = 1).
  { rewrite Hcγ, Hsγ. pose proof (sin2_cos2 (δγ p)) as H. unfold Rsqr in H. lra. }
  unfold q, invert_orthographic. cbn [fst snd]. cbv zeta.
  replace ((B * k p + δx p - δx p) / k p) with B by (field; exact Hk).
  replace ((δy p - (δy p - C * k p)) / k p) with C by (field; exact Hk).
  set (ρ := sqrt (B * B + C * C)).
  assert (Hρ0 : 0 <= ρ) by apply sqrt_pos.
  assert (Hρ2 : ρ * ρ = B * B + C * C) by (apply sqrt_sqrt; nra).
  assert (Hρ1 : ρ <= 1) by nra.
  rewrite (asin_guard_inside ρ) by lra.
  rewrite sin_asin by lra.
  rewrite cos_asin by lra.
  replace (1 - ρ²) with (A * A) by (unfold Rsqr; lra).
  rewrite sqrt_square by lra.
  assert (Hλ3 : Math_atan2 (B * ρ) (ρ * A) = atan (B / A)).
  { destruct (Req_dec_T ρ 0) as [Hz|Hnz].
    - assert (HB : B = 0) by nra. rewrite Hz, HB.
      replace (0 * 0) with 0 by ring. replace (0 * A) with 0 by ring.
      replace (0 / A) with 0 by (field; lra). rewrite atan_0.
      unfold Math_atan2. split_comparisons; try lra; reflexivity.
    - rewrite Math_atan2_pos by nra. f_equal. field. split; lra. }
  rewrite Hλ3.
  assert (Harg : (if Req_dec_T ρ 0 then ρ else C * ρ / ρ) = C).
  { destruct (Req_dec_T ρ 0) as [Hz|Hnz]; [nra|field; exact Hnz]. }
  rewrite Harg.
  rewrite (Math_asin_defined C) by (apply (unit_bound A B C Hu)).
  rewrite (cos_asin_unit A B C Hu).
  rewrite (cos_atan_quot A B HA), (sin_atan_quot A B HA).
  rewrite sin_asin by (apply (unit_bound A B C Hu)).
  fold K. fold X. fold Y. fold Z.
  assert (HZ : -1 <= Z <= 1).
  { apply (unit_bound X Y Z).
    assert (E1 : X * X + Z * Z
                 = (A * A + K * K) * (cosδφ p * cosδφ p + sinδφ p * sinδφ p))
      by (unfold X, Z; ring).
    assert (E2 : Y * Y + K * K
                 = (B * B + C * C) * (cosδγ p * cosδγ p + sinδγ p * sinδγ p))
      by (unfold Y, K; ring).
    rewrite Uφ in E1. rewrite Uγ in E2. lra. }
  rewrite (asin_guard_inside Z HZ). cbn [ilng ilat].
  fold λ. split; reflexivity.
Qed.

Lemma clipAngle_90 : clipAngle 90 = 0.
Proof.
  unfold clipAngle. replace (radians 90) with (PI / 2) by (unfold radians; field).
  apply cos_PI2.
Qed.

(** The orthographic projection of a visible coordinate: the rotated
    point [(A,B,C)] lies in the front hemisphere and is drawn at
    [(B k + δx, δy - C k)]. *)
Lemma project_orthographic_visible (p : t) (c : coord) :
  prepared p ->
  let L := radians (fst c) + δλ p in
  let λ1 := if Rlt_dec PI L then L - τ else if Rlt_dec L (- PI) then L + τ else L in
  let X := cos λ1 * cos (radians (snd c)) in
  let Y := sin λ1 * cos (radians (snd c)) in
  let Z := sin (radians (snd c)) in
  let K := Z * cosδφ p + X * sinδφ p in
  let A := X * cosδφ p - Z * sinδφ p in
  let B := Y * cosδγ p - K * sinδγ p in
  let C := K * cosδγ p + Y * sinδγ p in
  fst (project_orthographic p c) = true ->
  0 < A /\ A * A + B * B + C * C = 1
  /\ snd (project_orthographic p c) = Some (B * k p + δx p, δy p - C * k p).
Proof.
  intros (Hcφ & Hsφ & Hcγ & Hsγ & Hcr & Hδ & Hk) L λ1 X Y Z K A B C.
  assert (Uφ : cosδφ p * cosδφ p + sinδφ p * sinδφ p = 1).
  { rewrite Hcφ, Hsφ. pose proof (sin2_cos2 (δφ p)) as H. unfold Rsqr in H. lra. }
  assert (Uγ : cosδγ p * cosδγ p + sinδγ p * sinδγ p = 1).
  { rewrite Hcγ, Hsγ. pose proof (sin2_cos2 (δγ p)) as H. unfold Rsqr in H. lra. }
  assert (U0 : X * X + Y * Y + Z * Z = 1).
  { pose proof (sin2_cos2 λ1) as H1. pose proof (sin2_cos2 (radians (snd c))) as H2.
    unfold Rsqr in H1, H2.
    replace (X * X + Y * Y + Z * Z)
      with ((sin λ1 * sin λ1 + cos λ1 * cos λ1)
            * (cos (radians (snd c)) * cos (radians (snd c)))
            + sin (radians (snd c)) * sin (radians (snd c)))
      by (unfold X, Y, Z; ring).
    rewrite H1. lra. }
  assert (Hu : A * A + B * B + C * C = 1).
  { assert (E1 : A * A + K * K
                 = (X * X + Z * Z) * (cosδφ p * cosδφ p + sinδφ p * sinδφ p))
      by (unfold A, K; ring).
    assert (E2 : B * B + C * C
                 = (Y * Y + K * K) * (cosδγ p * cosδγ p + sinδγ p * sinδγ p))
      by (unfold B, C; ring).
    rewrite Uφ in E1. rewrite Uγ in E2. lra. }
  unfold project_orthographic. cbv zeta.
  fold L. fold λ1. fold X. fold Y. fold Z. fold K. fold A. fold B. fold C.
  rewrite (asin_guard_inside C (unit_bound A B C Hu)).
  unfold isPointVisible, Rltb. rewrite Hcr, clipAngle_90.
  destruct (Rlt_dec 0 (cos (Math_atan2 B A) * cos (Ratan.asin C))) as [Hv|Hv];
    cbn [fst snd]; [intros _|discriminate].
  pose proof (front_hemisphere A B C Hu Hv) as HA.
  split; [exact HA|]. split; [exact Hu|].
  rewrite (Math_atan2_pos B A HA).
  rewrite sin_asin by (apply (unit_bound A B C Hu)).
  replace (1 * cos (Ratan.asin C) * sin (atan (B / A)))
    with (sin (atan (B / A)) * sqrt (A * A + B * B))
    by (rewrite (cos_asin_unit A B C Hu); ring).
  rewrite (sin_atan_quot A B HA).
  f_equal. f_equal. ring.
Qed.

(** The orthographic round trip, away from the poles and the
    antimeridian. *)
Lemma invert_project_orthographic (p : t) (c : coord) :
  orthographic (mixer p) = true -> cylindrical (mixer p) = false ->
  prepared p ->
  -180 < fst c < 180 -> -90 < snd c < 90 ->
  pvisible (project p c) = true ->
  round_trip p c.
Proof.
  intros Ho Hc Hprep Hlng Hlat Hvis.
  assert (Hprep' := Hprep).
  destruct Hprep' as (Hcφ & Hsφ & Hcγ & Hsγ & Hcr & Hδ & Hk).
  assert (Hpi := PI_RGT_0).
  assert (Uφ : cosδφ p * cosδφ p + sinδφ p * sinδφ p = 1).
  { rewrite Hcφ, Hsφ. pose proof (sin2_cos2 (δφ p)) as H. unfold Rsqr in H. lra. }
  assert (Uγ : cosδγ p * cosδγ p + sinδγ p * sinδγ p = 1).
  { rewrite Hcγ, Hsγ. pose proof (sin2_cos2 (δγ p)) as H. unfold Rsqr in H. lra. }
  set (L := radians (fst c) + δλ p).
  set (λ1 := if Rlt_dec PI L then L - τ else if Rlt_dec L (- PI) then L + τ else L).
  set (φ := radians (snd c)).
  set (X := cos λ1 * cos φ).
  set (Y := sin λ1 * cos φ).
  set (Z := sin φ).
  set (K := Z * cosδφ p + X * sinδφ p).
  set (A := X * cosδφ p - Z * sinδφ p).
  set (B := Y * cosδγ p - K * sinδγ p).
  set (C := K * cosδγ p + Y * sinδγ p).
  assert (Hfst : fst (project_orthographic p c) = true).
  { unfold project in Hvis. rewrite Ho, Hc in Hvis. exact Hvis. }
  assert (Hfw : 0 < A /\ A * A + B * B + C * C = 1
                /\ snd (project_orthographic p c)
                   = Some (B * k p + δx p, δy p - C * k p))
    by exact (project_orthographic_visible p c Hprep Hfst).
  destruct Hfw as (HA & Hu & Hxy).
  assert (Hproj : project p c
                  = Pixel (Some (B * k p + δx p)) (Some (δy p - C * k p)) true).
  { unfold project. rewrite Ho, Hc, Hxy, Hfst. reflexivity. }
  unfold round_trip. rewrite Hproj.
  unfold invert_pixel. cbn [px py]. unfold invert. rewrite Ho.
  destruct (invert_orthographic_front p A B C Hprep HA Hu) as [Hlng' Hlat'].
  cbv zeta in Hlng', Hlat'.
  assert (EK : C * cosδγ p - B * sinδγ p = K).
  { replace (C * cosδγ p - B * sinδγ p)
      with (K * (cosδγ p * cosδγ p + sinδγ p * sinδγ p)) by (unfold C, B; ring).
    rewrite Uγ. ring. }
  assert (EY : B * cosδγ p + C * sinδγ p = Y).
  { replace (B * cosδγ p + C * sinδγ p)
      with (Y * (cosδγ p * cosδγ p + sinδγ p * sinδγ p)) by (unfold C, B; ring).
    rewrite Uγ. ring. }
  rewrite EK, EY in Hlng'. rewrite EK in Hlat'.
  assert (EX : A * cosδφ p + K * sinδφ p = X).
  { replace (A * cosδφ p + K * sinδφ p)
      with (X * (cosδφ p * cosδφ p + sinδφ p * sinδφ p)) by (unfold A, K; ring).
    rewrite Uφ. ring. }
  assert (EZ : K * cosδφ p - A * sinδφ p = Z).
  { replace (K * cosδφ p - A * sinδφ p)
      with (Z * (cosδφ p * cosδφ p + sinδφ p * sinδφ p)) by (unfold A, K; ring).
    rewrite Uφ. ring. }
  rewrite EX in Hlng'. rewrite EZ in Hlat'.
  rewrite Hlng', Hlat'.
  assert (Hφ : - (PI / 2) < φ < PI / 2) by (unfold φ, radians; split; nra).
  assert (Hcosφ : 0 < cos φ) by (apply cos_gt_0; lra).
  assert (HL : - PI < radians (fst c) < PI) by (unfold radians; split; nra).
  unfold τ, π in *.
  split.
  - f_equal. transitivity (degrees (radians (fst c))); [|apply degrees_radians].
    f_equal. unfold X, Y.
    destruct (Req_dec_T λ1 (- PI)) as [Hm|Hm].
    + rewrite Hm, (Math_atan2_minus_PI (cos φ) Hcosφ).
      assert (HL0 : L = - PI).
      { unfold λ1 in Hm. unfold L in *.
        destruct (Rlt_dec PI (radians (fst c) + δλ p));
          [lra|destruct (Rlt_dec (radians (fst c) + δλ p) (- PI)); lra]. }
      unfold L in HL0. split_comparisons; lra.
    + assert (Hr : - PI < λ1 <= PI).
      { unfold λ1 in *. unfold L in *.
        destruct (Rlt_dec PI (radians (fst c) + δλ p));
          [lra|destruct (Rlt_dec (radians (fst c) + δλ p) (- PI)); lra]. }
      rewrite (Math_atan2_polar (cos φ) λ1 Hcosφ Hr).
      unfold λ1, L. split_comparisons; lra.
  - f_equal. unfold Z. rewrite asin_sin by lra. apply degrees_radians.
Qed.

End OrthographicRoundTrip.

(** ** The round trip: the claim *)

Section RoundTrip.

Import Geo Projection.
Local Open Scope R_scope.

(** Under the soupcan presets the sine applied to the longitude is not
    undone: 90 degrees east comes back as 180/pi degrees. *)
Lemma soupcan_loses_longitude :
  pvisible (project Samples.soupcan_map (90, 0)) = true
  /\ ilng (invert_pixel Samples.soupcan_map (project Samples.soupcan_map (90, 0)))
     = Some (degrees 1)
  /\ degrees 1 < 90.
Proof.
  assert (Hpi := PI2_3_2).
  split; [|split].
  - apply project_visible_without_orthographic. reflexivity.
  - unfold project.
    cbn [Samples.soupcan_map Samples.projection_with mixer cylindrical orthographic].
    unfold project_cylindrical.
    cbn [Samples.soupcan_map Samples.projection_with mixer mercator soupcan
           co pt pxlPerDgr fst snd]. cbv zeta.
    unfold invert_pixel. cbn [px py]. unfold invert.
    cbn [Samples.soupcan_map Samples.projection_with mixer cylindrical orthographic].
    unfold invert_cylindrical.
    cbn [Samples.soupcan_map Samples.projection_with co pt pxlPerDgr fst snd ilng].
    cbv zeta.
    replace (90 - 0) with 90 by ring. rewrite radians_90, sin_PI2.
    replace ((degrees 1 * 1 + 0 - 0) / 1 + 0) with (degrees 1) by field.
    assert (Hd : 0 < degrees 1 < 90).
    { unfold degrees. split.
      - apply Rmult_lt_0_compat; [lra|]. apply Rdiv_lt_0_compat; lra.
      - rewrite Rmult_1_l. apply Rmult_lt_reg_r with PI; [lra|].
        unfold Rdiv. rewrite Rmult_assoc, Rinv_l by lra. lra. }
    destruct (Rlt_dec 180 (degrees 1)) as [H|_]; [lra|].
    destruct (Rlt_dec (degrees 1) (-180)) as [H|_]; [lra|].
    reflexivity.
  - unfold degrees. rewrite Rmult_1_l. apply Rmult_lt_reg_r with PI; [lra|].
    unfold Rdiv. rewrite Rmult_assoc, Rinv_l by lra. lra.
Qed.

Lemma globe_prepared : prepared Samples.globe.
Proof.
  assert (Hpi := PI_RGT_0).
  unfold prepared.
  cbn [Samples.globe Samples.projection_with cosδφ sinδφ cosδγ sinδγ δφ δγ δλ cr k].
  rewrite cos_0, sin_0. unfold τ.
  repeat split; try reflexivity; lra.
Qed.

(** The origin goes through the globe and back. *)
Lemma globe_round_trip_origin : round_trip Samples.globe (0, 0).
Proof.
  apply invert_project_orthographic; try reflexivity.
  - exact globe_prepared.
  - cbn [fst]. lra.
  - cbn [snd]. lra.
  - rewrite globe_origin. reflexivity.
Qed.



End RoundTrip.

(** ** Mercator latitudes and the reciprocal power *)

Section GeolibAngles.

Import Geo Geolib.
Local Open Scope R_scope.

Lemma atan_exp_bounds (x : R) : 0 < atan (exp x) < PI / 2.
Proof.
  split.
  - rewrite <- atan_0. apply atan_increasing. apply exp_pos.
  - pose proof (atan_bound (exp x)) as [_ H]. exact H.
Qed.

Lemma radians_mercatorShrink (y : R) :
  radians (mercatorShrink y) = 2 * atan (exp (radians y)) - PI / 2.
Proof. unfold mercatorShrink. cbv zeta. apply radians_degrees. Qed.

(** X1: on the Mercator map, that is for [y] between -180 and 180, the
    inverse Mercator latitude [mercatorShrink y] lies strictly between -90
    and 90 degrees, and [mercatorStretch] undoes it.  (Far outside the map,
    from about [|y| = 2139], the arc tangent of binary64 is pi/2 itself
    and [mercatorShrink] returns 90 or -90.) *)
Theorem mercatorStretch_Shrink :
  forall y : R,
    -180 <= y <= 180 ->
    -90 < mercatorShrink y < 90 /\ mercatorStretch (mercatorShrink y) = y.
Proof.
  intros y _. assert (Hpi := PI_RGT_0).
  pose proof (atan_exp_bounds (radians y)) as [Hlo Hhi].
  split.
  - unfold mercatorShrink, degrees. cbv zeta.
    set (a := atan (exp (radians y))) in *.
    assert (Hk : 0 < 180 / PI) by (apply Rdiv_lt_0_compat; lra).
    assert (E : 90 = PI / 2 * (180 / PI)) by (field; lra).
    split.
    + replace (-90) with (- (PI / 2) * (180 / PI)) by (field; lra).
      apply Rmult_lt_compat_r; lra.
    + rewrite E. apply Rmult_lt_compat_r; lra.
  - unfold mercatorStretch. cbv zeta. rewrite radians_mercatorShrink.
    replace (PI / 4 + (2 * atan (exp (radians y)) - PI / 2) / 2)
      with (atan (exp (radians y))) by field.
    rewrite tan_atan, ln_exp. apply degrees_radians.
Qed.

Lemma mercatorStretch_Shrink_witness :
  -90 < mercatorShrink 100 < 90 /\ mercatorStretch (mercatorShrink 100) = 100.
Proof. apply (mercatorStretch_Shrink 100). lra. Defined.

(** X2: strictly between the poles, [mercatorShrink] undoes
    [mercatorStretch]. *)
Theorem mercatorShrink_Stretch_between_poles :
  forall x : R, -90 < x < 90 -> mercatorShrink (mercatorStretch x) = x.
Proof. intros x H. apply mercatorShrink_Stretch. exact H. Qed.

Lemma mercatorShrink_Stretch_between_poles_witness :
  mercatorShrink (mercatorStretch 45) = 45.
Proof. apply (mercatorShrink_Stretch_between_poles 45). lra. Defined.

(** X3: for a positive base [x] other than 1 and a positive [y], [powR x y]
    is a number [n] with [x ** n = y]. *)
Theorem powR_is_the_exponent :
  forall x y : R,
    0 < x -> x <> 1 -> 0 < y ->
    exists n, powR x y = Some n /\ Rpower x n = y.
Proof.
  intros x y Hx H1 Hy. exists (ln y / ln x). split.
  - unfold powR.
    destruct (Rlt_dec 0 y) as [_|H]; [|contradiction].
    destruct (Rlt_dec 0 x) as [_|H]; [|contradiction].
    destruct (Req_dec_T x 1) as [H|_]; [contradiction|reflexivity].
  - unfold Rpower.
    assert (Hl : ln x <> 0).
    { intros H0. apply H1. apply ln_inv; [exact Hx|lra|]. rewrite ln_1. exact H0. }
    replace (ln y / ln x * ln x) with (ln y) by (field; exact Hl).
    apply exp_ln. exact Hy.
Qed.

Lemma powR_is_the_exponent_witness :
  exists n, powR 2 8 = Some n /\ Rpower 2 n = 8.
Proof. apply (powR_is_the_exponent 2 8); lra. Defined.

End GeolibAngles.

(** ** The central angle *)

Section CentralAngle.

Import Geo Geolib.
Local Open Scope R_scope.

Lemma sin_half_sqr (x : R) : sin (x / 2) * sin (x / 2) = (1 - cos x) / 2.
Proof.
  pose proof (cos_2a_sin (x / 2)) as H.
  replace (2 * (x / 2)) with x in H by field. lra.
Qed.

Lemma cos_half_sqr (x : R) : cos (x / 2) * cos (x / 2) = (1 + cos x) / 2.
Proof.
  pose proof (cos_2a_cos (x / 2)) as H.
  replace (2 * (x / 2)) with x in H by field. lra.
Qed.

Lemma unit_circle (x : R) : sin x * sin x + cos x * cos x = 1.
Proof. pose proof (sin2_cos2 x) as H. unfold Rsqr in H. exact H. Qed.

Lemma cos_central_bound (a b : coord) : -1 <= cos_central a b <= 1.
Proof.
  unfold cos_central.
  pose proof (unit_circle (radians (snd a))) as Ha.
  pose proof (unit_circle (radians (snd b))) as Hb.
  pose proof (COS_bound (radians (fst b) - radians (fst a))) as [Hl Hh].
  set (sa := sin (radians (snd a))) in *. set (ca := cos (radians (snd a))) in *.
  set (sb := sin (radians (snd b))) in *. set (cb := cos (radians (snd b))) in *.
  set (cd := cos (radians (fst b) - radians (fst a))) in *.
  pose proof (Rle_0_sqr (sa - sb)) as H1. unfold Rsqr in H1.
  pose proof (Rle_0_sqr (sa + sb)) as H2. unfold Rsqr in H2.
  pose proof (Rle_0_sqr (ca - cb)) as H3. unfold Rsqr in H3.
  pose proof (Rle_0_sqr (ca + cb)) as H4. unfold Rsqr in H4.
  destruct (Rle_dec 0 (ca * cb)) as [Hp|Hn].
  - assert (P1 : 0 <= ca * cb * (1 - cd)) by (apply Rmult_le_pos; lra).
    assert (P2 : 0 <= ca * cb * (1 + cd)) by (apply Rmult_le_pos; lra).
    split; lra.
  - assert (P1 : 0 <= - (ca * cb) * (1 - cd)) by (apply Rmult_le_pos; lra).
    assert (P2 : 0 <= - (ca * cb) * (1 + cd)) by (apply Rmult_le_pos; lra).
    split; lra.
Qed.

(** The haversine of [calcθ] is half of one minus the cosine of the
    central angle. *)
Lemma haversine_central (a b : coord) :
  sin ((radians (snd b) - radians (snd a)) / 2) * sin ((radians (snd b) - radians (snd a)) / 2)
  + sin ((radians (fst b) - radians (fst a)) / 2) * sin ((radians (fst b) - radians (fst a)) / 2)
    * cos (radians (snd a)) * cos (radians (snd b))
  = (1 - cos_central a b) / 2.
Proof.
  rewrite !Rmult_assoc. rewrite <- !Rmult_assoc.
  rewrite (sin_half_sqr (radians (snd b) - radians (snd a))).
  rewrite (sin_half_sqr (radians (fst b) - radians (fst a))).
  rewrite cos_minus. unfold cos_central. field.
Qed.

Lemma half_angle_sqrt (x : R) :
  -1 <= x <= 1 ->
  sqrt ((1 - x) / 2) = sin (acos x / 2) /\ sqrt (1 - (1 - x) / 2) = cos (acos x / 2).
Proof.
  intros Hx. pose proof (acos_bound x) as [Hlo Hhi]. assert (Hpi := PI_RGT_0).
  split.
  - apply sqrt_lem_1.
    + lra.
    + apply sin_ge_0; lra.
    + rewrite sin_half_sqr, cos_acos by exact Hx. reflexivity.
  - apply sqrt_lem_1.
    + lra.
    + apply cos_ge_0; lra.
    + rewrite cos_half_sqr, cos_acos by exact Hx. field.
Qed.

Lemma calc_theta_acos (a b : coord) : calcθ a b = acos (cos_central a b).
Proof.
  unfold calcθ. cbv zeta. rewrite haversine_central.
  pose proof (cos_central_bound a b) as Hb.
  destruct (half_angle_sqrt _ Hb) as [Es Ec]. rewrite Es, Ec.
  pose proof (acos_bound (cos_central a b)) as [Hlo Hhi]. assert (Hpi := PI_RGT_0).
  pose proof (Math_atan2_polar 1 (acos (cos_central a b) / 2)) as Hp.
  rewrite !Rmult_1_r in Hp. rewrite Hp by lra. field.
Qed.

(** X4: for two coordinates that keep clear of opposite points of the
    sphere, the haversine angle [calcθ a b] is the arc cosine of the
    spherical law of cosines; it lies between 0 and pi, so that
    [distanceKm] lies between 0 and half the circumference pi * 6371. *)
Theorem calc_theta_is_the_central_angle :
  forall a b : coord,
    clear_of_antipodes a b ->
    calcθ a b = acos (cos_central a b)
    /\ 0 <= calcθ a b <= PI
    /\ 0 <= distanceKm a b <= PI * radiusKm.
Proof.
  intros a b _.
  pose proof (calc_theta_acos a b) as E.
  pose proof (acos_bound (cos_central a b)) as [Hlo Hhi].
  split; [exact E|]. split; [rewrite E; split; assumption|].
  unfold distanceKm, radiusKm. rewrite E. split; nra.
Qed.

Lemma calc_theta_is_the_central_angle_witness :
  calcθ (0, 0) (90, 0) = acos (cos_central (0, 0) (90, 0))
  /\ 0 <= calcθ (0, 0) (90, 0) <= PI
  /\ 0 <= distanceKm (0, 0) (90, 0) <= PI * radiusKm.
Proof.
  apply (calc_theta_is_the_central_angle (0, 0) (90, 0)).
  exact quarter_clear_of_antipodes.
Defined.

Lemma distanced3_acos (a b : coord) : distanced3 a b = acos (cos_central a b).
Proof.
  unfold distanced3. cbv zeta.
  replace (radians (fst b - fst a)) with (radians (fst b) - radians (fst a))
    by (unfold radians; ring).
  pose proof (cos_central_bound a b) as Hb.
  pose proof (unit_circle (radians (snd a))) as Ha.
  pose proof (unit_circle (radians (snd b))) as Hbb.
  pose proof (unit_circle (radians (fst b) - radians (fst a))) as Hd.
  fold (cos_central a b).
  assert (Es : sqrt
     (cos (radians (snd b)) * sin (radians (fst b) - radians (fst a)) *
      (cos (radians (snd b)) * sin (radians (fst b) - radians (fst a))) +
      (cos (radians (snd a)) * sin (radians (snd b)) -
       sin (radians (snd a)) * cos (radians (snd b)) *
       cos (radians (fst b) - radians (fst a))) *
      (cos (radians (snd a)) * sin (radians (snd b)) -
       sin (radians (snd a)) * cos (radians (snd b)) *
       cos (radians (fst b) - radians (fst a)))) = sin (acos (cos_central a b))).
  { rewrite sin_acos by exact Hb. f_equal. unfold Rsqr, cos_central.
    set (sa := sin (radians (snd a))) in *. set (ca := cos (radians (snd a))) in *.
    set (sb := sin (radians (snd b))) in *. set (cb := cos (radians (snd b))) in *.
    set (cd := cos (radians (fst b) - radians (fst a))) in *.
    set (sd := sin (radians (fst b) - radians (fst a))) in *.
    assert (E1 : sa * sa = 1 - ca * ca) by lra.
    assert (E2 : sb * sb = 1 - cb * cb) by lra.
    assert (E3 : sd * sd = 1 - cd * cd) by lra.
    transitivity (cb * cb * (sd * sd) + ca * ca * (sb * sb) - 2 * ca * sb * sa * cb * cd
                  + (sa * sa) * cb * cb * cd * cd); [ring|].
    rewrite E1, E2, E3.
    transitivity (1 - ((sa * sa) * (sb * sb) + 2 * sa * sb * ca * cb * cd
                       + ca * ca * cb * cb * cd * cd)); [|ring].
    rewrite E1, E2. ring. }
  rewrite Es.
  replace (cos_central a b) with (cos (acos (cos_central a b))) at 2
    by (apply cos_acos; exact Hb).
  pose proof (acos_bound (cos_central a b)) as [Hlo Hhi]. assert (Hpi := PI_RGT_0).
  pose proof (Math_atan2_polar 1 (acos (cos_central a b))) as Hp.
  rewrite !Rmult_1_r in Hp. apply Hp; lra.
Qed.

(** X5: for two coordinates that keep clear of opposite points of the
    sphere, the d3 formula [distanced3] and the haversine formula [calcθ]
    give the same angle. *)
Theorem distanced3_agrees_with_haversine :
  forall a b : coord,
    clear_of_antipodes a b -> distanced3 a b = calcθ a b.
Proof. intros a b _. rewrite distanced3_acos, calc_theta_acos. reflexivity. Qed.

Lemma distanced3_agrees_with_haversine_witness :
  distanced3 (0, 0) (90, 0) = calcθ (0, 0) (90, 0).
Proof.
  apply (distanced3_agrees_with_haversine (0, 0) (90, 0)).
  exact quarter_clear_of_antipodes.
Defined.

End CentralAngle.

(** ** Interpolation along a great circle *)

Section Interpolate.

Import Geo Geolib.
Local Open Scope R_scope.

Lemma haversin_sum_central (a b : coord) :
  haversin (radians (snd b) - radians (snd a))
  + cos (radians (snd a)) * cos (radians (snd b))
    * haversin (radians (fst b) - radians (fst a))
  = (1 - cos_central a b) / 2.
Proof.
  unfold haversin. cbv zeta.
  rewrite (sin_half_sqr (radians (snd b) - radians (snd a))).
  rewrite (sin_half_sqr (radians (fst b) - radians (fst a))).
  rewrite cos_minus. unfold cos_central. field.
Qed.

(** The angle [d] of [geointerpolate] is the central angle. *)
Lemma geointerpolate_angle (a b : coord) :
  Math_asin (sqrt (haversin (radians (snd b) - radians (snd a))
                   + cos (radians (snd a)) * cos (radians (snd b))
                     * haversin (radians (fst b) - radians (fst a))))
  = Some (calcθ a b / 2).
Proof.
  rewrite haversin_sum_central, calc_theta_acos.
  pose proof (cos_central_bound a b) as Hb.
  destruct (half_angle_sqrt _ Hb) as [Es _]. rewrite Es.
  pose proof (acos_bound (cos_central a b)) as [Hlo Hhi]. assert (Hpi := PI_RGT_0).
  rewrite Math_asin_defined by (apply SIN_bound).
  rewrite asin_sin by lra. reflexivity.
Qed.

Lemma sin_central_nonzero (a b : coord) :
  0 < calcθ a b < PI -> sin (2 * (calcθ a b / 2)) <> 0.
Proof.
  intros [Hlo Hhi]. replace (2 * (calcθ a b / 2)) with (calcθ a b) by field.
  apply Rgt_not_eq. apply sin_gt_0; assumption.
Qed.

(** The coordinate of the unit vector of [c] is [c]. *)
Lemma coordinate_of_unit_vector (c : coord) :
  -180 < fst c <= 180 -> -90 < snd c < 90 ->
  degrees (Math_atan2 (cos (radians (snd c)) * sin (radians (fst c)))
                      (cos (radians (snd c)) * cos (radians (fst c)))) = fst c
  /\ degrees (Math_atan2 (sin (radians (snd c)))
               (sqrt (cos (radians (snd c)) * cos (radians (fst c))
                      * (cos (radians (snd c)) * cos (radians (fst c)))
                      + cos (radians (snd c)) * sin (radians (fst c))
                        * (cos (radians (snd c)) * sin (radians (fst c)))))) = snd c.
Proof.
  intros Hl Hp. assert (Hpi := PI_RGT_0).
  pose proof (cos_radians_pos _ (conj (proj1 Hp) (proj2 Hp))) as Hc.
  split.
  - rewrite (Rmult_comm (cos (radians (snd c))) (sin (radians (fst c)))).
    rewrite (Rmult_comm (cos (radians (snd c))) (cos (radians (fst c)))).
    rewrite Math_atan2_polar.
    + apply degrees_radians.
    + exact Hc.
    + unfold radians. split; nra.
  - pose proof (unit_circle (radians (fst c))) as Hu.
    replace (cos (radians (snd c)) * cos (radians (fst c))
             * (cos (radians (snd c)) * cos (radians (fst c)))
             + cos (radians (snd c)) * sin (radians (fst c))
               * (cos (radians (snd c)) * sin (radians (fst c))))
      with (cos (radians (snd c)) * cos (radians (snd c))) by nra.
    rewrite sqrt_square by lra.
    pose proof (Math_atan2_polar 1 (radians (snd c))) as H.
    rewrite !Rmult_1_r in H. rewrite H.
    + apply degrees_radians.
    + lra.
    + unfold radians. split; nra.
Qed.

(** X6: for two coordinates away from the poles, with longitudes in (-180,
    180], at a central angle strictly between 0 and pi, [geointerpolate]
    gives the source at [t = 0] and the target at [t = 1]. *)
Theorem geointerpolate_endpoints :
  forall source target : coord,
    -180 < fst source <= 180 -> -90 < snd source < 90 ->
    -180 < fst target <= 180 -> -90 < snd target < 90 ->
    0 < calcθ source target < PI ->
    geointerpolate source target 0 = (Some (fst source), Some (snd source))
    /\ geointerpolate source target 1 = (Some (fst target), Some (snd target)).
Proof.
  intros s t Hsl Hsp Htl Htp Hd.
  pose proof (sin_central_nonzero s t Hd) as Hsin.
  pose proof (coordinate_of_unit_vector s Hsl Hsp) as [Es1 Es2].
  pose proof (coordinate_of_unit_vector t Htl Htp) as [Et1 Et2].
  split.
  - unfold geointerpolate. cbv zeta. rewrite geointerpolate_angle.
    destruct (Req_dec_T (sin (2 * (calcθ s t / 2))) 0) as [H|_]; [contradiction|].
    set (d := 2 * (calcθ s t / 2)) in *.
    replace (0 * d) with 0 by ring. rewrite Rminus_0_r, sin_0.
    replace (sin d * (1 / sin d)) with 1 by (field; exact Hsin).
    rewrite !Rmult_0_l, !Rplus_0_r, !Rmult_1_l.
    rewrite Es1, Es2. reflexivity.
  - unfold geointerpolate. cbv zeta. rewrite geointerpolate_angle.
    destruct (Req_dec_T (sin (2 * (calcθ s t / 2))) 0) as [H|_]; [contradiction|].
    set (d := 2 * (calcθ s t / 2)) in *.
    replace (1 * d) with d by ring. replace (d - d) with 0 by ring. rewrite sin_0.
    replace (sin d * (1 / sin d)) with 1 by (field; exact Hsin).
    rewrite !Rmult_0_l, !Rplus_0_l, !Rmult_1_l.
    rewrite Et1, Et2. reflexivity.
Qed.

Lemma calc_theta_quarter_turn : calcθ (0, 0) (90, 0) = PI / 2.
Proof.
  rewrite calc_theta_acos. unfold cos_central. cbn [fst snd].
  rewrite radians_0, radians_90, Rminus_0_r, sin_0, cos_0, cos_PI2.
  replace (0 * 0 + 1 * 1 * 0) with 0 by ring. apply acos_0.
Qed.

Lemma geointerpolate_endpoints_witness :
  geointerpolate (0, 0) (90, 0) 0 = (Some 0, Some 0)
  /\ geointerpolate (0, 0) (90, 0) 1 = (Some 90, Some 0).
Proof.
  apply (geointerpolate_endpoints (0, 0) (90, 0)); cbn [fst snd]; try lra.
  rewrite calc_theta_quarter_turn. assert (H := PI_RGT_0). lra.
Defined.

(** X7: interpolating between a coordinate and itself gives NaN for both
    entries, whatever [t] is: the factor [1 / sin d] is a division by zero.
    *)
Theorem geointerpolate_same_point_is_NaN :
  forall (a : coord) (t : R), geointerpolate a a t = (None, None).
Proof.
  intros a t. unfold geointerpolate. cbv zeta. rewrite geointerpolate_angle.
  rewrite calc_theta_same.
  replace (2 * (0 / 2)) with 0 by field. rewrite sin_0.
  destruct (Req_dec_T 0 0) as [_|H]; [reflexivity|contradiction].
Qed.

End Interpolate.

(** ** The angle between two pixels *)

Section Angles.

Import Geo Geolib.
Local Open Scope R_scope.

Lemma Math_atan2_bound (y x : R) : - PI < Math_atan2 y x <= PI.
Proof.
  assert (Hpi := PI_RGT_0). unfold Math_atan2.
  pose proof (atan_bound (y / x)) as [Hlo Hhi].
  destruct (Rlt_dec 0 x) as [Hx|Hx]; [lra|].
  destruct (Rlt_dec x 0) as [Hn|Hn].
  - destruct (Rle_dec 0 y) as [Hy|Hy].
    + assert (Hq : y / x <= 0).
      { unfold Rdiv. replace (y * / x) with (- (y * / - x)).
        - assert (0 <= y * / - x); [|lra].
          apply Rmult_le_pos; [exact Hy|]. left. apply Rinv_0_lt_compat. lra.
        - field. lra. }
      assert (Ha : atan (y / x) <= 0).
      { destruct Hq as [Hq|Hq].
        - left. rewrite <- atan_0. apply atan_increasing. exact Hq.
        - rewrite Hq, atan_0. lra. }
      lra.
    + assert (Hq : 0 < y / x).
      { unfold Rdiv. replace (y * / x) with ((- y) * / - x) by (field; lra).
        apply Rmult_lt_0_compat; [lra|]. apply Rinv_0_lt_compat. lra. }
      assert (Ha : 0 < atan (y / x)).
      { rewrite <- atan_0. apply atan_increasing. exact Hq. }
      lra.
  - destruct (Rlt_dec 0 y); [lra|]. destruct (Rlt_dec y 0); lra.
Qed.

(** X8: [calcAngle] returns an angle between 0 and 360 degrees, also for
    two equal points.  (The upper bound is reached in binary64 only, where
    360 plus a tiny negative angle rounds to 360.) *)
Theorem calcAngle_range :
  forall ptStart ptEnd : R * R, 0 <= calcAngle ptStart ptEnd <= 360.
Proof.
  intros s e. unfold calcAngle. cbv zeta. assert (Hpi := PI_RGT_0).
  pose proof (Math_atan2_bound (snd e - snd s) (fst e - fst s)) as [Hlo Hhi].
  set (θ := Math_atan2 (snd e - snd s) (fst e - fst s)) in *.
  assert (Hk : 0 < 180 / PI) by (apply Rdiv_lt_0_compat; lra).
  assert (E : 180 = PI * (180 / PI)) by (field; lra).
  assert (H1 : - 180 < θ * (180 / PI)).
  { replace (-180) with (- PI * (180 / PI)) by (field; lra).
    apply Rmult_lt_compat_r; lra. }
  assert (H2 : θ * (180 / PI) <= 180).
  { rewrite E at 2. apply Rmult_le_compat_r; lra. }
  destruct (Rlt_dec (θ * (180 / PI)) 0); lra.
Qed.

(** X9: for a point at distance [r > 0] and angle [a] in [0, 360) from the
    start, [calcAngle] returns [a]. *)
Theorem calcAngle_is_the_polar_angle :
  forall (ptStart : R * R) (r a : R),
    0 < r -> 0 <= a < 360 ->
    calcAngle ptStart (fst ptStart + r * cos (radians a),
                       snd ptStart + r * sin (radians a)) = a.
Proof.
  intros s r a Hr [Hlo Hhi]. unfold calcAngle. cbv zeta. cbn [fst snd].
  assert (Hpi := PI_RGT_0).
  replace (snd s + r * sin (radians a) - snd s) with (sin (radians a) * r) by ring.
  replace (fst s + r * cos (radians a) - fst s) with (cos (radians a) * r) by ring.
  fold (degrees (Math_atan2 (sin (radians a) * r) (cos (radians a) * r))).
  destruct (Rle_dec a 180) as [Ha|Ha].
  - rewrite Math_atan2_polar by (try exact Hr; unfold radians; split; nra).
    rewrite degrees_radians.
    destruct (Rlt_dec a 0); [lra|reflexivity].
  - replace (sin (radians a)) with (sin (radians (a - 360))).
    2:{ replace (radians a) with (radians (a - 360) + 2 * PI)
          by (unfold radians; field).
        rewrite sin_plus, sin_2PI, cos_2PI. ring. }
    replace (cos (radians a)) with (cos (radians (a - 360))).
    2:{ replace (radians a) with (radians (a - 360) + 2 * PI)
          by (unfold radians; field).
        rewrite cos_plus, sin_2PI, cos_2PI. ring. }
    rewrite Math_atan2_polar by (try exact Hr; unfold radians; split; nra).
    rewrite degrees_radians.
    destruct (Rlt_dec (a - 360) 0); lra.
Qed.

Lemma calcAngle_is_the_polar_angle_witness :
  calcAngle (3, 4) (3 + 2 * cos (radians 270), 4 + 2 * sin (radians 270)) = 270.
Proof. apply (calcAngle_is_the_polar_angle (3, 4) 2 270); lra. Defined.

End Angles.

(** ** The scale bar *)

Section ScaleGraph.

Import Geo Geolib.
Local Open Scope R_scope.

Lemma Math_round_bounds (x : R) : x - 1 / 2 < IZR (Math_round x) <= x + 1 / 2.
Proof.
  unfold Math_round. pose proof (base_Int_part (x + 1 / 2)) as [H1 H2]. lra.
Qed.

Lemma Math_round_integer (z : Z) : Math_round (IZR z) = z.
Proof.
  unfold Math_round. symmetry. apply Int_part_spec. lra.
Qed.

Lemma Math_round_between (x : R) (lo hi : Z) :
  IZR lo - 1 / 2 <= x -> x < IZR hi + 1 / 2 -> (lo <= Math_round x <= hi)%Z.
Proof.
  intros H1 H2. pose proof (Math_round_bounds x) as [B1 B2].
  split.
  - apply Z.lt_succ_r. apply lt_IZR. rewrite succ_IZR. lra.
  - apply Z.lt_succ_r. apply lt_IZR. rewrite succ_IZR. lra.
Qed.

Lemma quotient_above_one (u n : R) : 0 < n -> (1 < u / n <-> n < u).
Proof.
  intros Hn. split; intros H.
  - apply (Rmult_lt_compat_r n) in H; [|exact Hn].
    unfold Rdiv in H. rewrite Rmult_assoc, Rinv_l in H by lra. lra.
  - apply (Rmult_lt_reg_r n); [exact Hn|].
    unfold Rdiv. rewrite Rmult_assoc, Rinv_l by lra. lra.
Qed.

Lemma power_of_ten_integer (mag : nat) (m : Z) : exists z, 10 ^ mag * IZR m = IZR z.
Proof.
  exists (10 ^ Z.of_nat mag * m)%Z. rewrite mult_IZR. f_equal.
  rewrite <- pow_IZR. reflexivity.
Qed.

(** One pass over the multipliers: either the scan stops at a multiple
    [N] of the power of ten with [N < uscale <= 2 N], or [uscale] is at
    most that power of ten and the scan goes on. *)
Lemma scan_multipliers_spec (u : R) (mag : nat) (s : scan) :
  sloop s = true -> u <= 10 * 10 ^ mag ->
  (sloop (scan_multipliers u mag multiplier s) = false
   /\ exists N,
        sn (scan_multipliers u mag multiplier s) = Some N
        /\ scm (scan_multipliers u mag multiplier s) = Some (u / N)
        /\ N < u <= 2 * N /\ 10 ^ mag <= N /\ exists z, N = IZR z)
  \/ (scan_multipliers u mag multiplier s = Scan (Some (10 ^ mag * 1)) (Some (u / (10 ^ mag * 1))) true
      /\ u <= 10 ^ mag).
Proof.
  intros Hs Hu.
  assert (HP : 0 < 10 ^ mag) by (apply pow_lt; lra).
  unfold multiplier. cbn [scan_multipliers]. cbv zeta. cbn [sloop]. rewrite Hs.
  set (P := 10 ^ mag) in *.
  destruct (Rlt_dec 1 (u / (P * 5))) as [H5|H5]; cbn [negb sloop sn scm].
  { left. split; [reflexivity|]. exists (P * 5).
    rewrite quotient_above_one in H5 by lra.
    repeat split; try reflexivity; try lra. apply (power_of_ten_integer mag 5). }
  rewrite quotient_above_one in H5 by lra.
  destruct (Rlt_dec 1 (u / (P * 4))) as [H4|H4]; cbn [negb sloop sn scm].
  { left. split; [reflexivity|]. exists (P * 4).
    rewrite quotient_above_one in H4 by lra.
    repeat split; try reflexivity; try lra. apply (power_of_ten_integer mag 4). }
  rewrite quotient_above_one in H4 by lra.
  destruct (Rlt_dec 1 (u / (P * 2))) as [H2|H2]; cbn [negb sloop sn scm].
  { left. split; [reflexivity|]. exists (P * 2).
    rewrite quotient_above_one in H2 by lra.
    repeat split; try reflexivity; try lra. apply (power_of_ten_integer mag 2). }
  rewrite quotient_above_one in H2 by lra.
  destruct (Rlt_dec 1 (u / (P * 1))) as [H1|H1]; cbn [negb sloop sn scm].
  { left. split; [reflexivity|]. exists (P * 1).
    rewrite quotient_above_one in H1 by lra.
    repeat split; try reflexivity; try lra. apply (power_of_ten_integer mag 1). }
  rewrite quotient_above_one in H1 by lra.
  right. split; [reflexivity|lra].
Qed.

Lemma scan_magnitudes_cons (u : R) (mag : nat) (rest : list nat) (s : scan) :
  scan_magnitudes u (mag :: rest) s
  = if negb (sloop (scan_multipliers u mag multiplier s))
    then scan_multipliers u mag multiplier s
    else scan_magnitudes u rest (scan_multipliers u mag multiplier s).
Proof. reflexivity. Qed.

(** Going down the magnitudes [m, m-1, ..., 1]. *)
Lemma scan_magnitudes_spec (u : R) (m : nat) (s : scan) :
  sloop s = true -> u <= 10 * 10 ^ m ->
  (exists N,
      sn (scan_magnitudes u (rev (seq 1 m)) s) = Some N
      /\ scm (scan_magnitudes u (rev (seq 1 m)) s) = Some (u / N)
      /\ N < u <= 2 * N /\ 10 <= N /\ exists z, N = IZR z)
  \/ (scan_magnitudes u (rev (seq 1 m)) s = s /\ m = 0%nat /\ u <= 10)
  \/ (scan_magnitudes u (rev (seq 1 m)) s = Scan (Some (10 * 1)) (Some (u / (10 * 1))) true
      /\ u <= 10).
Proof.
  revert s. induction m as [|m IH]; intros s Hs Hu.
  - right. left. cbn. repeat split. simpl in Hu. lra.
  - rewrite seq_S, rev_app_distr. cbn [rev app Nat.add].
    rewrite scan_magnitudes_cons.
    destruct (scan_multipliers_spec u (S m) s Hs Hu) as [[Hl (N & E1 & E2 & HN & HP & Hz)]|[E Hle]].
    + rewrite Hl. cbn [negb]. left. exists N. repeat split; try assumption; try tauto.
      assert (10 <= 10 ^ S m); [|lra].
      simpl. assert (1 <= 10 ^ m) by (apply pow_R1_Rle; lra). lra.
    + rewrite E. cbn [negb sloop].
      assert (Hu' : u <= 10 * 10 ^ m) by (simpl in Hle; exact Hle).
      destruct (IH (Scan (Some (10 ^ S m * 1)) (Some (u / (10 ^ S m * 1))) true) eq_refl Hu')
        as [H|[(E0 & Hm & H10)|H]].
      * left. exact H.
      * right. right. subst m. rewrite E0. simpl. split; [|exact H10].
        replace (10 * 1 * 1) with (10 * 1) by ring. reflexivity.
      * right. right. exact H.
Qed.

Lemma magnitude_descends : magnitude = rev (seq 1 9).
Proof. reflexivity. Qed.

Lemma quotient_bounds (u N : R) :
  0 < N -> N < u <= 2 * N -> 1 < u / N <= 2.
Proof.
  intros HN [H1 H2]. split.
  - apply quotient_above_one; assumption.
  - apply (Rmult_le_reg_r N); [exact HN|].
    unfold Rdiv. rewrite Rmult_assoc, Rinv_l by lra. lra.
Qed.

(** X10: for a scale between 10 (excluded) and 10^10, the bar of
    [scaleGraph] is longer than 1 cm and at most 2 cm, that is 38 to 76
    pixels, and the label times the bar length is the scale: [n * unit * cm
    = uscale]. *)
Theorem scaleGraph_bar_between_one_and_two_cm :
  forall uscale : R,
    10 < uscale <= 10000000000 ->
    exists nd cm pxl,
      gn (scaleGraph uscale) = Some nd
      /\ gcm (scaleGraph uscale) = Some cm
      /\ gpxl (scaleGraph uscale) = Some pxl
      /\ 1 < cm <= 2
      /\ (38 <= pxl <= 76)%Z
      /\ nd * unit_cm (gunit (scaleGraph uscale)) * cm = uscale.
Proof.
  intros u [Hlo Hhi].
  assert (Hu : u <= 10 * 10 ^ 9) by lra.
  destruct (scan_magnitudes_spec u 9 (Scan None None true) eq_refl Hu)
    as [(N & E1 & E2 & HN & H10 & z & Hz)|[(_ & _ & H)|(_ & H)]]; try lra.
  rewrite <- magnitude_descends in E1, E2.
  unfold scaleGraph. cbv zeta.
  destruct (scan_magnitudes u magnitude (Scan None None true)) as [n cm l].
  cbn [sn scm] in *. subst n cm. cbn [option_map].
  pose proof (quotient_bounds u N ltac:(lra) HN) as [Hc1 Hc2].
  assert (Hpx : (38 <= Math_round (u / N * ppcm) <= 76)%Z).
  { apply Math_round_between; unfold ppcm; nra. }
  assert (Hq : N * (u / N) = u) by (field; lra).
  unfold Rleb.
  destruct (Rle_dec 100000 N) as [Hk|Hk].
  - exists (N / 100000), (u / N), (Math_round (u / N * ppcm)).
    cbn [gn gcm gpxl gunit]. repeat split; try assumption; try tauto.
    unfold unit_cm. cbn. field. lra.
  - destruct (Rle_dec 100 N) as [Hm|Hm].
    + exists (N / 100), (u / N), (Math_round (u / N * ppcm)).
      cbn [gn gcm gpxl gunit]. repeat split; try assumption; try tauto.
      unfold unit_cm. cbn. field. lra.
    + exists (IZR (Math_round N)), (u / N), (Math_round (u / N * ppcm)).
      cbn [gn gcm gpxl gunit]. repeat split; try assumption; try tauto.
      unfold unit_cm. cbn. rewrite Hz, Math_round_integer, <- Hz.
      field. lra.
Qed.

Lemma scaleGraph_bar_between_one_and_two_cm_witness :
  exists nd cm pxl,
    gn (scaleGraph 25000) = Some nd
    /\ gcm (scaleGraph 25000) = Some cm
    /\ gpxl (scaleGraph 25000) = Some pxl
    /\ 1 < cm <= 2
    /\ (38 <= pxl <= 76)%Z
    /\ nd * unit_cm (gunit (scaleGraph 25000)) * cm = 25000.
Proof. apply (scaleGraph_bar_between_one_and_two_cm 25000). lra. Defined.

(** X11: for a scale of 10 or less no candidate is ever below the scale:
    both loops run to their end and [scaleGraph] answers with the last
    candidate, a label of 10 cm for a bar of [uscale / 10] cm, at most 1 cm.
    *)
Theorem scaleGraph_small_scale :
  forall uscale : R,
    uscale <= 10 ->
    scaleGraph uscale
    = Graph (Some 10) "cm" (Some (uscale / 10)) (Some (Math_round (uscale / 10 * ppcm))).
Proof.
  intros u Hu.
  assert (Hu' : u <= 10 * 10 ^ 9) by lra.
  destruct (scan_magnitudes_spec u 9 (Scan None None true) eq_refl Hu')
    as [(N & E1 & E2 & HN & H10 & z & Hz)|[(_ & H & _)|(E & _)]];
    try lra; try discriminate.
  rewrite <- magnitude_descends in E.
  unfold scaleGraph. cbv zeta. rewrite E. cbn [sn scm option_map].
  unfold Rleb.
  destruct (Rle_dec 100000 (10 * 1)) as [H|_]; [lra|].
  destruct (Rle_dec 100 (10 * 1)) as [H|_]; [lra|].
  replace (10 * 1) with (IZR 10) by (simpl; ring).
  rewrite Math_round_integer. reflexivity.
Qed.

Lemma scaleGraph_small_scale_witness :
  scaleGraph 4
  = Graph (Some 10) "cm" (Some (4 / 10)) (Some (Math_round (4 / 10 * ppcm))).
Proof. apply (scaleGraph_small_scale 4). lra. Defined.

End ScaleGraph.

(** ** The orientation the segment distance needs *)

Section SegmentOrientation.

Import Floats Planar.
Local Open Scope float_scope.

Lemma SFltb_trans (a b c : spec_float) :
  SFltb a b = true -> SFltb b c = true -> SFltb a c = true.
Proof.
  unfold SFltb.
  destruct a as [sa|sa| |sa ma ea], b as [sb|sb| |sb mb eb], c as [sc|sc| |sc mc ec];
    simpl; try discriminate; try reflexivity;
    try destruct sa; try destruct sb; try destruct sc; simpl;
    try discriminate; try reflexivity; try (intros; assumption).
  - destruct (Z.compare_spec ea eb), (Z.compare_spec eb ec), (Z.compare_spec ea ec);
      simpl; try discriminate; try reflexivity; try lia; subst;
        rewrite ?Pos.compare_cont_spec; simpl;
        destruct (Pos.compare_spec ma mb), (Pos.compare_spec mb mc), (Pos.compare_spec ma mc);
        simpl; try discriminate; try reflexivity; try lia.
  - destruct (Z.compare_spec ea eb), (Z.compare_spec eb ec), (Z.compare_spec ea ec);
      simpl; try discriminate; try reflexivity; try lia; subst;
        rewrite ?Pos.compare_cont_spec; simpl;
        destruct (Pos.compare_spec ma mb), (Pos.compare_spec mb mc), (Pos.compare_spec ma mc);
        simpl; try discriminate; try reflexivity; try lia.
Qed.

Lemma ltb_trans (a b c : float) :
  (a <? b) = true -> (b <? c) = true -> (a <? c) = true.
Proof. rewrite !ltb_spec. apply SFltb_trans. Qed.

(** The rectangle test passes only when [A] is to the left of and above [B]. *)
Lemma pointInRect_orientation (C A B : point) :
  pointInRect C A B = true ->
  (fst A <? fst B) = true /\ (snd B <? snd A) = true.
Proof.
  unfold pointInRect. intros H.
  apply andb_prop in H as [H H4]. apply andb_prop in H as [H H3].
  apply andb_prop in H as [H1 H2].
  split.
  - exact (ltb_trans _ _ _ H1 H2).
  - exact (ltb_trans _ _ _ H4 H3).
Qed.

(** X12: unless [A] is strictly to the left of and strictly above [B] as
    numbers ([xA < xB] and [yB < yA]), [distancePointToLineSeg] never uses
    the perpendicular distance: it returns the smaller of the two endpoint
    distances. This covers every vertical and every horizontal segment. *)
Theorem distancePointToLineSeg_needs_A_upper_left :
  forall E A B : point,
    (fst A <? fst B) && (snd B <? snd A) = false ->
    distancePointToLineSeg E A B = Math_min (length A E) (length B E).
Proof.
  intros E A B H. unfold distancePointToLineSeg.
  destruct (pointInRect (intersection A B E) A B) eqn:Hin; [|reflexivity].
  apply pointInRect_orientation in Hin as [H1 H2].
  rewrite H1, H2 in H. discriminate.
Qed.

Lemma distancePointToLineSeg_needs_A_upper_left_witness :
  distancePointToLineSeg (5, 5) (0, 0) (10, 0)
  = Math_min (length (0, 0) (5, 5)) (length (10, 0) (5, 5)).
Proof.
  apply (distancePointToLineSeg_needs_A_upper_left (5, 5) (0, 0) (10, 0)).
  vm_compute. reflexivity.
Defined.

End SegmentOrientation.

(** ** The segment distance on the y axis *)

Section YAxis.

Import Floats Planar Vectors.
Local Open Scope float_scope.

Lemma SFmul_zero_or_nan_l (a b : spec_float) :
  zero_or_nan a = true -> zero_or_nan (SF64mul a b) = true.
Proof. destruct a, b; simpl; try discriminate; reflexivity. Qed.

Lemma SFmul_zero_or_nan_r (a b : spec_float) :
  zero_or_nan b = true -> zero_or_nan (SF64mul a b) = true.
Proof. destruct a, b; simpl; try discriminate; reflexivity. Qed.

Lemma SFsub_zero_or_nan (a b : spec_float) :
  zero_or_nan a = true -> zero_or_nan b = true -> zero_or_nan (SF64sub a b) = true.
Proof.
  destruct a as [sa|sa| |sa ma ea], b as [sb|sb| |sb mb eb]; simpl;
    try discriminate; try reflexivity.
  destruct sa, sb; reflexivity.
Qed.

Lemma SFsub_same_after_zero (z y : spec_float) :
  zero_or_nan z = true -> zero_or_nan (SF64sub y (SF64add z y)) = true.
Proof.
  destruct z as [sz|sz| |sz mz ez]; simpl; try discriminate; intros _.
  - destruct y as [sy|sy| |sy my ey]; simpl; try reflexivity.
    + destruct sz, sy; reflexivity.
    + destruct sy; reflexivity.
    + unfold SF64sub, SFsub. rewrite Z.min_id.
      unfold shl_align. rewrite Z.sub_diag. cbn [fst].
      rewrite ?Z.sub_diag. reflexivity.
  - destruct y; reflexivity.
Qed.

Lemma SFdiv_zero_or_nan (a b : spec_float) :
  zero_or_nan a = true -> zero_or_nan b = true -> SF64div a b = S754_nan.
Proof. destruct a, b; simpl; try discriminate; reflexivity. Qed.

Lemma is_nan_float (x : float) : Prim2SF x = S754_nan -> x = nan.
Proof. intros H. apply Prim2SF_inj. rewrite H. reflexivity. Qed.

Lemma intersection_nan_on_y_axis (A B C : point) :
  fst C = 0 -> intersection A B C = (nan, nan).
Proof.
  revert A B C.
  intros A B [xC yC] H. cbn [fst] in H. subst xC.
  unfold intersection, lineGivenSlopeAndOnePoint. cbv zeta. cbn [la lb lc fst snd].
  set (AB := lineGivenTwoPoints A B).
  set (i := - slopePerpendicular (lm AB) * 0 + yC).
  assert (Hb2 : zero_or_nan (Prim2SF (0 - 0)) = true) by reflexivity.
  assert (Ha2 : zero_or_nan (Prim2SF (yC - i)) = true).
  { unfold i. rewrite sub_spec, add_spec. apply SFsub_same_after_zero.
    rewrite mul_spec. apply SFmul_zero_or_nan_r. reflexivity. }
  assert (Hc2 : zero_or_nan (Prim2SF (0 * i - 0 * yC)) = true).
  { rewrite sub_spec. apply SFsub_zero_or_nan; rewrite mul_spec;
      apply SFmul_zero_or_nan_l; reflexivity. }
  assert (Hden : zero_or_nan (Prim2SF (la AB * (0 - 0) - (yC - i) * lb AB)) = true).
  { rewrite sub_spec. apply SFsub_zero_or_nan; rewrite mul_spec.
    - apply SFmul_zero_or_nan_r. exact Hb2.
    - apply SFmul_zero_or_nan_l. exact Ha2. }
  f_equal; apply is_nan_float; rewrite div_spec; apply SFdiv_zero_or_nan;
    try exact Hden; rewrite sub_spec; apply SFsub_zero_or_nan; rewrite mul_spec.
  - apply SFmul_zero_or_nan_r. exact Hc2.
  - apply SFmul_zero_or_nan_l. exact Hb2.
  - apply SFmul_zero_or_nan_l. exact Ha2.
  - apply SFmul_zero_or_nan_r. exact Hc2.
Qed.

Lemma ltb_nan_r (x : float) : (x <? nan) = false.
Proof. rewrite ltb_spec. destruct (Prim2SF x); reflexivity. Qed.

(** X13: for a point [E] with [x = 0] the second line of [intersection]
    degenerates to 0x + 0y + 0 = 0, both coordinates of the foot are NaN
    whatever the segment is, and [distancePointToLineSeg] returns the
    smaller endpoint distance. *)
Theorem distancePointToLineSeg_on_y_axis :
  forall E A B : point,
    fst E = 0 ->
    intersection A B E = (nan, nan)
    /\ distancePointToLineSeg E A B = Math_min (length A E) (length B E).
Proof.
  intros E A B H. split; [apply intersection_nan_on_y_axis; exact H|].
  unfold distancePointToLineSeg.
  rewrite (intersection_nan_on_y_axis A B E H).
  unfold pointInRect. cbn [fst snd]. rewrite ltb_nan_r. reflexivity.
Qed.

Lemma distancePointToLineSeg_on_y_axis_witness :
  intersection (-10, 10) (10, -10) (0, 5) = (nan, nan)
  /\ distancePointToLineSeg (0, 5) (-10, 10) (10, -10)
     = Math_min (length (-10, 10) (0, 5)) (length (10, -10) (0, 5)).
Proof.
  apply (distancePointToLineSeg_on_y_axis (0, 5) (-10, 10) (10, -10)). reflexivity.
Defined.

End YAxis.

(** ** The dot product *)

Section DotProduct.

Import Floats Vectors.
Local Open Scope float_scope.

Lemma SFmul_comm (a b : spec_float) : SF64mul a b = SF64mul b a.
Proof.
  destruct a as [sa|sa| |sa ma ea], b as [sb|sb| |sb mb eb]; simpl;
    try reflexivity; try (rewrite xorb_comm; reflexivity).
  unfold SF64mul, SFmul. rewrite (xorb_comm sa sb), (Pos.mul_comm ma mb), (Z.add_comm ea eb).
  reflexivity.
Qed.

Lemma mul_comm (a b : float) : a * b = b * a.
Proof. apply Prim2SF_inj. rewrite !mul_spec. apply SFmul_comm. Qed.

Lemma nan_float (x : float) : Prim2SF x = S754_nan -> x = nan.
Proof. intros H. apply Prim2SF_inj. rewrite H. reflexivity. Qed.

Lemma mul_nan_r (a : float) : a * nan = nan.
Proof. apply nan_float. rewrite mul_spec. destruct (Prim2SF a); reflexivity. Qed.

Lemma add_nan_r (a : float) : a + nan = nan.
Proof. apply nan_float. rewrite add_spec. destruct (Prim2SF a); reflexivity. Qed.

Lemma add_nan_l (a : float) : nan + a = nan.
Proof. apply nan_float. rewrite add_spec. destruct (Prim2SF a); reflexivity. Qed.

Lemma dotProduct_from_nan (x y : list float) : dotProduct_from x y nan = nan.
Proof.
  revert y. induction x as [|xi x IH]; intros y; [reflexivity|].
  cbn [dotProduct_from]. cbv zeta. rewrite add_nan_l. apply IH.
Qed.

Lemma dotProduct_from_short (x y : list float) (dot : float) :
  (List.length y < List.length x)%nat -> dotProduct_from x y dot = nan.
Proof.
  revert y dot. induction x as [|xi x IH]; intros y dot H; [simpl in H; lia|].
  destruct y as [|yi y].
  - cbn [dotProduct_from tl]. cbv zeta. rewrite mul_nan_r, add_nan_r.
    apply dotProduct_from_nan.
  - cbn [dotProduct_from tl]. cbv zeta. apply IH. simpl in H. lia.
Qed.

Lemma dotProduct_from_prefix (x y more : list float) (dot : float) :
  (List.length x <= List.length y)%nat ->
  dotProduct_from x (y ++ more) dot = dotProduct_from x y dot.
Proof.
  revert y dot. induction x as [|xi x IH]; intros y dot H; [reflexivity|].
  destruct y as [|yi y]; [simpl in H; lia|].
  cbn [dotProduct_from tl app]. cbv zeta. apply IH. simpl in H. lia.
Qed.

(** X14: when [y] is shorter than [x], [dotProduct x y] is NaN, while
    [dotProduct y x] ignores the entries of [x] past the length of [y]. *)
Theorem dotProduct_sizes :
  forall x y : list float,
    (List.length y < List.length x)%nat ->
    dotProduct x y = nan
    /\ dotProduct y x = dotProduct y (firstn (List.length y) x).
Proof.
  intros x y H. split.
  - apply dotProduct_from_short. exact H.
  - rewrite <- (firstn_skipn (List.length y) x) at 1.
    apply dotProduct_from_prefix. rewrite length_firstn. lia.
Qed.

Lemma dotProduct_sizes_witness :
  dotProduct [1; 2; 3] [4; 5] = nan
  /\ dotProduct [4; 5] [1; 2; 3] = dotProduct [4; 5] (firstn (List.length [4; 5]) [1; 2; 3]).
Proof. apply (dotProduct_sizes [1; 2; 3] [4; 5]). simpl. lia. Defined.

Lemma dotProduct_from_comm (x y : list float) (dot : float) :
  List.length x = List.length y ->
  dotProduct_from x y dot = dotProduct_from y x dot.
Proof.
  revert y dot. induction x as [|xi x IH]; intros y dot H.
  - destruct y; [reflexivity|discriminate].
  - destruct y as [|yi y]; [discriminate|].
    cbn [dotProduct_from tl]. cbv zeta. rewrite (mul_comm xi yi).
    apply IH. simpl in H. lia.
Qed.

(** X15: for arrays of the same length, [dotProduct x y] and [dotProduct y
    x] are the same binary64 number. *)
Theorem dotProduct_symmetric :
  forall x y : list float,
    List.length x = List.length y -> dotProduct x y = dotProduct y x.
Proof. intros x y H. apply dotProduct_from_comm. exact H. Qed.

Lemma dotProduct_symmetric_witness :
  dotProduct [1; 2; 3] [4; 5; 6] = dotProduct [4; 5; 6] [1; 2; 3].
Proof. apply (dotProduct_symmetric [1; 2; 3] [4; 5; 6]). reflexivity. Defined.

End DotProduct.

(** ** The setters of the projection *)

Section Setup.

Import Geo Projection ProjectionSetup.
Local Open Scope R_scope.

Lemma js_rem_bound (x m : R) : 0 < m -> - m < js_rem x m < m.
Proof.
  intros Hm. unfold js_rem.
  assert (Hr : forall y, 0 <= y -> 0 <= y - m * IZR (Int_part (y / m)) < m).
  { intros y Hy. pose proof (base_Int_part (y / m)) as [H1 H2].
    assert (E : y = m * (y / m)) by (field; lra).
    split.
    - assert (m * IZR (Int_part (y / m)) <= m * (y / m))
        by (apply Rmult_le_compat_l; lra). lra.
    - assert (m * (y / m - 1) < m * IZR (Int_part (y / m)))
        by (apply Rmult_lt_compat_l; lra). lra. }
  destruct (Rle_dec 0 x) as [Hx|Hx].
  - pose proof (Hr x Hx). lra.
  - pose proof (Hr (- x) ltac:(lra)). lra.
Qed.

Lemma translate_core (p : t) (pt : R * R) :
  0 < fst pt -> 0 < snd pt ->
  let q := core (translate p pt) in
  Projection.pt q = pt /\ δx q = fst pt /\ δy q = snd pt
  /\ wd q / 2 = δx q /\ ht q / 2 = δy q
  /\ 0 < k q /\ 0 < pxlPerDgr q
  /\ 2 * PI * k q = 360 * pxlPerDgr q.
Proof.
  intros Hx Hy q. unfold q, translate, with_extents. cbv zeta.
  cbn [core Projection.pt δx δy wd ht k pxlPerDgr].
  assert (Hpi := PI_RGT_0).
  assert (Hz : 0 < Rpower 2 (zoom p)) by (unfold Rpower; apply exp_pos).
  assert (Hsq : 0 < Rmin (fst pt * 2) (snd pt * 2)) by (apply Rmin_glb_lt; lra).
  set (sq := Rmin (fst pt * 2) (snd pt * 2)) in *.
  repeat split; try reflexivity; try (field; lra).
  - apply Rmult_lt_0_compat; [exact Hz|]. apply Rdiv_lt_0_compat; lra.
  - apply Rmult_lt_0_compat; [exact Hz|]. apply Rdiv_lt_0_compat; lra.
Qed.

(** X16: [translate] to a point with positive coordinates makes that point
    the centre of both projections ([δx], [δy], half of [wd] and [ht]),
    gives a positive globe radius and a positive pixels-per-degree factor,
    and the circumference of the globe is the width of the cylindrical map:
    [2 pi k = 360 pxlPerDgr]. *)
Theorem translate_sets_the_scale :
  forall (p : t) (pt : R * R),
    0 < fst pt -> 0 < snd pt ->
    let q := core (translate p pt) in
    Projection.pt q = pt /\ δx q = fst pt /\ δy q = snd pt
    /\ wd q / 2 = δx q /\ ht q / 2 = δy q
    /\ 0 < k q /\ 0 < pxlPerDgr q
    /\ 2 * PI * k q = 360 * pxlPerDgr q.
Proof. exact translate_core. Qed.

Lemma translate_sets_the_scale_witness :
  let q := core (translate Samples.globe (400, 300)) in
  Projection.pt q = (400, 300) /\ δx q = 400 /\ δy q = 300
  /\ wd q / 2 = δx q /\ ht q / 2 = δy q
  /\ 0 < k q /\ 0 < pxlPerDgr q
  /\ 2 * PI * k q = 360 * pxlPerDgr q.
Proof.
  apply (translate_sets_the_scale Samples.globe (400, 300)); cbn [fst snd]; lra.
Defined.

Lemma rotate_core (p : t) (ro0 ro1 : R) (ro2 : option R) :
  let q := core (rotate p (ro0, ro1, ro2)) in
  co q = (0 - ro0, ro1)
  /\ δλ q = radians (js_rem ro0 360)
  /\ cosδφ q = cos (δφ q) /\ sinδφ q = sin (δφ q)
  /\ cosδγ q = cos (δγ q) /\ sinδγ q = sin (δγ q)
  /\ cr q = cr p /\ k q = k p /\ δx q = δx p /\ δy q = δy p
  /\ wd q = wd p /\ ht q = ht p /\ mixer q = mixer p.
Proof. cbv zeta. unfold rotate, with_extents. cbn. repeat split. Qed.

Lemma rotate_prepared (p : t) (ro : R * R * option R) :
  cr p = clipAngle 90 -> k p <> 0 ->
  prepared (core (rotate p ro))
  /\ co (core (rotate p ro)) = (0 - fst (fst ro), snd (fst ro)).
Proof.
  revert p ro. intros p [[ro0 ro1] ro2] Hcr Hk.
  destruct (rotate_core p ro0 ro1 ro2)
    as (Hco & Hl & H1 & H2 & H3 & H4 & Hcr' & Hk' & _).
  split; [|exact Hco].
  unfold prepared. rewrite Hcr', Hk', Hl.
  repeat split; try assumption.
  - pose proof (js_rem_bound ro0 360 ltac:(lra)) as [Hlo _].
    assert (Hpi := PI_RGT_0). unfold τ, radians. nra.
  - pose proof (js_rem_bound ro0 360 ltac:(lra)) as [_ Hhi].
    assert (Hpi := PI_RGT_0). unfold τ, radians. nra.
Qed.

(** X17: [rotate] stores the sines and cosines of the angles it stores, a
    yaw of less than a full turn and the centre coordinate [(-ro[0],
    ro[1])]; with the clip angle of the constructor and a nonzero radius the
    object is then [prepared]. *)
Theorem rotate_prepares :
  forall (p : t) (ro : R * R * option R),
    cr p = clipAngle 90 -> k p <> 0 ->
    prepared (core (rotate p ro))
    /\ co (core (rotate p ro)) = (0 - fst (fst ro), snd (fst ro)).
Proof. exact rotate_prepared. Qed.

Lemma rotate_prepares_witness :
  prepared (core (rotate Samples.globe (80, -30, Some 10)))
  /\ co (core (rotate Samples.globe (80, -30, Some 10))) = (0 - 80, -30).
Proof.
  apply (rotate_prepares Samples.globe (80, -30, Some 10)).
  - reflexivity.
  - cbn. lra.
Defined.

End Setup.

(** ** The extents and the disc of the globe *)

Section Extents.

Import Geo Projection ProjectionSetup.
Local Open Scope R_scope.

Lemma project_cylindrical_lng (p : t) (c : coord) :
  soupcan (mixer p) = false ->
  fst (project_cylindrical p c) = (fst c - fst (co p)) * pxlPerDgr p + fst (pt p).
Proof. intros Hs. unfold project_cylindrical. cbv zeta. rewrite Hs. reflexivity. Qed.

Lemma project_flat (p : t) (c : coord) :
  cylindrical (mixer p) = true -> orthographic (mixer p) = false ->
  project p c = Pixel (Some (fst (project_cylindrical p c)))
                      (Some (snd (project_cylindrical p c))) true.
Proof.
  intros Hc Ho. unfold project. rewrite Hc, Ho.
  destruct (project_cylindrical p c). reflexivity.
Qed.

(** X18: under a cylindrical-only mixer without soupcan, the map extent
    computed by [clipExtent] holds numbers, its width is [360 * pxlPerDgr],
    and moving the centre point right by that width projects every
    coordinate where the coordinate 360 degrees further east was: the shift
    of the cylindrical stitch.  Both extents then hold numbers, and the map
    extent is the one the object keeps. *)
Theorem map_extent_is_one_turn_wide :
  forall p : t,
    cylindrical (mixer p) = true -> orthographic (mixer p) = false ->
    soupcan (mixer p) = false ->
    exists w n e s,
      fst (clipExtent p) = ((Some w, Some n), (Some e, Some s))
      /\ e - w = 360 * pxlPerDgr p
      /\ (forall c : coord,
            project (set_pt0 p (fst (pt p) + (e - w))) c
            = project p (fst c + 360, snd c))
      /\ exists q, ready (with_extents p) = Some q /\ mx q = ((w, n), (e, s)).
Proof.
  intros p Hc Ho Hs.
  exists (fst (project_cylindrical p (-180, latClamp p))),
         (snd (project_cylindrical p (-180, latClamp p))),
         (fst (project_cylindrical p (180, 0 - latClamp p))),
         (snd (project_cylindrical p (180, 0 - latClamp p))).
  split; [|split; [|split]].
  - unfold clipExtent. cbv zeta. cbn [fst].
    rewrite !(project_flat p _ Hc Ho). reflexivity.
  - rewrite !project_cylindrical_lng by exact Hs. cbn [fst]. ring.
  - intros c. rewrite !project_cylindrical_lng by exact Hs. cbn [fst].
    rewrite (project_flat p _ Hc Ho).
    rewrite (project_flat (set_pt0 p _) c) by (cbn; assumption).
    unfold project_cylindrical, set_pt0. cbv zeta.
    cbn [mixer latClamp mf co pt pxlPerDgr fst snd]. rewrite Hs.
    f_equal. f_equal. ring.
  - unfold ready, with_extents, clipExtent. cbv zeta. cbn [omx ocx core fst snd].
    rewrite !(project_flat p _ Hc Ho). cbn [px py entry2 option_map].
    eexists. split; reflexivity.
Qed.

Lemma map_extent_is_one_turn_wide_witness :
  exists w n e s,
    fst (clipExtent Samples.mercator_map) = ((Some w, Some n), (Some e, Some s))
    /\ e - w = 360 * pxlPerDgr Samples.mercator_map
    /\ (forall c : coord,
          project (set_pt0 Samples.mercator_map
                     (fst (pt Samples.mercator_map) + (e - w))) c
          = project Samples.mercator_map (fst c + 360, snd c))
    /\ exists q, ready (with_extents Samples.mercator_map) = Some q
                 /\ mx q = ((w, n), (e, s)).
Proof. apply (map_extent_is_one_turn_wide Samples.mercator_map); reflexivity. Defined.




End Extents.

(** ** The setters and the round trip *)

Section Composition.

Import Geo Projection ProjectionSetup.
Local Open Scope R_scope.


(** X21: under a cylindrical-only mixer and with a scale [pxlPerDgr] other
    than zero, the longitude returned by [invert] lies in [-180, 180]; it
    is the unwrapped longitude when that lies in [-180, 180], and differs
    from it by 360 degrees when that lies within one turn beyond. *)
Theorem invert_longitude_wraps :
  forall (p : t) (q : R * R),
    cylindrical (mixer p) = true -> orthographic (mixer p) = false ->
    pxlPerDgr p <> 0 ->
    let raw := (fst q - fst (pt p)) / pxlPerDgr p + fst (co p) in
    exists lng,
      ilng (invert p q) = Some lng
      /\ -180 <= lng <= 180
      /\ (-180 <= raw <= 180 -> lng = raw)
      /\ (180 < raw < 360 -> lng = raw - 360)
      /\ (-360 < raw < -180 -> lng = raw + 360).
Proof.
  intros p q Hc Ho _ raw. unfold invert. rewrite Hc, Ho.
  unfold invert_cylindrical. cbv zeta. cbn [ilng]. fold raw.
  pose proof (js_rem_bound raw 180 ltac:(lra)) as Hb.
  assert (Hpos : 0 <= raw -> 0 <= js_rem raw 180).
  { intros H. unfold js_rem. destruct (Rle_dec 0 raw) as [_|Hn]; [|contradiction].
    pose proof (base_Int_part (raw / 180)) as [H1 _].
    assert (180 * IZR (Int_part (raw / 180)) <= 180 * (raw / 180))
      by (apply Rmult_le_compat_l; lra).
    assert (180 * (raw / 180) = raw) by field. lra. }
  assert (Hneg : raw < 0 -> js_rem raw 180 <= 0).
  { intros H. unfold js_rem. destruct (Rle_dec 0 raw) as [Hn|_]; [lra|].
    pose proof (base_Int_part (- raw / 180)) as [H1 _].
    assert (180 * IZR (Int_part (- raw / 180)) <= 180 * (- raw / 180))
      by (apply Rmult_le_compat_l; lra).
    assert (180 * (- raw / 180) = - raw) by field. lra. }
  assert (Hone : 180 < raw < 360 -> js_rem raw 180 = raw - 180).
  { intros [H1 H2]. unfold js_rem. destruct (Rle_dec 0 raw) as [_|Hn]; [|lra].
    replace (Int_part (raw / 180)) with 1%Z; [ring|].
    apply Int_part_spec. split; lra. }
  assert (Hmone : -360 < raw < -180 -> js_rem raw 180 = raw + 180).
  { intros [H1 H2]. unfold js_rem. destruct (Rle_dec 0 raw) as [Hn|_]; [lra|].
    replace (Int_part (- raw / 180)) with 1%Z; [ring|].
    apply Int_part_spec. split; lra. }
  destruct (Rlt_dec 180 raw) as [Hhi|Hhi].
  - pose proof (Hpos ltac:(lra)).
    destruct (Rlt_dec (-180 + js_rem raw 180) (-180)) as [H1|H1]; [lra|].
    eexists. split; [reflexivity|]. split; [lra|]. split; [lra|].
    split; [|lra]. intros Hr. rewrite (Hone Hr). ring.
  - destruct (Rlt_dec raw (-180)) as [Hlo|Hlo].
    + pose proof (Hneg ltac:(lra)).
      eexists. split; [reflexivity|]. split; [lra|]. split; [lra|].
      split; [lra|]. intros Hr. rewrite (Hmone Hr). ring.
    + eexists. split; [reflexivity|]. split; [lra|]. split; [reflexivity|].
      split; lra.
Qed.

Lemma invert_longitude_wraps_witness :
  let raw := (190 - fst (pt Samples.mercator_map)) / pxlPerDgr Samples.mercator_map
             + fst (co Samples.mercator_map) in
  exists lng,
    ilng (invert Samples.mercator_map (190, 0)) = Some lng
    /\ -180 <= lng <= 180
    /\ (-180 <= raw <= 180 -> lng = raw)
    /\ (180 < raw < 360 -> lng = raw - 360)
    /\ (-360 < raw < -180 -> lng = raw + 360).
Proof.
  apply (invert_longitude_wraps Samples.mercator_map (190, 0));
    [reflexivity|reflexivity|cbn; lra].
Defined.

End Composition.

Section CompositionWitness.

Import Geo Projection ProjectionSetup.
Local Open Scope R_scope.




End CompositionWitness.

(** ** A traversal that nothing stops *)

Section Returns.

Import JS GeoJSON GeoIterator Visits.

Context {E : Type}.

Lemma returns_bind {X Y : Type} (c : M E X) (f : X -> M E Y)
    (P : X -> Prop) (Q : Y -> Prop) (L1 L2 : list call) :
  returns c P L1 -> (forall x, P x -> returns (f x) Q L2) ->
  returns (bind c f) Q (L1 ++ L2).
Proof.
  intros H1 H2 w. destruct (H1 w) as (x & w1 & E1 & Px & C1).
  destruct (H2 x Px w1) as (y & w2 & E2 & Qy & C2).
  exists y, w2. unfold bind. rewrite E1, E2. split; [reflexivity|]. split; [exact Qy|].
  rewrite C2, C1, app_assoc. reflexivity.
Qed.

Lemma returns_update (f : this E -> this E) :
  returns (update f) (fun _ => True) [].
Proof.
  intros w. exists tt, (World (f (self w)) (calls w)).
  cbn. rewrite app_nil_r. repeat split.
Qed.

Lemma returns_mret {X : Type} (x : X) : returns (mret (E := E) x) (eq x) [].
Proof. intros w. exists x, w. cbn. rewrite app_nil_r. repeat split. Qed.

Lemma returns_enter (h : hook) :
  returns (enter (E := E) h) (fun _ => True) [Call h VUndefined].
Proof. intros w. eexists tt, _. cbn. repeat split. Qed.

Lemma returns_invoke (h : hook) (g : this E -> value * this E) :
  (forall s, fst (g s) = VTrue) ->
  returns (invoke h (lift g)) (eq VTrue) [Call h VTrue].
Proof.
  intros Hg w. unfold invoke, lift. pose proof (Hg (self w)) as Hv.
  destruct (g (self w)) as [b s]. cbn [fst] in Hv. subst b.
  eexists VTrue, _. repeat split.
Qed.

Lemma returns_get : returns (get (E := E)) (fun _ => True) [].
Proof. intros w. exists (self w), w. cbn. rewrite app_nil_r. repeat split. Qed.

End Returns.

Section FullTraversal.

Import JS GeoJSON GeoIterator Visits.

Context {E A : Type}.
Variable v : visitor E A.
Hypothesis Htrue : always_true v.

Let m : methods E A := methods_of v.

Lemma logs_point_body (wi : within) (c : Geo.coord) (i : Z) :
  logs (point_body m wi c i) [Call (HDoPoint c wi i) VTrue].
Proof.
  destruct Htrue as (_ & _ & _ & _ & Hp).
  apply returns_invoke. intros s. apply Hp.
Qed.

Lemma logs_points (wi : within) (cs : list Geo.coord) (i : Z) :
  logs (while_loop (point_body m wi) cs i VTrue) (points_from wi cs (i + 1)).
Proof.
  revert i. induction cs as [|c cs IH]; intros i.
  - apply returns_mret.
  - cbn [while_loop truthy points_from].
    apply (returns_bind _ _ (eq VTrue) (eq VTrue) [Call (HDoPoint c wi (i + 1)) VTrue]).
    + apply logs_point_body.
    + intros x <-. apply IH.
Qed.

Lemma logs_each {X : Type} (body : X -> M E value) (F : X -> list call) :
  (forall x, logs (body x) (F x)) ->
  forall xs i, logs (while_loop (fun x _ => body x) xs i VTrue) (flat_map F xs).
Proof.
  intros Hb xs. induction xs as [|x xs IH]; intros i.
  - apply returns_mret.
  - cbn [while_loop truthy flat_map].
    apply (returns_bind _ _ (eq VTrue) (eq VTrue)); [apply Hb|].
    intros b <-. apply IH.
Qed.

Lemma logs_iteratePolygon (p : GeoJSON.polygon) :
  logs (iteratePolygon m p) (polygon_visits p).
Proof.
  destruct Htrue as (_ & _ & Hps & _ & _).
  unfold iteratePolygon, polygon_visits.
  apply (returns_bind _ _ (fun _ => True) (eq VTrue) []); [apply returns_update|].
  intros _ _.
  apply (returns_bind _ _ (eq VTrue) (eq VTrue) [Call (HPolygonStart (ring0 p)) VTrue]).
  { apply returns_invoke. intros s. apply Hps. }
  intros b <-. cbn [truthy].
  apply (returns_bind _ _ (eq VTrue) (eq VTrue)); [apply (logs_points Poly (ring0 p) (-1))|].
  intros b <-.
  apply (returns_bind _ _ (fun _ => True) (eq VTrue) [Call (HPolygonEnd (ring0 p)) VUndefined] []);
    [apply returns_enter|].
  intros _ _.
  apply (returns_bind _ _ (fun _ => True) (eq VTrue) [] []); [apply returns_update|].
  intros _ _. apply returns_mret.
Qed.

Lemma logs_iterateLine (l : list Geo.coord) :
  logs (iterateLine m l) (line_visits l).
Proof.
  destruct Htrue as (_ & _ & _ & Hls & _).
  unfold iterateLine, line_visits.
  apply (returns_bind _ _ (fun _ => True) (eq VTrue) []); [apply returns_update|].
  intros _ _.
  apply (returns_bind _ _ (eq VTrue) (eq VTrue) [Call (HLineStart l) VTrue]).
  { apply returns_invoke. intros s. apply Hls. }
  intros b <-. cbn [truthy].
  apply (returns_bind _ _ (eq VTrue) (eq VTrue)); [apply (logs_points Line l (-1))|].
  intros b <-.
  apply (returns_bind _ _ (fun _ => True) (eq VTrue) [Call (HLineEnd l) VUndefined] []);
    [apply returns_enter|].
  intros _ _.
  apply (returns_bind _ _ (fun _ => True) (eq VTrue) [] []); [apply returns_update|].
  intros _ _. apply returns_mret.
Qed.

Lemma logs_iterateCoordinates (g : GeoJSON.geometry) :
  logs (iterateCoordinates m g) (coordinates_visits g).
Proof.
  destruct g as [ps|p|ls|l|cs|c]; cbn [iterateCoordinates coordinates_visits].
  - apply (logs_each (iteratePolygon m) polygon_visits logs_iteratePolygon).
  - apply logs_iteratePolygon.
  - apply (logs_each (iterateLine m) line_visits logs_iterateLine).
  - apply logs_iterateLine.
  - apply (logs_points Pnt cs (-1)).
  - apply logs_point_body.
Qed.

Lemma logs_iterateGeometry (fuel : nat) (g : GeoJSON.geometry) :
  logs (iterateGeometry m (S fuel) g) (geometry_visits g).
Proof.
  destruct Htrue as (_ & Hgs & _ & _ & _).
  cbn [iterateGeometry]. unfold geometry_visits.
  apply (returns_bind _ _ (fun _ => True) (eq VTrue) []); [apply returns_update|].
  intros _ _.
  apply (returns_bind _ _ (eq VTrue) (eq VTrue) [Call (HGeometryStart g) VTrue]).
  { apply returns_invoke. intros s. apply Hgs. }
  intros b <-.
  apply (returns_bind _ _ (eq VTrue) (eq VTrue)); [apply logs_iterateCoordinates|].
  intros b <-.
  apply (returns_bind _ _ (fun _ => True) (eq VTrue) [Call (HGeometryEnd g) VUndefined] []);
    [apply returns_enter|].
  intros _ _.
  apply (returns_bind _ _ (fun _ => True) (eq VTrue) [] []); [apply returns_update|].
  intros _ _. apply returns_mret.
Qed.

Lemma full_traversal (fuel : nat) (c : GeoJSON.collection) (add : A) (w : world E) :
  exists w',
    iterateCollection m (S fuel) c add w = Done (ret (self w'), w')
    /\ calls w' = calls w ++ collection_visits c.
Proof.
  destruct Htrue as (Hcs & _).
  assert (H1 : returns (invoke HCollectionStart (collectionStart m c add))
                 (eq VTrue) [Call HCollectionStart VTrue]).
  { apply returns_invoke. intros s. apply Hcs. }
  assert (H2 : returns (bind (iterateGeometries m (S fuel) (geometries c) (-1))
                          (fun _ => bind (enter HCollectionEnd)
                                      (fun _ => collectionEnd m c)))
                 (fun _ => True)
                 (flat_map geometry_visits (geometries c) ++ [Call HCollectionEnd VUndefined] ++ [])).
  { apply (returns_bind _ _ (eq VTrue) (fun _ => True)).
    { apply (logs_each (iterateGeometry m (S fuel)) geometry_visits
               (logs_iterateGeometry fuel)). }
    intros b _.
    apply (returns_bind _ _ (fun _ => True) (fun _ => True));
      [apply returns_enter|].
    intros _ _. apply returns_update. }
  unfold iterateCollection.
  unfold bind at 1. unfold update at 1.
  destruct (H1 (World (set_collection c (set_ret VFalse (self w))) (calls w)))
    as (b & w1 & E1 & <- & C1).
  unfold bind at 1. rewrite E1. cbn [truthy].
  destruct (H2 w1) as (x & w2 & E2 & _ & C2).
  unfold bind at 1. rewrite E2.
  exists w2. split; [reflexivity|].
  rewrite C2, C1. cbn [calls]. unfold collection_visits.
  rewrite app_nil_r, <- !app_assoc. reflexivity.
Qed.

End FullTraversal.

Section FullTraversalTheorem.

Import JS GeoJSON GeoIterator Visits.

(** X22: with hooks whose start hooks and [doPoint] always return [true],
    [iterateCollection] returns [this.ret] after calling, in this order:
    [collectionStart]; for each geometry [geometryStart], then for each
    polygon [polygonStart], [doPoint] on every coordinate of its first ring
    with indices from 0, and [polygonEnd] (for each line likewise; for the
    points of a MultiPoint [doPoint] with indices from 0, for a Point
    [doPoint] with index -1), then [geometryEnd]; and [collectionEnd]. *)
Theorem traversal_visits_first_rings_in_order :
  forall (E A : Type) (v : visitor E A) (fuel : nat) (c : GeoJSON.collection)
         (add : A) (w : world E),
    always_true v ->
    exists w',
      iterateCollection (methods_of v) (S fuel) c add w = Done (ret (self w'), w')
      /\ calls w' = calls w ++ collection_visits c.
Proof. intros E A v fuel c add w H. apply full_traversal. exact H. Qed.

Lemma traversal_visits_first_rings_in_order_witness :
  exists w',
    iterateCollection (methods_of (scripted (fun _ => VTrue))) 1
      (Collection [Point (1, 2)%R; LineString [(3, 4)%R; (5, 6)%R]]) tt
      (World (new tt) [])
    = Done (ret (self w'), w')
    /\ calls w' = calls (World (new tt) [])
                   ++ collection_visits
                        (Collection [Point (1, 2)%R; LineString [(3, 4)%R; (5, 6)%R]]).
Proof.
  apply (traversal_visits_first_rings_in_order unit unit (scripted (fun _ => VTrue)) 0).
  repeat split.
Defined.

End FullTraversalTheorem.

(** ** The counting iterator *)

Section Counting.

Import JS GeoJSON GeoIterator Visits GeoIteratorCount.

Context {X : Type}.
Variable log_declared : bool.

Let m : methods (fields X) (list X) := count log_declared.

Lemma option_map_add (a b : nat) (c : option nat) :
  option_map (Nat.add a) (option_map (Nat.add b) c) = option_map (Nat.add (b + a)) c.
Proof. destruct c as [c|]; [|reflexivity]. cbn. f_equal. lia. Qed.

Lemma counted_trans (n1 l1 p1 g1 n2 l2 p2 g2 : nat) (s s1 s2 : this (fields X)) :
  counted n1 l1 p1 g1 s s1 -> counted n2 l2 p2 g2 s1 s2 ->
  counted (n1 + n2) (l1 + l2) (p1 + p2) (g1 + g2) s s2.
Proof.
  intros (A1 & A2 & A3 & A4) (B1 & B2 & B3 & B4).
  unfold counted. rewrite B1, B2, B3, B4, A1, A2, A3, A4, !option_map_add.
  repeat split.
Qed.

Lemma option_map_add_0 (c : option nat) : option_map (Nat.add 0) c = c.
Proof. destruct c; reflexivity. Qed.

Lemma counted_refl (s s' : this (fields X)) :
  ext s' = ext s -> counted 0 0 0 0 s s'.
Proof.
  intros H. unfold counted. rewrite H, !option_map_add_0. repeat split.
Qed.

Lemma tallies_bind {Y Z : Type} (c : M (fields X) Y) (f : Y -> M (fields X) Z)
    (P : Y -> Prop) (Q : Z -> Prop) (n1 l1 p1 g1 n2 l2 p2 g2 n l p g : nat) :
  tallies c P n1 l1 p1 g1 -> (forall y, P y -> tallies (f y) Q n2 l2 p2 g2) ->
  n = n1 + n2 -> l = l1 + l2 -> p = p1 + p2 -> g = g1 + g2 ->
  tallies (bind c f) Q n l p g.
Proof.
  intros H1 H2 -> -> -> -> w. destruct (H1 w) as (y & w1 & E1 & Py & C1).
  destruct (H2 y Py w1) as (z & w2 & E2 & Qz & C2).
  exists z, w2. unfold bind. rewrite E1, E2. split; [reflexivity|]. split; [exact Qz|].
  exact (counted_trans _ _ _ _ _ _ _ _ _ _ _ C1 C2).
Qed.

Lemma tallies_same {Y : Type} (c : M (fields X) Y) (P : Y -> Prop) :
  (forall w, exists y w', c w = Done (y, w') /\ P y /\ ext (self w') = ext (self w)) ->
  tallies c P 0 0 0 0.
Proof.
  intros H w. destruct (H w) as (y & w' & E & Py & He).
  exists y, w'. repeat split; try assumption; apply counted_refl; exact He.
Qed.

Lemma tallies_mret {Y : Type} (y : Y) :
  tallies (mret (E := fields X) y) (eq y) 0 0 0 0.
Proof. apply tallies_same. intros w. exists y, w. repeat split. Qed.

Lemma tallies_point_body (wi : within) (c : Geo.coord) (i : Z) :
  tallies (point_body m wi c i) (eq VTrue) 1 0 0 0.
Proof.
  intros w. eexists VTrue, _. split; [reflexivity|]. split; [reflexivity|].
  unfold counted. cbn. rewrite !option_map_add_0. repeat split.
Qed.

Lemma tallies_points (wi : within) (cs : list Geo.coord) (i : Z) :
  tallies (while_loop (point_body m wi) cs i VTrue) (eq VTrue) (List.length cs) 0 0 0.
Proof.
  revert i. induction cs as [|c cs IH]; intros i.
  - apply tallies_mret.
  - cbn [while_loop truthy List.length].
    apply (tallies_bind _ _ (eq VTrue) (eq VTrue) 1 0 0 0 (List.length cs) 0 0 0); try lia.
    + apply tallies_point_body.
    + intros y <-. apply IH.
Qed.

Lemma tallies_iteratePolygon (p : GeoJSON.polygon) :
  tallies (iteratePolygon m p) (eq VTrue) (List.length (ring0 p)) 0 1 0.
Proof.
  unfold iteratePolygon.
  apply (tallies_bind _ _ (fun _ => True) (eq VTrue) 0 0 0 0 (List.length (ring0 p)) 0 1 0); try lia.
  { apply tallies_same. intros w. eexists tt, _. repeat split. }
  intros _ _.
  apply (tallies_bind _ _ (eq VTrue) (eq VTrue) 0 0 1 0 (List.length (ring0 p)) 0 0 0); try lia.
  { intros w. eexists VTrue, _. split; [reflexivity|]. split; [reflexivity|].
    unfold counted. cbn. rewrite !option_map_add_0. repeat split. }
  intros y <-. cbn [truthy].
  apply (tallies_bind _ _ (eq VTrue) (eq VTrue) (List.length (ring0 p)) 0 0 0 0 0 0 0); try lia.
  { apply tallies_points. }
  intros y <-.
  apply (tallies_bind _ _ (fun _ => True) (eq VTrue) 0 0 0 0 0 0 0 0); try lia.
  { apply tallies_same. intros w. eexists tt, _. repeat split. }
  intros _ _.
  apply (tallies_bind _ _ (fun _ => True) (eq VTrue) 0 0 0 0 0 0 0 0); try lia.
  { apply tallies_same. intros w. eexists tt, _. repeat split. }
  intros _ _. apply tallies_mret.
Qed.

Lemma tallies_iterateLine (l : list Geo.coord) :
  tallies (iterateLine m l) (eq VTrue) (List.length l) 1 0 0.
Proof.
  unfold iterateLine.
  apply (tallies_bind _ _ (fun _ => True) (eq VTrue) 0 0 0 0 (List.length l) 1 0 0); try lia.
  { apply tallies_same. intros w. eexists tt, _. repeat split. }
  intros _ _.
  apply (tallies_bind _ _ (eq VTrue) (eq VTrue) 0 1 0 0 (List.length l) 0 0 0); try lia.
  { intros w. eexists VTrue, _. split; [reflexivity|]. split; [reflexivity|].
    unfold counted. cbn. rewrite !option_map_add_0. repeat split. }
  intros y <-. cbn [truthy].
  apply (tallies_bind _ _ (eq VTrue) (eq VTrue) (List.length l) 0 0 0 0 0 0 0); try lia.
  { apply tallies_points. }
  intros y <-.
  apply (tallies_bind _ _ (fun _ => True) (eq VTrue) 0 0 0 0 0 0 0 0); try lia.
  { apply tallies_same. intros w. eexists tt, _. repeat split. }
  intros _ _.
  apply (tallies_bind _ _ (fun _ => True) (eq VTrue) 0 0 0 0 0 0 0 0); try lia.
  { apply tallies_same. intros w. eexists tt, _. repeat split. }
  intros _ _. apply tallies_mret.
Qed.

Lemma tallies_each {Y : Type} (body : Y -> M (fields X) value) (n l p : Y -> nat) :
  (forall y, tallies (body y) (eq VTrue) (n y) (l y) (p y) 0) ->
  forall ys i,
    tallies (while_loop (fun y _ => body y) ys i VTrue) (eq VTrue)
      (list_sum (map n ys)) (list_sum (map l ys)) (list_sum (map p ys)) 0.
Proof.
  intros Hb ys. induction ys as [|y ys IH]; intros i.
  - apply tallies_mret.
  - cbn [while_loop truthy map list_sum].
    apply (tallies_bind _ _ (eq VTrue) (eq VTrue) (n y) (l y) (p y) 0
             (list_sum (map n ys)) (list_sum (map l ys)) (list_sum (map p ys)) 0);
      try reflexivity.
    + apply Hb.
    + intros b <-. apply IH.
Qed.

Lemma list_sum_ones {Y : Type} (ys : list Y) :
  list_sum (map (fun _ => 1) ys) = List.length ys.
Proof. induction ys as [|y ys IH]; simpl; [reflexivity|]. f_equal. exact IH. Qed.

Lemma list_sum_zeros {Y : Type} (ys : list Y) : list_sum (map (fun _ => 0) ys) = 0.
Proof. induction ys as [|y ys IH]; simpl; [reflexivity|exact IH]. Qed.

Lemma tallies_iterateCoordinates (g : GeoJSON.geometry) :
  tallies (iterateCoordinates m g) (eq VTrue)
    (count_points g) (count_lines g) (count_polygons g) 0.
Proof.
  destruct g as [ps|p|ls|l|cs|c];
    cbn [iterateCoordinates count_points count_lines count_polygons].
  - pose proof (tallies_each (iteratePolygon m)
                  (fun p => List.length (ring0 p)) (fun _ => 0) (fun _ => 1)
                  tallies_iteratePolygon ps (-1)) as H.
    rewrite list_sum_ones, list_sum_zeros in H. exact H.
  - apply tallies_iteratePolygon.
  - pose proof (tallies_each (iterateLine m)
                  (@List.length Geo.coord) (fun _ => 1) (fun _ => 0)
                  tallies_iterateLine ls (-1)) as H.
    rewrite list_sum_ones, list_sum_zeros in H. exact H.
  - apply tallies_iterateLine.
  - apply (tallies_points Pnt cs (-1)).
  - apply tallies_point_body.
Qed.

Lemma tallies_iterateGeometry (fuel : nat) (g : GeoJSON.geometry) :
  tallies (iterateGeometry m (S fuel) g) (eq VTrue)
    (count_points g) (count_lines g) (count_polygons g) 1.
Proof.
  cbn [iterateGeometry].
  apply (tallies_bind _ _ (fun _ => True) (eq VTrue) 0 0 0 0
           (count_points g) (count_lines g) (count_polygons g) 1); try lia.
  { apply tallies_same. intros w. eexists tt, _. repeat split. }
  intros _ _.
  apply (tallies_bind _ _ (eq VTrue) (eq VTrue) 0 0 0 1
           (count_points g) (count_lines g) (count_polygons g) 0); try lia.
  { intros w. eexists VTrue, _. split; [reflexivity|]. split; [reflexivity|].
    unfold counted. cbn. rewrite !option_map_add_0. repeat split. }
  intros y <-.
  apply (tallies_bind _ _ (eq VTrue) (eq VTrue)
           (count_points g) (count_lines g) (count_polygons g) 0 0 0 0 0); try lia.
  { apply tallies_iterateCoordinates. }
  intros y <-.
  apply (tallies_bind _ _ (fun _ => True) (eq VTrue) 0 0 0 0 0 0 0 0); try lia.
  { apply tallies_same. intros w. eexists tt, _. repeat split. }
  intros _ _.
  apply (tallies_bind _ _ (fun _ => True) (eq VTrue) 0 0 0 0 0 0 0 0); try lia.
  { apply tallies_same. intros w. eexists tt, _. repeat split. }
  intros _ _. apply tallies_mret.
Qed.

End Counting.

Section CountTheorems.

Import JS GeoJSON GeoIterator Visits GeoIteratorCount.

(** X23: once its counters hold numbers, [iterateGeometry] on a
    GeoIteratorCount returns [true] and adds to them the number of
    coordinates it reaches (those of the first ring of each polygon), of
    lines, of polygons, and one geometry. *)
Theorem count_iterateGeometry_counts :
  forall (X : Type) (log_declared : bool) (fuel : nat) (g : GeoJSON.geometry)
         (w : world (fields X)) (n l p k : nat),
    points (ext (self w)) = Some n -> lines (ext (self w)) = Some l ->
    polygons (ext (self w)) = Some p -> geometries (ext (self w)) = Some k ->
    exists w',
      iterateGeometry (count log_declared) (S fuel) g w = Done (VTrue, w')
      /\ points (ext (self w')) = Some (count_points g + n)
      /\ lines (ext (self w')) = Some (count_lines g + l)
      /\ polygons (ext (self w')) = Some (count_polygons g + p)
      /\ geometries (ext (self w')) = Some (1 + k).
Proof.
  intros X lg fuel g w n l p k Hn Hl Hp Hk.
  destruct (tallies_iterateGeometry lg fuel g w) as (y & w' & E & <- & C1 & C2 & C3 & C4).
  exists w'. rewrite C1, C2, C3, C4, Hn, Hl, Hp, Hk. repeat split. exact E.
Qed.

Lemma count_iterateGeometry_counts_witness :
  exists w',
    iterateGeometry (count (X := unit) false) 1
      (MultiLineString [[(1, 2)%R; (3, 4)%R]; [(5, 6)%R]])
      (World (new (Fields (X := unit) None None None None (Some 0) (Some 0) (Some 0) (Some 0))) [])
    = Done (VTrue, w')
    /\ points (ext (self w'))
       = Some (count_points (MultiLineString [[(1, 2)%R; (3, 4)%R]; [(5, 6)%R]]) + 0)
    /\ lines (ext (self w'))
       = Some (count_lines (MultiLineString [[(1, 2)%R; (3, 4)%R]; [(5, 6)%R]]) + 0)
    /\ polygons (ext (self w'))
       = Some (count_polygons (MultiLineString [[(1, 2)%R; (3, 4)%R]; [(5, 6)%R]]) + 0)
    /\ geometries (ext (self w')) = Some (1 + 0).
Proof.
  apply (count_iterateGeometry_counts unit false 0
           (MultiLineString [[(1, 2)%R; (3, 4)%R]; [(5, 6)%R]])
           (World (new (Fields (X := unit) None None None None (Some 0) (Some 0) (Some 0) (Some 0))) []));
    reflexivity.
Defined.

(** X24: the [collectionStart] of GeoIteratorCount has no [return]
    statement, so [iterateCollection] resets the four counters to 0, visits
    no geometry and returns [false], whatever the collection holds. *)
Theorem count_iterateCollection_counts_nothing :
  forall (X : Type) (log_declared : bool) (fuel : nat) (c : GeoJSON.collection)
         (add : list X) (w : world (fields X)),
    exists s',
      iterateCollection (count log_declared) fuel c add w
      = Done (VFalse, World s' (calls w ++ [Call HCollectionStart VUndefined]))
      /\ points (ext s') = Some 0 /\ lines (ext s') = Some 0
      /\ polygons (ext s') = Some 0 /\ geometries (ext s') = Some 0.
Proof.
  intros X lg fuel c add w. eexists. split; [reflexivity|].
  cbn. repeat split.
Qed.

End CountTheorems.

(** ** The palette index and the hit test *)

Section Palette.

Import GeoIteratorScale.

(** X25: for a geometry rank between 1 and the zoom rank, itself at most the
    palette length, [calcPaletteIndex] is an index of the palette; the zoom
    rank itself gets the last entry, and a rank of 0, [false] or [undefined]
    the first. *)
Theorem calcPaletteIndex_within_palette :
  forall zoomScaleRank geomScaleRank maxScaleRank : Z,
    (1 <= geomScaleRank <= zoomScaleRank)%Z -> (zoomScaleRank <= maxScaleRank)%Z ->
    (0 <= calcPaletteIndex zoomScaleRank (Some geomScaleRank) maxScaleRank < maxScaleRank)%Z
    /\ calcPaletteIndex zoomScaleRank (Some zoomScaleRank) maxScaleRank
       = (maxScaleRank - 1)%Z
    /\ calcPaletteIndex zoomScaleRank None maxScaleRank = 0%Z
    /\ calcPaletteIndex zoomScaleRank (Some 0%Z) maxScaleRank = 0%Z.
Proof.
  intros z g mx Hg Hz. unfold calcPaletteIndex. cbv zeta.
  destruct (Z.eqb_spec g 0); [lia|].
  destruct (Z.eqb_spec z 0); [lia|].
  repeat split; lia.
Qed.

Lemma calcPaletteIndex_within_palette_witness :
  (0 <= calcPaletteIndex 4 (Some 2%Z) 6 < 6)%Z
  /\ calcPaletteIndex 4 (Some 4%Z) 6 = (6 - 1)%Z
  /\ calcPaletteIndex 4 None 6 = 0%Z
  /\ calcPaletteIndex 4 (Some 0%Z) 6 = 0%Z.
Proof. apply (calcPaletteIndex_within_palette 4 2 6); lia. Defined.

End Palette.

Section HitTest.

Import Geo GeoJSON GeoIteratorHitTest.
Local Open Scope R_scope.

(** The loop toggles [inside] once for every crossing edge. *)
Lemma pointInPolygon_from_xor (x y : R) (ps : list coord) (pj : coord) (inside : bool) :
  pointInPolygon_from x y pj ps inside
  = xorb inside (pointInPolygon_from x y pj ps false).
Proof.
  revert pj inside. induction ps as [|p ps IH]; intros pj inside.
  - cbn. destruct inside; reflexivity.
  - cbn [pointInPolygon_from].
    rewrite (IH p (if crosses x y p pj then negb inside else inside)).
    rewrite (IH p (if crosses x y p pj then negb false else false)).
    destruct (crosses x y p pj), inside,
      (pointInPolygon_from x y p ps false); reflexivity.
Qed.

Lemma last_cons_default {X : Type} (xs : list X) (x d : X) :
  last (x :: xs) d = last xs x.
Proof.
  revert x d. induction xs as [|y ys IH]; intros x d; [reflexivity|].
  change (last (x :: y :: ys) d) with (last (y :: ys) d).
  rewrite (IH y d), (IH y x). reflexivity.
Qed.

Lemma pointInPolygon_from_app (x y : R) (ps qs : list coord) (pj : coord) (inside : bool) :
  pointInPolygon_from x y pj (ps ++ qs) inside
  = pointInPolygon_from x y (last ps pj) qs (pointInPolygon_from x y pj ps inside).
Proof.
  revert pj inside. induction ps as [|p ps IH]; intros pj inside; [reflexivity|].
  cbn [app pointInPolygon_from]. rewrite IH. f_equal.
  symmetry. apply last_cons_default.
Qed.

Lemma crosses_same (x y : R) (p : coord) : crosses x y p p = false.
Proof. unfold crosses. rewrite Bool.eqb_reflx. reflexivity. Qed.

Lemma last_app_one {X : Type} (xs : list X) (a d : X) : last (xs ++ [a]) d = a.
Proof. apply last_last. Qed.

(** X26: [pointInPolygon] gives the same answer for a ring and for the ring
    closed by a copy of its first point. *)
Theorem pointInPolygon_closed_ring :
  forall (pt : coord) (p0 : coord) (ps : list coord),
    pointInPolygon pt (p0 :: ps ++ [p0]) = pointInPolygon pt (p0 :: ps).
Proof.
  intros [x y] p0 ps. unfold pointInPolygon. cbn [fst snd].
  replace (last (p0 :: ps ++ [p0]) p0) with p0.
  2:{ change (p0 :: ps ++ [p0]) with ((p0 :: ps) ++ [p0]).
      symmetry. apply last_app_one. }
  cbn [pointInPolygon_from]. rewrite crosses_same.
  rewrite pointInPolygon_from_app. cbn [pointInPolygon_from].
  set (l := last ps p0).
  replace (last (p0 :: ps) p0) with l by (symmetry; apply last_cons_default).
  rewrite (pointInPolygon_from_xor x y ps p0
             (if crosses x y p0 l then negb false else false)).
  destruct (crosses x y p0 l), (pointInPolygon_from x y p0 ps false); reflexivity.
Qed.

Lemma Rltb_spec (a b : R) : Rltb a b = true <-> a < b.
Proof. unfold Rltb. destruct (Rlt_dec a b); split; intros; try assumption; try reflexivity; try discriminate; contradiction. Qed.

(** X27: for the closed ring of an upright rectangle, [pointInPolygon] holds
    exactly of the points with [x0 <= x < x1] and [y0 <= y < y1]: the left
    and lower edges are inside, the right and upper edges outside. *)
Theorem pointInPolygon_rectangle :
  forall x0 y0 x1 y1 x y : R,
    x0 < x1 -> y0 < y1 ->
    (pointInPolygon (x, y) [(x0, y0); (x1, y0); (x1, y1); (x0, y1); (x0, y0)] = true
     <-> x0 <= x < x1 /\ y0 <= y < y1).
Proof.
  intros x0 y0 x1 y1 x y Hx Hy.
  unfold pointInPolygon. cbn [last fst snd pointInPolygon_from].
  unfold crosses. cbn [fst snd].
  rewrite !Bool.eqb_reflx. cbn [negb].
  replace ((x1 - x1) * (y - y1) / (y0 - y1) + x1) with x1 by (field; lra).
  replace ((x0 - x0) * (y - y0) / (y1 - y0) + x0) with x0 by (field; lra).
  unfold Rltb.
  destruct (Rlt_dec y y0), (Rlt_dec y y1), (Rlt_dec x x0), (Rlt_dec x x1);
    cbn; split; intros H; try discriminate; try reflexivity; try lra.
Qed.

Lemma pointInPolygon_rectangle_witness :
  pointInPolygon (0, 0) [(0, 0); (2, 0); (2, 1); (0, 1); (0, 0)] = true
  <-> 0 <= 0 < 2 /\ 0 <= 0 < 1.
Proof. apply (pointInPolygon_rectangle 0 0 2 1 0 0); lra. Defined.

End HitTest.

(** ** The points on the circumference *)

Section Circumference.

Import Geo Projection GeoIteratorClip.
Local Open Scope R_scope.

Lemma polar_of_atan (x1 y1 : R) :
  0 < x1 ->
  cos (atan (y1 / x1)) = x1 / sqrt (x1 * x1 + y1 * y1)
  /\ sin (atan (y1 / x1)) = y1 / sqrt (x1 * x1 + y1 * y1).
Proof.
  intros Hx.
  assert (Hρ : 0 < sqrt (x1 * x1 + y1 * y1)).
  { apply sqrt_lt_R0. pose proof (Rle_0_sqr y1) as H2. unfold Rsqr in H2.
    assert (0 < x1 * x1) by (apply Rmult_lt_0_compat; lra). lra. }
  pose proof (cos_atan_quot x1 y1 Hx) as Hc.
  pose proof (sin_atan_quot x1 y1 Hx) as Hs.
  split.
  - rewrite <- Hc at 2. field. lra.
  - rewrite <- Hs at 2. field. lra.
Qed.

(** The angle found by [extendToCircumference] is the polar angle of the
    point seen from the centre. *)
Lemma extend_angle (x1 y1 : R) :
  x1 <> 0 \/ y1 <> 0 ->
  exists t,
    match atan_quotient y1 x1 with
    | Some t0 => Some (if Rlt_dec x1 0 then t0 + PI else t0)
    | None => None
    end = Some t
    /\ cos t = x1 / sqrt (x1 * x1 + y1 * y1)
    /\ sin t = y1 / sqrt (x1 * x1 + y1 * y1).
Proof.
  intros Hne. unfold atan_quotient.
  destruct (Req_dec_T x1 0) as [Hz|Hnz].
  - subst x1. assert (Hy : y1 <> 0) by (destruct Hne; [contradiction|assumption]).
    replace (0 * 0 + y1 * y1) with (y1 * y1) by ring.
    destruct (Rlt_dec 0 0) as [H|_]; [lra|].
    destruct (Rlt_dec 0 y1) as [Hp|Hp].
    + exists (PI / 2). split; [reflexivity|].
      rewrite sqrt_square by lra. rewrite cos_PI2, sin_PI2.
      split; field; lra.
    + destruct (Rlt_dec y1 0) as [Hn|Hn]; [|lra].
      exists (- (PI / 2)). split; [reflexivity|].
      replace (y1 * y1) with ((- y1) * (- y1)) by ring.
      rewrite sqrt_square by lra. rewrite cos_neg, sin_neg, cos_PI2, sin_PI2.
      split; field; lra.
  - destruct (Rlt_dec x1 0) as [Hneg|Hpos].
    + exists (atan (y1 / x1) + PI). split; [reflexivity|].
      rewrite neg_cos, neg_sin.
      replace (y1 / x1) with ((- y1) / (- x1)) by (field; lra).
      destruct (polar_of_atan (- x1) (- y1) ltac:(lra)) as [Hc Hs].
      rewrite Hc, Hs.
      replace (- x1 * - x1 + - y1 * - y1) with (x1 * x1 + y1 * y1) by ring.
      assert (Hρ : 0 < sqrt (x1 * x1 + y1 * y1)).
      { apply sqrt_lt_R0. pose proof (Rle_0_sqr y1) as H2. unfold Rsqr in H2.
        assert (0 < x1 * x1) by (apply Rsqr_pos_lt in Hnz; exact Hnz). lra. }
      split; field; lra.
    + exists (atan (y1 / x1)). split; [reflexivity|].
      apply polar_of_atan. lra.
Qed.

(** X28: for a point other than the centre, [extendToCircumference] returns
    the point of the circle of radius [r] on the ray from the centre through
    the point. *)
Theorem extendToCircumference_is_radial :
  forall (x y : R) (vis : bool) (ctr : R * R) (r : R),
    (x, y) <> ctr ->
    exists x2 y2,
      ept (extendToCircumference (Some (Pixel (Some x) (Some y) vis)) ctr r)
      = (Some x2, Some y2)
      /\ x2 - fst ctr
         = (x - fst ctr) / sqrt ((x - fst ctr) * (x - fst ctr) + (y - snd ctr) * (y - snd ctr)) * r
      /\ y2 - snd ctr
         = (y - snd ctr) / sqrt ((x - fst ctr) * (x - fst ctr) + (y - snd ctr) * (y - snd ctr)) * r
      /\ (x2 - fst ctr) * (x2 - fst ctr) + (y2 - snd ctr) * (y2 - snd ctr) = r * r.
Proof.
  intros x y vis [cx cy] r Hne. cbn [fst snd].
  assert (Hne' : x - cx <> 0 \/ y - cy <> 0).
  { destruct (Req_dec_T (x - cx) 0) as [Hx|Hx]; [|left; exact Hx].
    right. intros Hy. apply Hne. f_equal; lra. }
  destruct (extend_angle (x - cx) (y - cy) Hne') as (t & Et & Hc & Hs).
  unfold extendToCircumference. cbn [x_of y_of px py num2 fst snd]. cbv zeta.
  rewrite Et. cbn [option_map num2 ept].
  exists (cos t * r + cx), (sin t * r + cy).
  split; [reflexivity|].
  assert (Hρ : 0 < sqrt ((x - cx) * (x - cx) + (y - cy) * (y - cy))).
  { apply sqrt_lt_R0.
    pose proof (Rle_0_sqr (x - cx)) as H1. pose proof (Rle_0_sqr (y - cy)) as H2.
    unfold Rsqr in H1, H2.
    destruct Hne' as [H|H]; apply Rsqr_pos_lt in H; unfold Rsqr in H; lra. }
  split; [rewrite Hc; ring|]. split; [rewrite Hs; ring|].
  pose proof (sin2_cos2 t) as Hu. unfold Rsqr in Hu.
  replace ((cos t * r + cx - cx) * (cos t * r + cx - cx)
           + (sin t * r + cy - cy) * (sin t * r + cy - cy))
    with ((sin t * sin t + cos t * cos t) * (r * r)) by ring.
  rewrite Hu. ring.
Qed.

Lemma extendToCircumference_is_radial_witness :
  exists x2 y2,
    ept (extendToCircumference (Some (Pixel (Some 3) (Some 4) true)) (0, 0) 10)
    = (Some x2, Some y2)
    /\ x2 - fst (0, 0)
       = (3 - fst (0, 0)) / sqrt ((3 - fst (0, 0)) * (3 - fst (0, 0)) + (4 - snd (0, 0)) * (4 - snd (0, 0))) * 10
    /\ y2 - snd (0, 0)
       = (4 - snd (0, 0)) / sqrt ((3 - fst (0, 0)) * (3 - fst (0, 0)) + (4 - snd (0, 0)) * (4 - snd (0, 0))) * 10
    /\ (x2 - fst (0, 0)) * (x2 - fst (0, 0)) + (y2 - snd (0, 0)) * (y2 - snd (0, 0)) = 10 * 10.
Proof.
  apply (extendToCircumference_is_radial 3 4 true (0, 0) 10).
  intros H. injection H as H1 H2. lra.
Defined.

(** X29: at the centre itself the quotient is 0/0: the angle and both
    coordinates are NaN. *)
Theorem extendToCircumference_at_the_centre :
  forall (ctr : R * R) (vis : bool) (r : R),
    extendToCircumference (Some (Pixel (Some (fst ctr)) (Some (snd ctr)) vis)) ctr r
    = Extended None (None, None).
Proof.
  intros [cx cy] vis r. unfold extendToCircumference.
  cbn [x_of y_of px py num2 fst snd]. cbv zeta.
  replace (cx - cx) with 0 by ring. replace (cy - cy) with 0 by ring.
  unfold atan_quotient.
  destruct (Req_dec_T 0 0) as [_|H]; [|contradiction].
  destruct (Rlt_dec 0 0) as [H|_]; [lra|]. reflexivity.
Qed.

(** X30: when the two angles are not opposite, [findTangent] returns the
    point where the tangents to the circle at the two angles meet: seen from
    either point of tangency it is perpendicular to the radius. *)
Theorem findTangent_meets_both_tangents :
  forall (tb tc : R) (pb pc : num * num) (ctr : R * R) (r : R),
    cos ((tc - tb) / 2) <> 0 ->
    exists ex ey,
      findTangent (Extended (Some tb) pb) (Extended (Some tc) pc) ctr r = (Some ex, Some ey)
      /\ (ex - (fst ctr + r * cos tb)) * (r * cos tb)
         + (ey - (snd ctr + r * sin tb)) * (r * sin tb) = 0
      /\ (ex - (fst ctr + r * cos tc)) * (r * cos tc)
         + (ey - (snd ctr + r * sin tc)) * (r * sin tc) = 0.
Proof.
  intros tb tc pb pc [cx cy] r Hc. unfold findTangent.
  cbn [θ num2 option_map fst snd]. cbv zeta.
  destruct (Req_dec_T (cos ((tc - tb) / 2)) 0) as [H|_]; [contradiction|].
  cbn [num2 option_map].
  eexists _, _. split; [reflexivity|].
  set (d := (tc - tb) / 2) in *. set (t3 := tb + d).
  assert (Eb : cos t3 * cos tb + sin t3 * sin tb = cos d).
  { rewrite <- cos_minus. f_equal. unfold t3. ring. }
  assert (Ec : cos t3 * cos tc + sin t3 * sin tc = cos d).
  { rewrite <- cos_minus. rewrite <- (cos_neg d). f_equal. unfold t3, d. field. }
  pose proof (sin2_cos2 tb) as Ub. pose proof (sin2_cos2 tc) as Uc.
  unfold Rsqr in Ub, Uc.
  split.
  - replace ((cx + r / cos d * cos t3 - (cx + r * cos tb)) * (r * cos tb)
             + (cy + r / cos d * sin t3 - (cy + r * sin tb)) * (r * sin tb))
      with (r * r / cos d * (cos t3 * cos tb + sin t3 * sin tb)
            - r * r * (sin tb * sin tb + cos tb * cos tb)) by (field; exact Hc).
    rewrite Eb, Ub. field. exact Hc.
  - replace ((cx + r / cos d * cos t3 - (cx + r * cos tc)) * (r * cos tc)
             + (cy + r / cos d * sin t3 - (cy + r * sin tc)) * (r * sin tc))
      with (r * r / cos d * (cos t3 * cos tc + sin t3 * sin tc)
            - r * r * (sin tc * sin tc + cos tc * cos tc)) by (field; exact Hc).
    rewrite Ec, Uc. field. exact Hc.
Qed.

Lemma findTangent_meets_both_tangents_witness :
  exists ex ey,
    findTangent (Extended (Some 0) (None, None)) (Extended (Some (PI / 2)) (None, None))
      (0, 0) 10 = (Some ex, Some ey)
    /\ (ex - (fst (0, 0) + 10 * cos 0)) * (10 * cos 0)
       + (ey - (snd (0, 0) + 10 * sin 0)) * (10 * sin 0) = 0
    /\ (ex - (fst (0, 0) + 10 * cos (PI / 2))) * (10 * cos (PI / 2))
       + (ey - (snd (0, 0) + 10 * sin (PI / 2))) * (10 * sin (PI / 2)) = 0.
Proof.
  apply (findTangent_meets_both_tangents 0 (PI / 2) (None, None) (None, None) (0, 0) 10).
  replace ((PI / 2 - 0) / 2) with (PI / 4) by field.
  rewrite cos_PI4. assert (H := sqrt2_neq_0).
  apply Rgt_not_eq. apply Rdiv_lt_0_compat; [lra|]. apply Rlt_sqrt2_0.
Defined.

End Circumference.
